(** * flask-media-dl: a shallow embedding of the downloader and its YouTube wrapper

    The development follows the layout of the Python package:
    - [Re]      : the fragment of Python's [re] module used by [utils.py];
    - [Utils]   : [flask_media_dl/utils.py] (identifier classification);
    - [Youtube] : [flask_media_dl/platforms/youtube.py] (JSON cache, playlist
                  merging, video enrichment and subsetting);
    - [Downloader] : [flask_media_dl/downloaders/youtube_downloader.py]
                  (size parsing, batching, download loop, failure threshold).

    Python strings are modelled as [string] (a non-ASCII code point is a run of
    bytes above 127, none of which belongs to a character class used here),
    Python integers as [Z], dictionaries used as maps as [gmap], raised
    exceptions as the [Raise] branch of an explicit result type.  The floats
    of [get_video_json] are binary64 values, held as the rationals they are
    and rounded to nearest, ties to even, by every operation. *)

From Stdlib Require Import ZArith QArith String Ascii List Lia Bool Permutation
  Sorted.
From stdpp Require Import gmap strings list.
Import ListNotations.
Open Scope string_scope.
Open Scope list_scope.
Open Scope Z_scope.

(** ** Python exceptions and results *)

Inductive exn :=
| ValueError (msg : string)
| TypeError
| KeyError
| IndexError
| FileNotFoundError
| UnboundLocalError (var : string)
| OSError (msg : string)
| SystemExit (code : Z)
| AttributeError
| HTTPError
| OtherError (msg : string).

Inductive result (A : Type) :=
| Ok (a : A)
| Raise (e : exn).
Arguments Ok {A} a.
Arguments Raise {A} e.

#[global] Instance result_ret : MRet result := fun _ a => Ok a.

#[global] Instance result_bind : MBind result := fun _ _ k m =>
  match m with
  | Ok a => k a
  | Raise e => Raise e
  end.

(** ** The regular expressions of [re] used by the package *)

Module Re.

(** Pattern syntax: literals, character sets, concatenation, alternation and
    the counted repetition [r{n,}] ([r+] is [r{1,}], [r*] is [r{0,}]).
    [Fail] and [Eps] only arise as derivatives. *)
Inductive regex :=
| Fail
| Eps
| Lit (c : ascii)
| CharSet (p : ascii -> bool)
| Seq (r1 r2 : regex)
| Alt (r1 r2 : regex)
| AtLeast (n : nat) (r : regex).

(** The language of a pattern. *)
Inductive matches : regex -> list ascii -> Prop :=
| MEps : matches Eps []
| MLit c : matches (Lit c) [c]
| MCharSet p c : p c = true -> matches (CharSet p) [c]
| MSeq r1 r2 s1 s2 :
    matches r1 s1 -> matches r2 s2 -> matches (Seq r1 r2) (s1 ++ s2)
| MAltL r1 r2 s : matches r1 s -> matches (Alt r1 r2) s
| MAltR r1 r2 s : matches r2 s -> matches (Alt r1 r2) s
| MAtLeastNil r : matches (AtLeast 0 r) []
| MAtLeastStep n r s1 s2 :
    matches r s1 -> matches (AtLeast (pred n) r) s2 ->
    matches (AtLeast n r) (s1 ++ s2).

(** The matcher: Brzozowski derivatives. *)
Fixpoint nullable (r : regex) : bool :=
  match r with
  | Fail => false
  | Eps => true
  | Lit _ => false
  | CharSet _ => false
  | Seq r1 r2 => nullable r1 && nullable r2
  | Alt r1 r2 => nullable r1 || nullable r2
  | AtLeast n r => Nat.eqb n 0 || nullable r
  end.

Fixpoint deriv (c : ascii) (r : regex) : regex :=
  match r with
  | Fail => Fail
  | Eps => Fail
  | Lit a => if Ascii.eqb a c then Eps else Fail
  | CharSet p => if p c then Eps else Fail
  | Seq r1 r2 =>
      if nullable r1
      then Alt (Seq (deriv c r1) r2) (deriv c r2)
      else Seq (deriv c r1) r2
  | Alt r1 r2 => Alt (deriv c r1) (deriv c r2)
  | AtLeast n r => Seq (deriv c r) (AtLeast (pred n) r)
  end.

Fixpoint fullmatch_list (r : regex) (s : list ascii) : bool :=
  match s with
  | [] => nullable r
  | c :: s' => fullmatch_list (deriv c r) s'
  end.

Definition fullmatch (r : regex) (s : string) : bool :=
  fullmatch_list r (list_ascii_of_string s).

(** [re.match("^" r "$", s)]: the match starts at the beginning of [s], and
    [$] holds at the end of [s] or just before a newline that ends [s]. *)
Definition newline : ascii := "010"%char.

Definition dollar_ends (s : list ascii) : list (list ascii) :=
  s :: match rev s with
       | c :: t => if Ascii.eqb c newline then [rev t] else []
       | [] => []
       end.

Definition match_anchored (r : regex) (s : string) : bool :=
  existsb (fullmatch_list r) (dollar_ends (list_ascii_of_string s)).

(** The same, as a specification over the language of [r]. *)
Definition Matches_anchored (r : regex) (s : string) : Prop :=
  matches r (list_ascii_of_string s) \/
  exists t, list_ascii_of_string s = t ++ [newline] /\ matches r t.

(** Character ranges. *)
Definition in_range (lo hi c : ascii) : bool :=
  (nat_of_ascii lo <=? nat_of_ascii c)%nat && (nat_of_ascii c <=? nat_of_ascii hi)%nat.

Definition lit_string (s : string) : regex :=
  fold_right (fun c r => Seq (Lit c) r) Eps (list_ascii_of_string s).

End Re.

(** ** [utils.py] *)

Module Utils.
Import Re.

(** The set [[-_a-zA-Z0-9]]. *)
Definition id_char (c : ascii) : bool :=
  Ascii.eqb c "-" || Ascii.eqb c "_" ||
  in_range "a" "z" c || in_range "A" "Z" c || in_range "0" "9" c.

(** The set [[a-zA-Z0-9]]. *)
Definition alnum_char (c : ascii) : bool :=
  in_range "a" "z" c || in_range "A" "Z" c || in_range "0" "9" c.

(** [r"^PL[-_a-zA-Z0-9]{16,}$"], [r"^UC[-_a-zA-Z0-9]{22,}$"] and
    [r"^[a-zA-Z0-9]+$"], without their anchors. *)
Definition PLAYLIST_RE : regex :=
  Seq (Lit "P") (Seq (Lit "L") (AtLeast 16 (CharSet id_char))).
Definition CHANNEL_RE : regex :=
  Seq (Lit "U") (Seq (Lit "C") (AtLeast 22 (CharSet id_char))).
Definition USER_RE : regex := AtLeast 1 (CharSet alnum_char).

(** The argument of [get_id_type]: [None], a [str], a [list] (of [str]), or
    an object of any other type. *)
Inductive py_id :=
| IdNone
| IdStr (s : string)
| IdList (l : list string)
| IdOther.

(** [get_id_type]; the function falls off its end, returning [None], when
    the argument is neither [None], a string nor a list. *)
Definition get_id_type (id : py_id) : option string :=
  match id with
  | IdNone => None
  | IdStr s =>
      if match_anchored PLAYLIST_RE s then Some "playlist"
      else if match_anchored CHANNEL_RE s then Some "channel"
      else if match_anchored USER_RE s then Some "user"
      else None
  | IdList l =>
      if forallb (match_anchored PLAYLIST_RE) l then Some "playlist"
      else None
  | IdOther => None
  end.

(** [s.startswith(prefix)] on the characters of the two strings. *)
Fixpoint startswith_list (prefix s : list ascii) : bool :=
  match prefix, s with
  | [], _ => true
  | a :: prefix, b :: s => Ascii.eqb a b && startswith_list prefix s
  | _ :: _, [] => false
  end.

Definition startswith (s prefix : string) : bool :=
  startswith_list (list_ascii_of_string prefix) (list_ascii_of_string s).

(** [s.endswith(suffix)] *)
Definition endswith (s suffix : string) : bool :=
  startswith_list (rev (list_ascii_of_string suffix))
                  (rev (list_ascii_of_string s)).

(** [check_file_type] *)
Definition check_file_type (file : string) : option string :=
  if endswith file ".csv" then Some "csv"
  else if endswith file ".txt" then Some "txt"
  else None.

End Utils.

(** ** [platforms/youtube.py] *)

Module Youtube.

(** *** The JSON documents of the cache *)

(** An item of the channel's playlist list ([PLAYLIST_API] with [part=id]). *)
Record playlist_ref := {
  ref_kind : string;
  ref_etag : string;
  ref_id : string;                       (* item["id"] *)
}.

(** A PlaylistItem, the element of a [playlist_<id>_videos] document. *)
Record playlist_item := {
  item_videoId : string;                 (* item["contentDetails"]["videoId"] *)
  item_title : string;                   (* item["snippet"]["title"] *)
  item_position : Z;                     (* item["snippet"]["position"] *)
}.

Record playlist_snippet := {
  snippet_title : string;
  snippet_description : string;
  snippet_channelId : string;
  snippet_channelTitle : string;
}.

(** A playlist resource; the synthetic list entry written by
    [merge_playlists] has no snippet. *)
Record playlist_json := {
  pl_kind : string;
  pl_etag : string;
  pl_id : string;
  pl_snippet : option playlist_snippet;
}.

Record channel_json := {
  ch_id : string;                        (* channel["id"] *)
  ch_title : string;                     (* channel["snippet"]["title"] *)
  ch_uploads : string;  (* channel["contentDetails"]["relatedPlaylists"]["uploads"] *)
}.

#[global] Instance playlist_ref_eq_dec : EqDecision playlist_ref.
Proof. solve_decision. Defined.

(** The content of one [<key>.json] file of the cache directory, with the
    shapes the package writes.  Where the code uses a loaded value as a list
    of one kind and the file holds another shape, the model raises
    [TypeError] at that use; Python raises at the first subscript of an
    element, if it reaches one.  [DCorrupt] is a file [json.load] fails on. *)
Inductive document :=
| DPlaylists (items : list playlist_ref)
| DVideos (items : list playlist_item)
| DPlaylist (p : playlist_json)
| DChannel (c : channel_json)
| DCorrupt.

(** [YOUTUBE.cache_dir]: file name (without [.json]) to content. *)
Abbreviation cache := (gmap string document).

(** *** Cache access: state and exceptions *)

(** A computation reads and writes the cache and returns or raises; what it
    wrote before raising stays written. *)
Definition M (A : Type) : Type := cache -> result A * cache.

#[global] Instance M_ret : MRet M := fun _ a c => (Ok a, c).

#[global] Instance M_bind : MBind M := fun _ _ k m c =>
  match m c with
  | (Ok a, c') => k a c'
  | (Raise e, c') => (Raise e, c')
  end.

Definition raise {A} (e : exn) : M A := fun c => (Raise e, c).

(** [utils.load_json]: [None] when the file is missing or unreadable. *)
Definition load_json (key : string) : M (option document) := fun c =>
  (Ok match c !! key with
      | Some DCorrupt => None
      | o => o
      end, c).

(** [utils.save_json]. *)
Definition save_json (key : string) (data : document) : M unit := fun c =>
  (Ok tt, <[key := data]> c).

(** [os.remove] of the file of [key]. *)
Definition os_remove (key : string) : M unit := fun c =>
  match c !! key with
  | Some _ => (Ok tt, delete key c)
  | None => (Raise FileNotFoundError, c)
  end.

Definition playlist_videos_key (playlist_id : string) : string :=
  "playlist_" +:+ playlist_id +:+ "_videos".
Definition playlist_key (playlist_id : string) : string :=
  "playlist_" +:+ playlist_id.
Definition channel_playlists_key (channel_id : string) : string :=
  "channel_" +:+ channel_id +:+ "_playlists".
Definition channel_key (channel_id : string) : string :=
  "channel_" +:+ channel_id.

(** *** [get_channel_playlists_json] and [merge_playlists] *)

(** [list.remove(x)]: drops the first element equal to [x]. *)
Fixpoint list_remove (x : playlist_ref) (l : list playlist_ref)
  : option (list playlist_ref) :=
  match l with
  | [] => None
  | y :: t => if decide (y = x) then Some t else cons y <$> list_remove x t
  end.

(** [channel_playlists_json.remove(item)] on a freshly loaded document. *)
Definition remove_item (item : playlist_ref) (d : option document)
  : M (list playlist_ref) :=
  match d with
  | Some (DPlaylists l) =>
      match list_remove item l with
      | Some l' => mret l'
      | None => raise (ValueError "list.remove(x): x not in list")
      end
  | Some (DVideos _) => raise (ValueError "list.remove(x): x not in list")
  | _ => raise AttributeError
  end.

(** A loaded document used as a list of playlist items ([len], [+=]). *)
Definition as_videos (d : option document) : M (list playlist_item) :=
  match d with
  | Some (DVideos l) => mret l
  | _ => raise TypeError
  end.

(** A loaded document iterated as a list of playlist references. *)
Definition as_refs (d : document) : M (list playlist_ref) :=
  match d with
  | DPlaylists l => mret l
  | _ => raise TypeError
  end.

Definition as_channel (d : option document) : M channel_json :=
  match d with
  | Some (DChannel c) => mret c
  | _ => raise TypeError
  end.

(** The body shared by both branches of the loop of [merge_playlists]:
    accumulate, delete the two files, drop the item from the channel list. *)
Definition merge_one (channel_id : string) (item : playlist_ref)
    (playlist_json items_merged : list playlist_item) : M (list playlist_item) :=
  let playlist_id := ref_id item in
  let items_merged := items_merged ++ playlist_json in
  _ ← os_remove (playlist_videos_key playlist_id);
  _ ← os_remove (playlist_key playlist_id);
  channel_playlists_json ← load_json (channel_playlists_key channel_id);
  l ← remove_item item channel_playlists_json;
  _ ← save_json (channel_playlists_key channel_id) (DPlaylists l);
  mret items_merged.

(** [for item in items: ...] *)
Fixpoint merge_loop (channel_id : string) (optimize_number : Z)
    (items : list playlist_ref) (items_merged : list playlist_item)
  : M (list playlist_item) :=
  match items with
  | [] => mret items_merged
  | item :: rest =>
      playlist_json ← load_json (playlist_videos_key (ref_id item));
      items_merged ←
        (if 3 <=? optimize_number then
           videos ← as_videos playlist_json;
           if Z.of_nat (length videos) <? optimize_number
           then merge_one channel_id item videos items_merged
           else mret items_merged
         else if optimize_number =? 0 then
           videos ← as_videos playlist_json;
           merge_one channel_id item videos items_merged
         else mret items_merged);
      merge_loop channel_id optimize_number rest items_merged
  end.

(** [for item in channel_playlists_json: if item["id"] == upload_id:
    channel_playlists_json.remove(item); break] *)
Definition remove_by_id (upload_id : string) (l : list playlist_ref)
  : list playlist_ref :=
  match List.find (fun item => String.eqb (ref_id item) upload_id) l with
  | Some item => default l (list_remove item l)
  | None => l
  end.

(** "remove whole duplicated items": the loop over [playlist_json] with its
    two accumulators. *)
Fixpoint dedup_loop (playlist_json : list playlist_item)
    (videos_ids : list string) (unique_videos_ids : list playlist_item)
  : list playlist_item :=
  match playlist_json with
  | [] => unique_videos_ids
  | item :: rest =>
      let video_id := item_videoId item in
      if bool_decide (video_id ∈ videos_ids)
      then dedup_loop rest videos_ids unique_videos_ids
      else dedup_loop rest (videos_ids ++ [video_id]) (unique_videos_ids ++ [item])
  end.

Definition set_position (i : nat) (item : playlist_item) : playlist_item :=
  {| item_videoId := item_videoId item;
     item_title := item_title item;
     item_position := Z.of_nat i |}.

(** [for i, item in enumerate(playlist_json): item["snippet"]["position"] = i] *)
Definition renumber (playlist_json : list playlist_item) : list playlist_item :=
  imap set_position playlist_json.

Definition new_channel_playlists_json : playlist_json :=
  {| pl_kind := "youtube#playlist"; pl_etag := "custom"; pl_id := "custom";
     pl_snippet := None |}.

Definition merge_playlists (channel_id : string) (items : document)
    (optimize_number : Z) : M document :=
  items ← as_refs items;
  items_merged ← merge_loop channel_id optimize_number items [];
  channel_json ← load_json (channel_key channel_id);
  channel_json ← as_channel channel_json;
  let upload_id := ch_uploads channel_json in
  uploads_playlist_json ← load_json (playlist_videos_key upload_id);
  items_merged ←
    (if optimize_number =? 0 then
       uploads ← as_videos uploads_playlist_json;
       mret (Some uploads)
     else if 3 <=? optimize_number then
       uploads ← as_videos uploads_playlist_json;
       mret (if Z.of_nat (length uploads) <? optimize_number
             then Some uploads else None)
     else mret None) ≫= (fun to_merge =>
    match to_merge with
    | Some uploads =>
        _ ← os_remove (playlist_videos_key upload_id);
        _ ← os_remove (playlist_key upload_id);
        channel_playlists_json ← load_json (channel_playlists_key channel_id);
        l ← as_refs (default DCorrupt channel_playlists_json);
        _ ← save_json (channel_playlists_key channel_id)
              (DPlaylists (remove_by_id upload_id l));
        mret (items_merged ++ uploads)
    | None => mret items_merged
    end);
  _ ← save_json (channel_playlists_key channel_id)
        (DPlaylist new_channel_playlists_json);
  _ ← save_json "playlist_custom"
        (DPlaylist
           {| pl_kind := "youtube#playlist"; pl_etag := "custom";
              pl_id := "custom";
              pl_snippet := Some
                {| snippet_title :=
                     if 3 <=? optimize_number then "Other Videos" else "All Videos";
                   snippet_description := "Custom playlist created by user";
                   snippet_channelId := channel_id;
                   snippet_channelTitle := ch_title channel_json |} |});
  let playlist_json := dedup_loop items_merged [] [] in
  let playlist_json := renumber playlist_json in
  _ ← save_json "playlist_custom_videos" (DVideos playlist_json);
  mret (DPlaylist new_channel_playlists_json).

(** The videos a playlist contributes under the threshold rule: its cached
    video list when it counts fewer than [optimize_number] items, nothing
    otherwise. *)
Definition qualifying (c : cache) (optimize_number : Z) (playlist_id : string)
  : list playlist_item :=
  match c !! playlist_videos_key playlist_id with
  | Some (DVideos videos) =>
      if Z.of_nat (length videos) <? optimize_number then videos else []
  | _ => []
  end.

(** Whether the threshold rule merges a playlist: its cached video list
    counts fewer than [optimize_number] items. *)
Definition is_merged (c : cache) (optimize_number : Z) (playlist_id : string)
  : bool :=
  match c !! playlist_videos_key playlist_id with
  | Some (DVideos videos) => Z.of_nat (length videos) <? optimize_number
  | _ => false
  end.

(** The accumulator the threshold rule describes: the qualifying playlists
    of the channel list, in order, then the uploads playlist if it
    qualifies. *)
Definition merged_by_threshold (c : cache) (optimize_number : Z)
    (items : list playlist_ref) (upload_id : string) : list playlist_item :=
  concat (map (fun item => qualifying c optimize_number (ref_id item)) items)
  ++ qualifying c optimize_number upload_id.

(** [item] is the first element of [l] carrying its video id. *)
Definition first_with_id (l : list playlist_item) (item : playlist_item) : Prop :=
  exists i, l !! i = Some item /\
            forall j other, (j < i)%nat -> l !! j = Some other ->
                            item_videoId other <> item_videoId item.

(** Off the channel's playlist list, [c] holds only files of [c0], as they
    are in [c0]. *)
Definition shrunk_from (channel_id : string) (c0 c : cache) : Prop :=
  forall key d, key <> channel_playlists_key channel_id ->
                c !! key = Some d -> c0 !! key = Some d.

(** The files [merge_playlists] may delete for a channel list and the
    uploads playlist. *)
Definition playlist_files (items : list playlist_ref) (upload_id : string)
  : list string :=
  flat_map (fun item => [playlist_videos_key (ref_id item);
                         playlist_key (ref_id item)]) items
  ++ [playlist_videos_key upload_id; playlist_key upload_id].

(** A cache on which the merge of [items] can run: the channel list holds
    every item, every playlist has its video list and its detail file, and
    no two of these files have the same name. *)
Definition well_cached (channel_id upload_id : string)
    (items : list playlist_ref) (c : cache) : Prop :=
  (exists l, c !! channel_playlists_key channel_id = Some (DPlaylists l) /\
             forall item, item ∈ items -> item ∈ l) /\
  NoDup (playlist_files items upload_id) /\
  (forall item, item ∈ items ->
     (exists videos,
        c !! playlist_videos_key (ref_id item) = Some (DVideos videos)) /\
     is_Some (c !! playlist_key (ref_id item))) /\
  (exists uploads, c !! playlist_videos_key upload_id = Some (DVideos uploads)) /\
  is_Some (c !! playlist_key upload_id).

(** What the playlists endpoint answers along one pagination: a failing
    status, a last page, a page with a [nextPageToken], or a body without
    ["items"]. *)
Inductive playlists_response :=
| HttpError
| LastPage (items : list playlist_ref)
| NextPage (items : list playlist_ref) (next : playlists_response)
| PageWithoutItems.

(** The [while True] loop: the accumulated list is saved after every page. *)
Fixpoint fetch_playlists (fname : string) (items : list playlist_ref)
    (response : playlists_response) : M (list playlist_ref) :=
  match response with
  | HttpError => raise HTTPError
  | LastPage page =>
      let items := items ++ page in
      _ ← save_json fname (DPlaylists items);
      mret items
  | NextPage page next =>
      let items := items ++ page in
      _ ← save_json fname (DPlaylists items);
      fetch_playlists fname items next
  | PageWithoutItems => raise KeyError   (* channel_playlists_json["items"] *)
  end.

(** [get_channel_playlists_json]; [api] is the platform's answer for the
    channel, [optimize_number] is [None] or an integer. *)
Definition get_channel_playlists_json (api : string -> playlists_response)
    (channel_id : string) (optimize_number : option Z) : M document :=
  let fname := channel_playlists_key channel_id in
  items ← load_json fname;
  match items with
  | Some items =>
      match optimize_number with
      | None => mret items
      | Some optimize_number =>
          items ← (if 3 <=? optimize_number
                   then merge_playlists channel_id items optimize_number
                   else mret items);
          items ← (if optimize_number =? 0
                   then merge_playlists channel_id items 0
                   else mret items);
          if (optimize_number =? 1) || (optimize_number =? 2)
          then raise (ValueError "optimize_number must be 0 or >= 3")
          else mret items
      end
  | None =>
      items ← fetch_playlists fname [] (api channel_id);
      mret (DPlaylists items)
  end.

(** *** [get_video_json] *)

Record statistics := {
  viewCount : string;                    (* the API sends counts as strings *)
  viewPerYear : option Z;                (* absent until injected *)
  videoSize : option Z;                  (* absent until injected *)
}.

Record video := {
  video_id : string;                     (* video["id"] *)
  publishedAt : string;                  (* video["snippet"]["publishedAt"] *)
  video_statistics : statistics;         (* video["statistics"] *)
}.

Definition digit_of (c : ascii) : option Z :=
  let n := nat_of_ascii c in
  if (48 <=? n)%nat && (n <=? 57)%nat then Some (Z.of_nat n - 48) else None.

Fixpoint digits_value (acc : Z) (s : list ascii) : option Z :=
  match s with
  | [] => Some acc
  | c :: t =>
      match digit_of c with
      | Some d => digits_value (10 * acc + d) t
      | None => None
      end
  end.

(** A reader of unsigned decimal strings, which agrees with [int(s)] on
    them; it stands for [int] in the examples, and in [author_entry], where
    only the failure of [int] matters. *)
Definition py_int (s : string) : result Z :=
  match list_ascii_of_string s with
  | [] => Raise (ValueError "invalid literal for int()")
  | l => match digits_value 0 l with
         | Some z => Ok z
         | None => Raise (ValueError "invalid literal for int()")
         end
  end.

(** A reader of the year of a zero-padded timestamp
    [YYYY-MM-DDTHH:MM:SSZ]; it stands for
    [datetime.strptime(s, "%Y-%m-%dT%H:%M:%SZ").year] in the examples, whose
    timestamps are valid dates of that shape. *)
Definition example_strptime_year (s : string) : result Z :=
  match list_ascii_of_string s with
  | [y1; y2; y3; y4; "-"; m1; m2; "-"; d1; d2; "T";
     h1; h2; ":"; mi1; mi2; ":"; s1; s2; "Z"]%char =>
      match digits_value 0 [y1; y2; y3; y4],
            digits_value 0 [m1; m2; d1; d2; h1; h2; mi1; mi2; s1; s2] with
      | Some y, Some _ => Ok y
      | _, _ => Raise (ValueError "time data does not match format")
      end
  | _ => Raise (ValueError "time data does not match format")
  end.

(** *** Binary64 arithmetic, as far as the wrapper uses it *)

(** [n / d] rounded to the nearest integer, ties to the even one, for a
    positive [d]. *)
Definition round_half_even (n d : Z) : Z :=
  let q := n / d in
  match 2 * (n mod d) ?= d with
  | Lt => q
  | Gt => q + 1
  | Eq => if Z.even q then q else q + 1
  end.

(** The floor of the binary logarithm of [n / d], for positive [n] and
    [d]. *)
Definition floor_log2 (n d : Z) : Z :=
  let t := Z.log2 n - Z.log2 d in
  if d * 2 ^ Z.max 0 t <=? n * 2 ^ Z.max 0 (- t) then t else t - 1.

(** The exponent of the unit in the last place of [n / d]: 53 significant
    bits, and never below the subnormal exponent. *)
Definition ulp_exponent (n d : Z) : Z := Z.max (floor_log2 n d - 52) (-1074).

(** A float: a finite value, held exactly, or an infinity. *)
Inductive float64 :=
| Finite (x : Q)
| Infinity.

(** The float nearest to [n / d], ties to even; an infinity from
    [2 ^ 1024] on. *)
Definition round_pos (n d : Z) : float64 :=
  let e := ulp_exponent n d in
  let m := round_half_even (n * 2 ^ Z.max 0 (- e)) (d * 2 ^ Z.max 0 e) in
  if (0 <=? e) && (2 ^ 1024 <=? m * 2 ^ e) then Infinity
  else Finite (Qred (Qmake (m * 2 ^ Z.max 0 e) (Z.to_pos (2 ^ Z.max 0 (- e))))).

Definition round64 (x : Q) : float64 :=
  match Qnum x with
  | 0 => Finite 0
  | Zpos n => round_pos (Zpos n) (Zpos (Qden x))
  | Zneg n =>
      match round_pos (Zpos n) (Zpos (Qden x)) with
      | Finite y => Finite (- y)
      | Infinity => Infinity
      end
  end.

(** [a / b] for two integers, [b] not zero: the quotient correctly rounded,
    [OverflowError] when it is too large for a float. *)
Definition int_true_divide (a b : Z) : result float64 :=
  match round64 (inject_Z a / inject_Z b) with
  | Finite x => Ok (Finite x)
  | Infinity =>
      Raise (OtherError
               "OverflowError: integer division result too large for a float")
  end.

(** [x + y] for two floats. *)
Definition float64_add (x y : float64) : float64 :=
  match x, y with
  | Finite a, Finite b => round64 (a + b)
  | _, _ => Infinity
  end.

(** [int(x)] of a float: truncation toward zero. *)
Definition int_of_float64 (x : float64) : result Z :=
  match x with
  | Finite q => Ok (Z.quot (Qnum q) (Zpos (Qden q)))
  | Infinity =>
      Raise (OtherError "OverflowError: cannot convert float infinity to integer")
  end.

(** [try: view_per_year = int(views / years + 1)
    except ZeroDivisionError: view_per_year = 0]; an [OverflowError] is not
    caught. *)
Definition view_per_year (views years : Z) : result Z :=
  if years =? 0 then Ok 0
  else
    quotient ← int_true_divide views years;
    int_of_float64 (float64_add quotient (Finite 1)).

(** [range(0, stop, step)] *)
Definition py_range (stop step : nat) : list nat :=
  map (fun k => (k * step)%nat) (seq 0 ((stop + step - 1) / step)).

(** An answer of the videos endpoint to a chunk of ids. *)
Inductive videos_response :=
| VideosError                            (* [raise_for_status] raises *)
| VideosMissing                          (* a body without ["items"] *)
| VideosItems (items : list video).

Section GetVideoJson.

Variable videos_api : list string -> videos_response.

(** [datetime.now().year] *)
Variable now_year : Z.

(** The probe through the retrieval engine: the [filesize_approx] found when
    the body of the [try] completes, [None] when it raises. *)
Variable filesize_approx : string -> option Z.

(** [int(s)] for a string [s]. *)
Variable int_of_str : string -> result Z.

(** [datetime.strptime(s, "%Y-%m-%dT%H:%M:%SZ").year] *)
Variable strptime_year : string -> result Z.

(** The first loop: one request per chunk of 50 ids. *)
Fixpoint fetch_chunks (videos_ids : list string) (starts : list nat)
    (all_videos_json : list video) : result (list video) :=
  match starts with
  | [] => Ok all_videos_json
  | i :: starts =>
      let video_ids_chunk := take 50 (drop i videos_ids) in
      match videos_api video_ids_chunk with
      | VideosError => Raise HTTPError
      | VideosMissing => Raise KeyError
      | VideosItems items =>
          fetch_chunks videos_ids starts (all_videos_json ++ items)
      end
  end.

(** The second loop: the two dictionaries keyed by video id. *)
Fixpoint stats_loop (all_videos_json : list video)
    (views_per_year videos_size : gmap string Z)
  : result (gmap string Z * gmap string Z) :=
  match all_videos_json with
  | [] => Ok (views_per_year, videos_size)
  | video :: rest =>
      let video_id := video_id video in
      views ← int_of_str (viewCount (video_statistics video));
      published_year ← strptime_year (publishedAt video);
      let years := now_year - published_year in
      view_per_year ← view_per_year views years;
      let views_per_year := <[video_id := view_per_year]> views_per_year in
      let videos_size :=
        <[video_id := default 0 (filesize_approx video_id)]> videos_size in
      stats_loop rest views_per_year videos_size
  end.

(** What the second loop stores for a video. *)
Definition stored_for (u : video) (n : Z) : Prop :=
  exists views year,
    int_of_str (viewCount (video_statistics u)) = Ok views /\
    strptime_year (publishedAt u) = Ok year /\
    view_per_year views (now_year - year) = Ok n.

(** The last video of a list that carries a given id: the one whose values a
    dictionary keyed by id holds after a loop over the list. *)
Fixpoint last_with_id (videos : list video) (id : string) : option video :=
  match videos with
  | [] => None
  | video :: rest =>
      match last_with_id rest id with
      | Some later => Some later
      | None => if String.eqb (video_id video) id then Some video else None
      end
  end.

Definition dict_get (d : gmap string Z) (k : string) : result Z :=
  match d !! k with
  | Some v => Ok v
  | None => Raise KeyError
  end.

(** The third loop: both values are written into each video's statistics. *)
Fixpoint inject_loop (all_videos_json : list video)
    (views_per_year videos_size : gmap string Z) : result (list video) :=
  match all_videos_json with
  | [] => Ok []
  | video :: rest =>
      vpy ← dict_get views_per_year (video_id video);
      size ← dict_get videos_size (video_id video);
      rest ← inject_loop rest views_per_year videos_size;
      Ok ({| video_id := video_id video;
             publishedAt := publishedAt video;
             video_statistics :=
               {| viewCount := viewCount (video_statistics video);
                  viewPerYear := Some vpy;
                  videoSize := Some size |} |} :: rest)
  end.

Definition get_video_json (videos_ids : list string) : result (list video) :=
  all_videos_json ←
    fetch_chunks videos_ids (py_range (length videos_ids) 50) [];
  '(views_per_year, videos_size) ← stats_loop all_videos_json ∅ ∅;
  inject_loop all_videos_json views_per_year videos_size.

End GetVideoJson.

(** Example data: a platform that answers one video, viewed 10 times and
    published in 2024, for any chunk, and a probe that finds 1000 bytes. *)
Definition example_video : video :=
  {| video_id := "a";
     publishedAt := "2024-05-06T07:08:09Z";
     video_statistics :=
       {| viewCount := "10"; viewPerYear := None; videoSize := None |} |}.

Definition example_video_enriched : video :=
  {| video_id := "a";
     publishedAt := "2024-05-06T07:08:09Z";
     video_statistics :=
       {| viewCount := "10"; viewPerYear := Some 6; videoSize := Some 1000 |} |}.

Definition example_videos_api (chunk : list string) : videos_response :=
  VideosItems [example_video].

Definition example_probe (video_id : string) : option Z := Some 1000.

(** *** [subset_videos_json] *)

Section Sorted.
Context {K A : Type} (gt : K -> K -> bool).

(** Insertion before the first element whose key is not greater: elements
    with equal keys keep their order, as with [sorted(..., reverse=True)]. *)
Fixpoint insert_desc (x : K * A) (l : list (K * A)) : list (K * A) :=
  match l with
  | [] => [x]
  | y :: t => if gt (fst y) (fst x) then y :: insert_desc x t else x :: l
  end.

Definition sort_desc (l : list (K * A)) : list (K * A) :=
  foldr insert_desc [] l.

End Sorted.

(** In a descending list, an element [y] placed after [x] is not greater. *)
Definition not_above {K A} (gt : K -> K -> bool) (x y : K * A) : Prop :=
  gt (fst y) (fst x) = false.

(** [sorted(videos, key=key, reverse=True)]; computing a key may raise. *)
Definition sorted_reverse {K} (gt : K -> K -> bool) (key : video -> result K)
    (videos : list video) : result (list video) :=
  keys ← mapM key videos;
  Ok (map snd (sort_desc gt (zip keys videos))).

Definition key_viewCount (v : video) : result string :=
  Ok (viewCount (video_statistics v)).
Definition key_publishedAt (v : video) : result string :=
  Ok (publishedAt v).
Definition key_viewPerYear (v : video) : result Z :=
  match viewPerYear (video_statistics v) with
  | Some n => Ok n
  | None => Raise KeyError
  end.
Definition get_videoSize (v : video) : result Z :=
  match videoSize (video_statistics v) with
  | Some n => Ok n
  | None => Raise KeyError
  end.

Definition string_gt (a b : string) : bool := String.ltb b a.

(** [l[:k]] *)
Definition slice_to {A} (l : list A) (k : Z) : list A :=
  if 0 <=? k then take (Z.to_nat k) l
  else take (length l - Z.to_nat (- k)) l.

(** [l[-1]] *)
Definition py_last {A} (l : list A) : result A :=
  match last l with
  | Some x => Ok x
  | None => Raise IndexError
  end.

(** [[video for video in videos if video["id"] in ids]] *)
Definition keep_ids (ids : list string) (videos : list video) : list video :=
  filter (fun v => video_id v ∈ ids) videos.

(** Reading the local [videos_ids], which is bound only if the truncation
    branch ran. *)
Definition read_videos_ids (videos_ids : option (list string))
  : result (list string) :=
  match videos_ids with
  | Some ids => Ok ids
  | None => Raise (UnboundLocalError "videos_ids")
  end.

(** The greedy loop over the re-sorted [videos]; [rest] is what is left to
    iterate, [videos] the list the comprehensions filter. *)
Fixpoint budget_loop (subset_gb : Z) (videos rest : list video)
    (total_size : Z) (videos_ids_subset : list string)
    (videos_ids : option (list string)) : result (list video) :=
  match rest with
  | [] => Ok videos
  | video :: rest =>
      let video_id := video_id video in
      video_size ← get_videoSize video;
      if total_size + video_size <=? subset_gb then
        let total_size := total_size + video_size in
        let videos_ids_subset := videos_ids_subset ++ [video_id] in
        ids ← read_videos_ids videos_ids;
        last_id ← py_last ids;
        if String.eqb video_id last_id
        then Ok (keep_ids videos_ids_subset videos)
        else budget_loop subset_gb videos rest total_size videos_ids_subset
               videos_ids
      else Ok (keep_ids videos_ids_subset videos)
  end.

(** The [if]/[elif] chain on [subset_by]. *)
Definition sort_by (subset_by : string) (videos : list video)
  : result (list video) :=
  if String.eqb subset_by "views"
  then sorted_reverse string_gt key_viewCount videos
  else if String.eqb subset_by "recent"
  then sorted_reverse string_gt key_publishedAt videos
  else if String.eqb subset_by "views-per-year"
  then sorted_reverse Z.gtb key_viewPerYear videos
  else Ok videos.

Definition subset_videos_json (videos : list video) (subset_by : string)
    (subset_videos subset_gb : Z) : result (list video) :=
  videos ← sort_by subset_by videos;
  let '(videos, videos_ids) :=
    if negb (subset_videos =? 0) then
      let videos_ids := map video_id videos in
      let videos_ids_subset := slice_to videos_ids subset_videos in
      (keep_ids videos_ids_subset videos, Some videos_ids)
    else (videos, None) in
  if negb (subset_gb =? 0) then
    let subset_gb := subset_gb * 1024 * 1024 * 1024 in
    videos ← sorted_reverse Z.gtb key_viewPerYear videos;
    budget_loop subset_gb videos videos 0 [] videos_ids
  else Ok videos.

(** Example data: a channel with playlists of 2, 5 and 10 videos and an
    uploads playlist of 3 videos, one of them shared with the first
    playlist. *)
Definition example_item (video_id : string) (position : Z) : playlist_item :=
  {| item_videoId := video_id; item_title := "title of " +:+ video_id;
     item_position := position |}.

Definition example_ref (playlist_id : string) : playlist_ref :=
  {| ref_kind := "youtube#playlist"; ref_etag := "etag"; ref_id := playlist_id |}.

Definition example_playlist (playlist_id : string) : document :=
  DPlaylist {| pl_kind := "youtube#playlist"; pl_etag := "etag";
               pl_id := playlist_id; pl_snippet := None |}.

Definition example_items : list playlist_ref :=
  [example_ref "PLtwo"; example_ref "PLfive"; example_ref "PLten"].

Definition example_cache : cache :=
  list_to_map
    [("channel_UCx", DChannel {| ch_id := "UCx"; ch_title := "X";
                                 ch_uploads := "UUx" |});
     ("channel_UCx_playlists", DPlaylists example_items);
     ("playlist_PLtwo", example_playlist "PLtwo");
     ("playlist_PLfive", example_playlist "PLfive");
     ("playlist_PLten", example_playlist "PLten");
     ("playlist_UUx", example_playlist "UUx");
     ("playlist_PLtwo_videos",
      DVideos [example_item "a1" 0; example_item "a2" 1]);
     ("playlist_PLfive_videos",
      DVideos (imap (fun i v => example_item v (Z.of_nat i))
                 ["b1"; "b2"; "b3"; "b4"; "b5"]));
     ("playlist_PLten_videos",
      DVideos (imap (fun i v => example_item v (Z.of_nat i))
                 ["c1"; "c2"; "c3"; "c4"; "c5"; "c6"; "c7"; "c8"; "c9"; "c10"]));
     ("playlist_UUx_videos",
      DVideos [example_item "a2" 0; example_item "u1" 1; example_item "u2" 2])].

Definition example_merged : list playlist_item :=
  [example_item "a1" 0; example_item "a2" 1; example_item "u1" 2;
   example_item "u2" 3].

(** A video that went through [get_video_json]. *)
Definition has_statistics (v : video) : Prop :=
  is_Some (viewPerYear (video_statistics v)) /\
  is_Some (videoSize (video_statistics v)).

(** Example data: a video of two gibibytes and one of a hundred bytes. *)
Definition example_big_video : video :=
  {| video_id := "big";
     publishedAt := "2024-05-06T07:08:09Z";
     video_statistics :=
       {| viewCount := "10"; viewPerYear := Some 6;
          videoSize := Some (2 * 1024 * 1024 * 1024) |} |}.

Definition example_small_video : video :=
  {| video_id := "small";
     publishedAt := "2023-05-06T07:08:09Z";
     video_statistics :=
       {| viewCount := "7"; viewPerYear := Some 3; videoSize := Some 100 |} |}.

(** The sum of the [videoSize] of the videos (0 for a video that has none). *)
Definition size_of_videos (videos : list video) : Z :=
  foldr (fun v total => default 0 (videoSize (video_statistics v)) + total)
    0 videos.

(** *** The cached getters: [get_channel_json], [get_playlist_json],
    [get_videos_json] *)

(** What an endpoint answers to a request for one resource: a status that
    makes [raise_for_status] raise, a body without ["items"], or the list
    under ["items"]. *)
Inductive answer (A : Type) :=
| BadStatus
| NoItems
| Items (items : list A).
Arguments BadStatus {A}.
Arguments NoItems {A}.
Arguments Items {A} items.

(** [req.raise_for_status()], then [req.json()["items"][0]]; the handlers
    of the callers log and re-raise. *)
Definition first_item {A} (a : answer A) : M A :=
  match a with
  | BadStatus => raise HTTPError
  | NoItems => raise KeyError
  | Items [] => raise IndexError
  | Items (x :: _) => mret x
  end.

(** [get_channel_json]; the file name is made of the argument,
    a user name when [for_username] is set. *)
Definition get_channel_json (api : bool -> string -> answer channel_json)
    (channel_id : string) (for_username : bool) : M document :=
  let fname := channel_key channel_id in
  channel_json ← load_json fname;
  match channel_json with
  | Some channel_json => mret channel_json
  | None =>
      channel_json ← first_item (api for_username channel_id);
      _ ← save_json fname (DChannel channel_json);
      mret (DChannel channel_json)
  end.

(** [get_playlist_json] *)
Definition get_playlist_json (api : string -> answer playlist_json)
    (playlist_id : string) : M document :=
  let fname := playlist_key playlist_id in
  playlist_json ← load_json fname;
  match playlist_json with
  | Some playlist_json => mret playlist_json
  | None =>
      playlist_json ← first_item (api playlist_id);
      _ ← save_json fname (DPlaylist playlist_json);
      mret (DPlaylist playlist_json)
  end.

(** What the playlist-items endpoint answers along one pagination: a
    failing status, a last page, a page with a [nextPageToken], or a body
    without ["items"]. *)
Inductive items_response :=
| ItemsError
| ItemsLast (items : list playlist_item)
| ItemsNext (items : list playlist_item) (next : items_response)
| ItemsMissing.

(** The [while True] loop of [get_videos_json]: nothing is saved inside. *)
Fixpoint fetch_items (items : list playlist_item) (response : items_response)
  : M (list playlist_item) :=
  match response with
  | ItemsError => raise HTTPError
  | ItemsLast page => mret (items ++ page)
  | ItemsNext page next => fetch_items (items ++ page) next
  | ItemsMissing => raise KeyError       (* videos_json["items"] *)
  end.

(** [get_videos_json] *)
Definition get_videos_json (api : string -> items_response)
    (playlist_id : string) : M document :=
  let fname := playlist_videos_key playlist_id in
  items ← load_json fname;
  match items with
  | Some items => mret items
  | None =>
      items ← fetch_items [] (api playlist_id);
      _ ← save_json fname (DVideos items);
      mret (DVideos items)
  end.

(** The pages of an answer, laid end to end, and whether the pagination
    ends on a failing status. *)
Fixpoint pages_of (response : items_response) : list playlist_item :=
  match response with
  | ItemsError => []
  | ItemsLast page => page
  | ItemsNext page next => page ++ pages_of next
  | ItemsMissing => []
  end.

Fixpoint playlists_pages_of (response : playlists_response) : list playlist_ref :=
  match response with
  | HttpError => []
  | LastPage page => page
  | NextPage page next => page ++ playlists_pages_of next
  | PageWithoutItems => []
  end.

Fixpoint playlists_fail (response : playlists_response) : bool :=
  match response with
  | HttpError => true
  | LastPage _ => false
  | NextPage _ next => playlists_fail next
  | PageWithoutItems => false
  end.

(** How a pagination ends: with the last page ([None]) or with an
    exception. *)
Fixpoint playlists_end (response : playlists_response) : option exn :=
  match response with
  | HttpError => Some HTTPError
  | LastPage _ => None
  | NextPage _ next => playlists_end next
  | PageWithoutItems => Some KeyError
  end.

Fixpoint items_end (response : items_response) : option exn :=
  match response with
  | ItemsError => Some HTTPError
  | ItemsLast _ => None
  | ItemsNext _ next => items_end next
  | ItemsMissing => Some KeyError
  end.

(** Whether a page was read, and so a list saved, before the pagination
    ended. *)
Definition playlists_page_read (response : playlists_response) : bool :=
  match response with
  | LastPage _ | NextPage _ _ => true
  | HttpError | PageWithoutItems => false
  end.

(** The cached video list of a playlist (nothing when the file is not a
    video list). *)
Definition cached_videos (c : cache) (playlist_id : string) : list playlist_item :=
  match c !! playlist_videos_key playlist_id with
  | Some (DVideos videos) => videos
  | _ => []
  end.

(** The playlist document [merge_playlists] saves as [playlist_custom]. *)
Definition custom_playlist (channel_id : string) (optimize_number : Z)
    (channel : channel_json) : playlist_json :=
  {| pl_kind := "youtube#playlist"; pl_etag := "custom"; pl_id := "custom";
     pl_snippet := Some
       {| snippet_title :=
            if 3 <=? optimize_number then "Other Videos" else "All Videos";
          snippet_description := "Custom playlist created by user";
          snippet_channelId := channel_id;
          snippet_channelTitle := ch_title channel |} |}.

(** *** [Playlist] and [extract_playlists_details_from] *)

(** The class [Playlist]. *)
Record Playlist := {
  playlist_id : string;
  title : string;
  description : string;
  creator_id : string;
  creator_name : string;
  slug : string;
}.

(** [s.split(sep)] for a separator of one character. *)
Fixpoint split_list (sep : ascii) (s : list ascii) : list (list ascii) :=
  match s with
  | [] => [[]]
  | c :: s =>
      if Ascii.eqb c sep then [] :: split_list sep s
      else match split_list sep s with
           | word :: words => (c :: word) :: words
           | [] => [[c]]
           end
  end.

Definition split (sep : ascii) (s : string) : list string :=
  map string_of_list_ascii (split_list sep (list_ascii_of_string s)).

Section Extract.

(** [utils.get_slug], which [utils.py] does not define: a parameter. *)
Variable get_slug : string -> string.

(** The three endpoints. *)
Variable channels_api : bool -> string -> answer channel_json.
Variable playlists_api : string -> playlists_response.
Variable playlist_api : string -> answer playlist_json.

(** [list(set(l))]: the order in which the set is iterated. *)
Variable set_order : list string -> list string.

(** [Playlist.from_id] *)
Definition from_id (playlist_id : string) : M Playlist :=
  playlist_json ← get_playlist_json playlist_api playlist_id;
  match playlist_json with
  | DPlaylist p =>
      match pl_snippet p with
      | Some snippet =>
          mret {| playlist_id := playlist_id;
                  title := snippet_title snippet;
                  description := snippet_description snippet;
                  creator_id := snippet_channelId snippet;
                  creator_name := snippet_channelTitle snippet;
                  slug := get_slug (snippet_title snippet) |}
      | None => raise KeyError
      end
  | DChannel _ => raise KeyError
  | _ => raise TypeError
  end.

(** [extract_playlists_details_from]; [collection_type] is what
    [get_id_type] answered, [youtube_id] a string. *)
Definition extract_playlists_details_from (collection_type : option string)
    (youtube_id : string) (optimize_number : option Z)
  : M (list Playlist * option string * option string) :=
  '(playlist_ids, main_channel_id, uploads_playlist_id) ←
    (if bool_decide (collection_type = Some "user") ||
        bool_decide (collection_type = Some "channel") then
       channel_json ←
         get_channel_json channels_api youtube_id
           (bool_decide (collection_type = Some "user"));
       channel_json ← as_channel (Some channel_json);
       let main_channel_id := ch_id channel_json in
       channel_playlists_json ←
         get_channel_playlists_json playlists_api main_channel_id optimize_number;
       if bool_decide (optimize_number = Some 0) then
         mret (["custom"], Some main_channel_id, None)
       else
         refs ← as_refs channel_playlists_json;
         let playlist_ids := map ref_id refs ++ [ch_uploads channel_json] in
         mret (playlist_ids, Some main_channel_id, last playlist_ids)
     else if bool_decide (collection_type = Some "playlist") then
       let playlist_ids := split "," youtube_id in
       first ← from_id (default "" (head playlist_ids));
       mret (playlist_ids, Some (creator_id first), None)
     else raise (OtherError "NotImplementedError: unsupported collection_type"));
  playlists ← mapM from_id (set_order playlist_ids);
  mret (playlists, main_channel_id, uploads_playlist_id).

End Extract.

(** *** [replace_titles] *)

Definition set_title (new_title : string) (item : playlist_item) : playlist_item :=
  {| item_videoId := item_videoId item;
     item_title := new_title;
     item_position := item_position item |}.

(** [while v_index < len(ids) and video_id != ids[v_index]: v_index += 1];
    [ids] is what is left of the list from [v_index] on. *)
Fixpoint skip_to (video_id : string) (ids : list string) (v_index : nat) : nat :=
  match ids with
  | [] => v_index
  | id :: rest =>
      if String.eqb video_id id then v_index
      else skip_to video_id rest (S v_index)
  end.

(** The loop [for item in items] with its cursor [v_index]; the items are
    updated in place, the list answered is what they are after the loop. *)
Fixpoint replace_loop (items : list playlist_item) (titles ids : list string)
    (v_index : nat) : result (list playlist_item) :=
  match items with
  | [] => Ok []
  | item :: rest =>
      if (v_index <? length ids)%nat then
        let v_index := skip_to (item_videoId item) (drop v_index ids) v_index in
        if (v_index <? length ids)%nat then
          match titles !! v_index with
          | Some new_title =>
              rest ← replace_loop rest titles ids (S v_index);
              Ok (set_title new_title item :: rest)
          | None => Raise IndexError
          end
        else
          rest ← replace_loop rest titles ids v_index;
          Ok (item :: rest)
      else Ok items                        (* break *)
  end.

Section ReplaceTitles.

(** [str.rstrip] *)
Variable rstrip : string -> string.

(** [pytube.extract.video_id] *)
Variable extract_video_id : string -> result string.

(** [open(fname)]: the lines of the file, [None] when it cannot be opened. *)
Variable open_file : string -> option (list string).

(** [for line in f] *)
Fixpoint read_lines (lines titles ids : list string)
  : result (list string * list string) :=
  match lines with
  | [] => Ok (titles, ids)
  | line :: rest =>
      if Utils.startswith line "https://" then
        id ← extract_video_id line;
        read_lines rest titles (ids ++ [id])
      else read_lines rest (titles ++ [rstrip line]) ids
  end.

(** [for f in files] *)
Fixpoint read_files (files : list (list string)) (titles ids : list string)
  : result (list string * list string) :=
  match files with
  | [] => Ok (titles, ids)
  | f :: rest =>
      '(titles, ids) ← read_lines f titles ids;
      read_files rest titles ids
  end.

(** [[stack.enter_context(open(fname)) for fname in custom_titles_files]] *)
Definition open_files (custom_titles_files : list string)
  : result (list (list string)) :=
  mapM (fun fname => match open_file fname with
                     | Some lines => Ok lines
                     | None => Raise FileNotFoundError
                     end) custom_titles_files.

(** [replace_titles]; the function returns [None], the value here is the
    list [items] as the call leaves it. *)
Definition replace_titles (items : list playlist_item)
    (custom_titles : list string) : result (list playlist_item) :=
  if (length custom_titles =? 0)%nat
  then Raise (ValueError "no custom titles files found")
  else if (length custom_titles =? 1)%nat
  then Raise (ValueError "only one custom titles file found")
  else if (2 <? length custom_titles)%nat
  then Raise (ValueError "too many custom titles files found")
  else
    files ← open_files custom_titles;
    '(titles, ids) ← read_files files [] [];
    if negb (length titles =? length ids)%nat
    then Raise (ValueError "number of titles and ids do not match")
    else replace_loop items titles ids 0.

End ReplaceTitles.

(** Example data: a file of two titles, a file of two links, a stripping
    of the final newline and an extraction of what follows the host. *)
Definition example_rstrip (line : string) : string :=
  match rev (list_ascii_of_string line) with
  | "010"%char :: t => string_of_list_ascii (rev t)
  | _ => line
  end.

Definition example_extract_video_id (line : string) : result string :=
  Ok (example_rstrip
        (string_of_list_ascii (drop 17 (list_ascii_of_string line)))).

Definition example_open_file (fname : string) : option (list string) :=
  if String.eqb fname "titles.txt"
  then Some [String.append "First" (String "010" EmptyString);
             String.append "Second" (String "010" EmptyString)]
  else if String.eqb fname "links.txt"
  then Some [String.append "https://youtu.be/a1" (String "010" EmptyString);
             String.append "https://youtu.be/a2" (String "010" EmptyString)]
  else None.

(** *** [get_videos_authors_info] *)

(** An item of the videos endpoint, with the channel of its snippet. *)
Record video_resource := {
  resource_video : video;
  resource_channelId : string;
  resource_channelTitle : string;
}.

(** The value stored for a video: the channel and the one computed entry. *)
Record author_info := {
  author_channelId : string;
  author_channelTitle : string;
  author_computed : Z * Z;
}.

(** [s + n] for a string and an integer. *)
Definition str_plus_int (s : string) (n : Z) : result string := Raise TypeError.

(** [s[:k]] *)
Definition string_take (k : nat) (s : string) : string :=
  string_of_list_ascii (take k (list_ascii_of_string s)).

(** The dictionary built for one item: the key [statistics["viewPerYear"]]
    is read first, then the value
    [int(int(viewCount) / (now.year - int(publishedAt[:4] + 1)))]. *)
Definition author_entry (now_year : Z) (item : video_resource)
  : result author_info :=
  key ← key_viewPerYear (resource_video item);
  views ← py_int (viewCount (video_statistics (resource_video item)));
  year ← str_plus_int (string_take 4 (publishedAt (resource_video item))) 1;
  year ← py_int year;
  if now_year - year =? 0 then Raise (OtherError "ZeroDivisionError")
  else
    quotient ← int_true_divide views (now_year - year);
    computed ← int_of_float64 quotient;
    Ok {| author_channelId := resource_channelId item;
          author_channelTitle := resource_channelTitle item;
          author_computed := (key, computed) |}.

(** What the videos endpoint answers along one pagination. *)
Inductive resources_response :=
| ResourcesError
| ResourcesLast (items : list video_resource)
| ResourcesNext (items : list video_resource) (next : resources_response).

(** [for item in videos_json["items"]: req_items.update(...)] *)
Fixpoint update_items (now_year : Z) (items : list video_resource)
    (req_items : gmap string author_info) : result (gmap string author_info) :=
  match items with
  | [] => Ok req_items
  | item :: rest =>
      entry ← author_entry now_year item;
      update_items now_year rest
        (<[video_id (resource_video item) := entry]> req_items)
  end.

(** The inner function [retrieve_videos_for]. *)
Fixpoint retrieve_videos_for (now_year : Z) (response : resources_response)
    (req_items : gmap string author_info) : result (gmap string author_info) :=
  match response with
  | ResourcesError => Raise HTTPError
  | ResourcesLast items => update_items now_year items req_items
  | ResourcesNext items next =>
      req_items ← update_items now_year items req_items;
      retrieve_videos_for now_year next req_items
  end.

(** [for interv in range(0, len(videos_ids), MAX_VIDEOS_PER_REQUEST)] *)
Fixpoint authors_chunks (now_year : Z)
    (api : list string -> resources_response) (videos_ids : list string)
    (starts : list nat) (items : gmap string author_info)
  : result (gmap string author_info) :=
  match starts with
  | [] => Ok items
  | interv :: starts =>
      req_items ←
        retrieve_videos_for now_year (api (take 50 (drop interv videos_ids))) ∅;
      authors_chunks now_year api videos_ids starts (req_items ∪ items)
  end.

(** [get_videos_authors_info]; the state is the file [videos_channels],
    the only one the function reads or writes. *)
Definition get_videos_authors_info (now_year : Z)
    (api : list string -> resources_response) (videos_ids : list string)
    (videos_channels : option (gmap string author_info))
  : result (gmap string author_info) * option (gmap string author_info) :=
  match videos_channels with
  | Some items => (Ok items, videos_channels)
  | None =>
      match authors_chunks now_year api videos_ids
              (py_range (length videos_ids) 50) ∅ with
      | Ok items => (Ok items, Some items)
      | Raise e => (Raise e, None)
      end
  end.

End Youtube.

(** ** [downloaders/youtube_downloader.py] *)

Module Downloader.

(** *** File mode: the size column ([extract_videos_info]) *)

(** [line[5] if line[5] else 0]: the text of the column, or the integer 0
    when the column is empty. *)
Inductive size_field :=
| SizeStr (s : string)
| SizeInt (n : Z).

Definition size_of_column (column : string) : size_field :=
  if String.eqb column "" then SizeInt 0 else SizeStr column.

(** A Python number: [int] or [float] (floats as exact rationals). *)
Inductive py_number :=
| PyInt (n : Z)
| PyFloat (x : Q).

(** [s[-1:]] *)
Definition last_char (s : string) : string :=
  match last (list_ascii_of_string s) with
  | Some c => String c EmptyString
  | None => EmptyString
  end.

(** [s[:-2]] *)
Definition drop_last_two (s : string) : string :=
  let l := list_ascii_of_string s in
  string_of_list_ascii (take (length l - 2) l).

Definition is_space (c : ascii) : bool :=
  let n := nat_of_ascii c in
  (n =? 32)%nat || ((9 <=? n)%nat && (n <=? 13)%nat).

Definition strip (l : list ascii) : list ascii :=
  let fix lstrip l :=
    match l with
    | c :: t => if is_space c then lstrip t else l
    | [] => []
    end in
  rev (lstrip (rev (lstrip l))).

Definition is_digit (c : ascii) : bool := Re.in_range "0" "9" c.

Fixpoint span_digits (l : list ascii) : list ascii * list ascii :=
  match l with
  | c :: t =>
      if is_digit c
      then let '(digits, rest) := span_digits t in (c :: digits, rest)
      else ([], l)
  | [] => ([], [])
  end.

Definition decimal_value (digits : list ascii) : Z :=
  default 0 (Youtube.digits_value 0 digits).

(** [float(s)] on decimal literals: blanks around, a sign, digits, a point,
    digits, with a digit somewhere.  The other spellings [float] reads
    (exponents, [inf], [nan], underscores) are answered with [ValueError]
    here. *)
Definition py_float (s : string) : result Q :=
  let l := strip (list_ascii_of_string s) in
  let '(sign, l) :=
    match l with
    | "-"%char :: t => (-1, t)
    | "+"%char :: t => (1, t)
    | _ => (1, l)
    end in
  let '(int_part, l) := span_digits l in
  let '(frac_part, l) :=
    match l with
    | "."%char :: t => span_digits t
    | _ => ([], l)
    end in
  match l, int_part ++ frac_part with
  | [], _ :: _ =>
      Ok (Qred (inject_Z sign *
                (inject_Z (decimal_value int_part) +
                 Qmake (decimal_value frac_part)
                       (Z.to_pos (10 ^ Z.of_nat (length frac_part))))))
  | _, _ => Raise (ValueError "could not convert string to float")
  end.

(** The body of [for video in self.videos]: the new value of
    [video["video_size"]]. *)
Definition convert_size (video_size : size_field) : result py_number :=
  match video_size with
  | SizeInt _ => Raise TypeError        (* an int is not subscriptable *)
  | SizeStr s =>
      if String.eqb (last_char s) "K" then
        x ← py_float (drop_last_two s);
        Ok (PyFloat (Qred (x * 1024)))
      else if String.eqb (last_char s) "M" then
        x ← py_float (drop_last_two s);
        Ok (PyFloat (Qred (x * 1024 * 1024)))
      else if String.eqb (last_char s) "G" then
        x ← py_float (drop_last_two s);
        Ok (PyFloat (Qred (x * 1024 * 1024 * 1024)))
      else if String.eqb s "0" then Ok (PyInt 0)
      else Raise (SystemExit 1)
  end.

(** [videos_sizes_list] after the loop. *)
Definition convert_sizes (sizes : list size_field) : result (list py_number) :=
  mapM convert_size sizes.

(** *** The download phase *)

(** What one step of the retrieval engine and post-processing does for a
    video id: it completes, raises one of the exceptions the caller catches
    ([DownloadError], [FileNotFoundError], [CalledProcessError]), or raises
    something else. *)
Inductive step_outcome :=
| Completed
| Caught
| Uncaught (e : exn).

Record engine := {
  video_step : string -> step_outcome;      (* download, then post_process_video *)
  thumbnail_step : string -> step_outcome;  (* download, then process_thumbnail *)
  subtitles_step : string -> bool;          (* any Exception is caught *)
}.

(** The values the download methods return. *)
Inductive py_value :=
| PyNone
| PyBool (b : bool).

Definition truthy (v : py_value) : bool :=
  match v with
  | PyBool b => b
  | PyNone => false
  end.

(** [download_video]: [return False] in the handler, no [return] after the
    [try] block. *)
Definition download_video (w : engine) (video_id : string) : result py_value :=
  match video_step w video_id with
  | Completed => Ok PyNone
  | Caught => Ok (PyBool false)
  | Uncaught e => Raise e
  end.

(** [download_thumbnail]: the same shape. *)
Definition download_thumbnail (w : engine) (video_id : string)
  : result py_value :=
  match thumbnail_step w video_id with
  | Completed => Ok PyNone
  | Caught => Ok (PyBool false)
  | Uncaught e => Raise e
  end.

(** [download_subtitles] catches every exception and returns [None]. *)
Definition download_subtitles (w : engine) (video_id : string)
  : result py_value :=
  if subtitles_step w video_id then Ok PyNone else Ok PyNone.

(** [x and y], [y] being evaluated only when [x] is true. *)
Definition py_and (x : py_value) (y : result py_value) : result py_value :=
  if truthy x then y else Ok x.

(** The loop of [download_video_files_batch]. *)
Fixpoint batch_loop (w : engine) (videos_ids succeeded failed : list string)
  : result (list string * list string) :=
  match videos_ids with
  | [] => Ok (succeeded, failed)
  | video_id :: rest =>
      v ← download_video w video_id;
      both ← py_and v (download_thumbnail w video_id);
      if truthy both then
        _ ← download_subtitles w video_id;
        batch_loop w rest (succeeded ++ [video_id]) failed
      else
        batch_loop w rest succeeded (failed ++ [video_id])
  end.

Definition download_video_files_batch (w : engine) (videos_ids : list string)
  : result (list string * list string) :=
  batch_loop w videos_ids [] [].

(** An engine whose every step completes. *)
Definition engine_all_completed : engine :=
  {| video_step := fun _ => Completed;
     thumbnail_step := fun _ => Completed;
     subtitles_step := fun _ => true |}.

(** [concurrency = nb_videos if nb_videos < max_concurrency else
    max_concurrency] *)
Definition concurrency_of (nb_videos max_concurrency : Z) : Z :=
  if nb_videos <? max_concurrency then nb_videos else max_concurrency.

(** One resumption of the generator [get_slot] after it yielded [n]. *)
Definition next_slot (concurrency n : nat) : nat :=
  let n := S n in
  if (concurrency <=? n)%nat then 0%nat else n.

(** [for video_id in self.videos_ids: batches[next(slot)].append(video_id)];
    [n] is the value the generator yields next. *)
Fixpoint fill_batches (concurrency : nat) (videos_ids : list string) (n : nat)
    (batches : list (list string)) : list (list string) :=
  match videos_ids with
  | [] => batches
  | video_id :: rest =>
      fill_batches concurrency rest (next_slot concurrency n)
        (alter (fun batch => batch ++ [video_id]) n batches)
  end.

(** The size of slot [j] once [k] ids have been dealt to [c] slots. *)
Definition slot_size (c k j : nat) : nat :=
  (k / c + if (j <? k mod c)%nat then 1 else 0)%nat.

(** [batches = [[] for _ in range(0, concurrency)]], then the loop. *)
Definition round_robin (concurrency : nat) (videos_ids : list string)
  : list (list string) :=
  fill_batches concurrency videos_ids 0 (replicate concurrency []).

(** The batches the download phase hands to
    [download_video_files_batch]: the whole list when concurrency resolves
    to at most 1, the round-robin slots otherwise. *)
Definition batches_of (videos_ids : list string) (max_concurrency : Z)
  : list (list string) :=
  let concurrency := concurrency_of (Z.of_nat (length videos_ids)) max_concurrency in
  if concurrency <=? 1 then [videos_ids]
  else round_robin (Z.to_nat concurrency) videos_ids.

(** [for future in done: ... overall_succeeded += succeeded ...]; a batch
    that raised re-raises from [future.result()]. *)
Fixpoint collect (results : list (result (list string * list string)))
    (overall_succeeded overall_failed : list string)
  : result (list string * list string) :=
  match results with
  | [] => Ok (overall_succeeded, overall_failed)
  | r :: rest =>
      '(succeeded, failed) ← r;
      collect rest (overall_succeeded ++ succeeded) (overall_failed ++ failed)
  end.

(** [{"webm": ("webm", "webm"), "mp4": ("m4a", "mp4")}[self.video_format]] *)
Definition format_extensions (video_format : string) : result (string * string) :=
  if String.eqb video_format "webm" then Ok ("webm", "webm")
  else if String.eqb video_format "mp4" then Ok ("m4a", "mp4")
  else Raise KeyError.

(** [download_video_files]; the options built from the two extensions are
    those the engine [w] works with, and [done_order] arranges the finished
    batches in the order the set [done] is iterated in. *)
Definition download_video_files (video_format : string) (w : engine)
    (done_order : list (list string) -> list (list string))
    (videos_ids : list string) (max_concurrency : Z)
  : result (list string * list string) :=
  '(audext, vidext) ← format_extensions video_format;
  let concurrency := concurrency_of (Z.of_nat (length videos_ids)) max_concurrency in
  if concurrency <=? 1 then download_video_files_batch w videos_ids
  else
    let batches := round_robin (Z.to_nat concurrency) videos_ids in
    collect (map (download_video_files_batch w) (done_order batches)) [] [].

(** The check of [run] on the two lists the download phase returns. *)
Definition check_failed (succeeded failed : list string) : result unit :=
  if negb (Nat.eqb (length failed) 0) then
    if (length succeeded <=? length failed)%nat
    then Raise (OSError "Too much videos failed to download")
    else Ok tt
  else Ok tt.

(** The download step of [run]: the call of [download_video_files] and the
    check of the two lists it returns; the result is the list handed to
    [get_videos_authors_info].  What [run] does before this call and after
    the check is no part of it. *)
Definition run_download_phase (video_format : string) (w : engine)
    (done_order : list (list string) -> list (list string))
    (videos_ids : list string) (max_concurrency : Z) : result (list string) :=
  '(succeeded, failed) ←
    download_video_files video_format w done_order videos_ids max_concurrency;
  _ ← check_failed succeeded failed;
  Ok succeeded.

(** *** Validation of the identifier ([validate_id]) *)

(** [x in s] for a character [x]. *)
Definition contains_char (c : ascii) (s : string) : bool :=
  existsb (Ascii.eqb c) (list_ascii_of_string s).

(** [validate_id]; [self.collection_type] is what [__init__] stores,
    [get_id_type(self.youtube_id)], for a [youtube_id] that is a string. *)
Definition validate_id (youtube_id : string) : result unit :=
  let collection_type := Utils.get_id_type (Utils.IdStr youtube_id) in
  if bool_decide (collection_type = Some "channel") &&
     (24 <? String.length youtube_id)%nat
  then Raise (ValueError "Invalid ChannelId")
  else if contains_char "," youtube_id &&
          negb (bool_decide (collection_type = Some "playlist"))
  then Raise (ValueError "Invalid YoutubeId")
  else if bool_decide (collection_type = None)
  then Raise (ValueError "Invalid YoutubeId")
  else Ok tt.

(** *** [is_single_channel] and [sorted_playlists] *)

(** [is_single_channel]: the set comprehension over the creators. *)
Definition is_single_channel (collection_type : option string)
    (playlists : list Youtube.Playlist) : bool :=
  if bool_decide (collection_type = Some "channel") ||
     bool_decide (collection_type = Some "user")
  then true
  else bool_decide
         (size (list_to_set (map Youtube.creator_id playlists) : gset string)
          = 1%nat).

(** [sorted(self.playlists, key=lambda x: x.title)]: ascending and stable. *)
Definition sorted_by_title (playlists : list Youtube.Playlist)
  : list Youtube.Playlist :=
  map snd (Youtube.sort_desc String.ltb
             (zip (map Youtube.title playlists) playlists)).

(** [[index for index, p in enumerate(sorted_playlists)
      if p.playlist_id == self.uploads_playlist_id][-1]], and 0 when the
    list is empty ([except Exception: index = 0]). *)
Definition uploads_index (sorted_playlists : list Youtube.Playlist)
    (uploads_playlist_id : string) : nat :=
  default 0%nat
    (last (map fst
             (filter (fun ip : nat * Youtube.Playlist =>
                        Youtube.playlist_id (snd ip) = uploads_playlist_id)
                (imap pair sorted_playlists)))).

(** [sorted_playlists]; [uploads_playlist_id] is [None] or a string. *)
Definition sorted_playlists (playlists : list Youtube.Playlist)
    (uploads_playlist_id : option string) : result (list Youtube.Playlist) :=
  if (length playlists <? 2)%nat then Ok playlists
  else
    let sorted_playlists := sorted_by_title playlists in
    let index :=
      match uploads_playlist_id with
      | Some id => if String.eqb id "" then 0%nat
                   else uploads_index sorted_playlists id
      | None => 0%nat
      end in
    match sorted_playlists !! index with
    | Some p =>
        Ok ([p] ++ take index sorted_playlists ++ drop (S index) sorted_playlists)
    | None => Raise IndexError
    end.

End Downloader.

(** * Properties *)

(** ** The matcher decides the language of a pattern *)

Section ReFacts.
Import Re.

Lemma matches_at_least_nil n r : matches r [] -> matches (AtLeast n r) [].
Proof.
  intros Hr. induction n as [|n IH].
  - constructor.
  - change (@nil ascii) with (@nil ascii ++ []). now constructor.
Qed.

Lemma nullable_matches r : nullable r = true <-> matches r [].
Proof.
  split.
  - induction r as [| | | |r1 IH1 r2 IH2|r1 IH1 r2 IH2|n r IH]; simpl; intros H;
      try discriminate.
    + constructor.
    + apply andb_prop in H as [H1 H2].
      change (@nil ascii) with (@nil ascii ++ []). constructor; auto.
    + apply orb_prop in H as [H|H]; [apply MAltL|apply MAltR]; auto.
    + apply orb_prop in H as [H|H].
      * apply Nat.eqb_eq in H as ->. constructor.
      * apply matches_at_least_nil; auto.
  - intros H. remember [] as s eqn:Es.
    induction H as [| | |r1 r2 s1 s2 H1 IH1 H2 IH2|r1 r2 s H IH|r1 r2 s H IH|
                    |n r s1 s2 H1 IH1 H2 IH2]; simpl; try discriminate; auto.
    + apply app_eq_nil in Es as [-> ->]. rewrite IH1, IH2; auto.
    + rewrite IH; auto.
    + rewrite IH; auto. apply orb_true_r.
    + apply app_eq_nil in Es as [-> ->]. rewrite IH1; auto. apply orb_true_r.
Qed.

Lemma matches_deriv c r s : matches r (c :: s) -> matches (deriv c r) s.
Proof.
  intros H. remember (c :: s) as cs eqn:E. revert c s E.
  induction H as [|a|p a Hp|r1 r2 s1 s2 H1 IH1 H2 IH2|r1 r2 s' H IH|r1 r2 s' H IH|
                  |n r s1 s2 H1 IH1 H2 IH2]; intros c s E; simpl; try discriminate.
  - injection E as -> <-. rewrite Ascii.eqb_refl. constructor.
  - injection E as -> <-. rewrite Hp. constructor.
  - destruct s1 as [|a s1]; simpl in E.
    + subst s2. apply nullable_matches in H1 as ->. apply MAltR; auto.
    + injection E as -> <-. destruct (nullable r1).
      * apply MAltL. constructor; auto.
      * constructor; auto.
  - apply MAltL; auto.
  - apply MAltR; auto.
  - destruct s1 as [|a s1]; simpl in E.
    + subst s2. specialize (IH2 c s eq_refl). simpl in IH2.
      inversion IH2 as [| | |? ? u v Hu Hv| | | |]; subst.
      constructor; auto.
      change v with ([] ++ v). constructor; auto.
    + injection E as -> <-. constructor; auto.
Qed.

Lemma deriv_matches c r s : matches (deriv c r) s -> matches r (c :: s).
Proof.
  revert s.
  induction r as [| |a|p|r1 IH1 r2 IH2|r1 IH1 r2 IH2|n r IH]; simpl; intros s H.
  - inversion H.
  - inversion H.
  - destruct (Ascii.eqb_spec a c) as [->|]; inversion H; subst. constructor.
  - destruct (p c) eqn:Hp; inversion H; subst. now constructor.
  - destruct (nullable r1) eqn:Hn.
    + inversion H as [| | | |? ? ? H'|? ? ? H'| |]; subst.
      * inversion H' as [| | |? ? u v Hu Hv| | | |]; subst.
        change (c :: u ++ v) with ((c :: u) ++ v). constructor; auto.
      * change (c :: s) with ([] ++ c :: s). constructor; auto.
        now apply nullable_matches.
    + inversion H as [| | |? ? u v Hu Hv| | | |]; subst.
      change (c :: u ++ v) with ((c :: u) ++ v). constructor; auto.
  - inversion H; subst; [apply MAltL|apply MAltR]; auto.
  - inversion H as [| | |? ? u v Hu Hv| | | |]; subst.
    change (c :: u ++ v) with ((c :: u) ++ v). constructor; auto.
Qed.

Lemma fullmatch_list_spec r s : fullmatch_list r s = true <-> matches r s.
Proof.
  revert r. induction s as [|c s IH]; intros r; simpl.
  - apply nullable_matches.
  - rewrite IH. split; [apply deriv_matches|apply matches_deriv].
Qed.

Lemma dollar_ends_spec s t :
  In t (dollar_ends s) <-> t = s \/ s = t ++ [newline].
Proof.
  unfold dollar_ends. destruct (rev s) as [|c u] eqn:E; simpl.
  - apply (f_equal (@rev ascii)) in E. rewrite rev_involutive in E. simpl in E.
    subst s. split; [intros [<-|[]]; auto|].
    intros [->|H]; auto. destruct t; discriminate.
  - apply (f_equal (@rev ascii)) in E. rewrite rev_involutive in E. simpl in E.
    subst s. destruct (Ascii.eqb_spec c newline) as [->|Hc]; simpl.
    + split.
      * intros [<-|[<-|[]]]; auto.
      * intros [->|H]; auto. apply app_inj_tail in H as [-> _]. auto.
    + split.
      * intros [<-|[]]; auto.
      * intros [->|H]; auto. apply app_inj_tail in H as [_ ->]. congruence.
Qed.

Lemma match_anchored_spec r s :
  match_anchored r s = true <-> Matches_anchored r s.
Proof.
  unfold match_anchored, Matches_anchored. rewrite existsb_exists. split.
  - intros (t & Ht & Hm). apply fullmatch_list_spec in Hm.
    apply dollar_ends_spec in Ht as [->|Ht]; eauto.
  - intros [H|(t & Ht & Hm)].
    + exists (list_ascii_of_string s). rewrite fullmatch_list_spec.
      split; auto. apply dollar_ends_spec. auto.
    + exists t. rewrite fullmatch_list_spec. split; auto.
      apply dollar_ends_spec. auto.
Qed.

Lemma match_anchored_false r s :
  match_anchored r s = false <-> ~ Matches_anchored r s.
Proof.
  rewrite <- match_anchored_spec. destruct (match_anchored r s); split; congruence.
Qed.

(** A counted repetition of a character set reads as a length bound. *)
Lemma matches_at_least_set n p s :
  matches (AtLeast n (CharSet p)) s <->
  (n <= length s)%nat /\ Forall (fun c => p c = true) s.
Proof.
  split.
  - intros H. remember (AtLeast n (CharSet p)) as r eqn:E. revert n E.
    induction H as [| | | | | | |m r s1 s2 H1 _ H2 IH2]; intros n E;
      try discriminate.
    + injection E as <- _. simpl. split; [lia|constructor].
    + injection E as -> ->. inversion H1; subst. simpl.
      destruct (IH2 (pred n) eq_refl) as [Hl Hf]. split; [lia|].
      constructor; auto.
  - revert n. induction s as [|c s IH]; intros n [Hl Hf]; simpl in Hl.
    + replace n with 0%nat by lia. constructor.
    + inversion Hf; subst. change (c :: s) with ([c] ++ s).
      constructor; [now constructor|]. apply IH. split; [lia|auto].
Qed.

End ReFacts.

(** ** [utils.get_id_type] *)

Section UtilsFacts.
Import Re Utils.

Lemma matches_prefixed a b n p s :
  matches (Seq (Lit a) (Seq (Lit b) (AtLeast n (CharSet p)))) s <->
  exists body, s = a :: b :: body /\
               (n <= length body)%nat /\ Forall (fun c => p c = true) body.
Proof.
  split.
  - intros H. inversion H as [| | |? ? u v Hu Hv| | | |]; subst.
    inversion Hu; subst. inversion Hv as [| | |? ? u' v' Hu' Hv'| | | |]; subst.
    inversion Hu'; subst. apply matches_at_least_set in Hv'. simpl. eauto.
  - intros (body & -> & Hb). apply matches_at_least_set in Hb.
    change (a :: b :: body) with ([a] ++ [b] ++ body).
    repeat constructor; auto.
Qed.

(** The three patterns, read on the characters of the identifier. *)
Lemma playlist_re_spec s :
  matches PLAYLIST_RE s <->
  exists body, s = "P"%char :: "L"%char :: body /\
               (16 <= length body)%nat /\ Forall (fun c => id_char c = true) body.
Proof. apply matches_prefixed. Qed.

Lemma channel_re_spec s :
  matches CHANNEL_RE s <->
  exists body, s = "U"%char :: "C"%char :: body /\
               (22 <= length body)%nat /\ Forall (fun c => id_char c = true) body.
Proof. apply matches_prefixed. Qed.

Lemma user_re_spec s :
  matches USER_RE s <->
  (1 <= length s)%nat /\ Forall (fun c => alnum_char c = true) s.
Proof. apply matches_at_least_set. Qed.

Lemma forallb_match_anchored r l :
  forallb (match_anchored r) l = true <-> Forall (Matches_anchored r) l.
Proof.
  induction l as [|s l IH]; simpl.
  - split; auto.
  - rewrite andb_true_iff, IH, match_anchored_spec. split.
    + intros [H1 H2]. now constructor.
    + intros H. inversion H; auto.
Qed.

(** C8: [get_id_type] is a total function that applies its rules in order:
    [None] gives [None]; a string matching the playlist pattern gives
    ["playlist"]; otherwise one matching the channel pattern gives
    ["channel"]; otherwise one matching the alphanumeric pattern gives
    ["user"]; any other string gives [None]; a list gives ["playlist"] when
    every element matches the playlist pattern and [None] otherwise; an
    argument of another type gives [None]. *)
Theorem get_id_type_rules :
  get_id_type IdNone = None /\
  (forall s, Matches_anchored PLAYLIST_RE s ->
             get_id_type (IdStr s) = Some "playlist") /\
  (forall s, ~ Matches_anchored PLAYLIST_RE s ->
             Matches_anchored CHANNEL_RE s ->
             get_id_type (IdStr s) = Some "channel") /\
  (forall s, ~ Matches_anchored PLAYLIST_RE s ->
             ~ Matches_anchored CHANNEL_RE s ->
             Matches_anchored USER_RE s ->
             get_id_type (IdStr s) = Some "user") /\
  (forall s, ~ Matches_anchored PLAYLIST_RE s ->
             ~ Matches_anchored CHANNEL_RE s ->
             ~ Matches_anchored USER_RE s ->
             get_id_type (IdStr s) = None) /\
  (forall l, Forall (Matches_anchored PLAYLIST_RE) l ->
             get_id_type (IdList l) = Some "playlist") /\
  (forall l, ~ Forall (Matches_anchored PLAYLIST_RE) l ->
             get_id_type (IdList l) = None) /\
  get_id_type IdOther = None.
Proof.
  repeat split; try reflexivity.
  - intros s H. apply match_anchored_spec in H. simpl. now rewrite H.
  - intros s H1 H2. apply match_anchored_false in H1.
    apply match_anchored_spec in H2. simpl. now rewrite H1, H2.
  - intros s H1 H2 H3. apply match_anchored_false in H1, H2.
    apply match_anchored_spec in H3. simpl. now rewrite H1, H2, H3.
  - intros s H1 H2 H3. apply match_anchored_false in H1, H2, H3.
    simpl. now rewrite H1, H2, H3.
  - intros l H. apply forallb_match_anchored in H. simpl. now rewrite H.
  - intros l H. simpl.
    destruct (forallb (match_anchored PLAYLIST_RE) l) eqn:E; auto.
    apply forallb_match_anchored in E. contradiction.
Qed.

(** C9: [get_id_type] of the empty list is ["playlist"]: [all] of no element
    is true. *)
Theorem get_id_type_empty_list :
  get_id_type (IdList []) = Some "playlist".
Proof. reflexivity. Qed.

End UtilsFacts.

(** ** The size column *)

Section SizeFacts.
Import Downloader.

(** Every text that ends in none of [K], [M], [G] and is not ["0"] ends the
    process with status 1. *)
Lemma convert_size_unknown s :
  last_char s <> "K" -> last_char s <> "M" -> last_char s <> "G" ->
  s <> "0" -> convert_size (SizeStr s) = Raise (SystemExit 1).
Proof.
  intros HK HM HG H0. unfold convert_size.
  apply String.eqb_neq in HK, HM, HG, H0. now rewrite HK, HM, HG, H0.
Qed.

(** C4, on the code: the conversion slices two characters off the text, not
    one, before it multiplies: ["10K"] is read as 1 * 1024, ["2M"] and ["1G"]
    leave the empty text to [float], which raises [ValueError].  ["0"] gives
    0 and another trailing letter exits with status 1, as specified. *)
Theorem convert_size_drops_two_characters :
  convert_size (SizeStr "10K") = Ok (PyFloat 1024) /\
  convert_size (SizeStr "2M") =
    Raise (ValueError "could not convert string to float") /\
  convert_size (SizeStr "1G") =
    Raise (ValueError "could not convert string to float") /\
  convert_size (SizeStr "0") = Ok (PyInt 0) /\
  convert_size (SizeStr "10B") = Raise (SystemExit 1).
Proof. repeat split; reflexivity. Qed.

End SizeFacts.

(** ** The download loop and the failure threshold *)

Section DownloadFacts.
Import Downloader.

Lemma download_video_falsy w video_id v :
  download_video w video_id = Ok v -> truthy v = false.
Proof.
  unfold download_video. destruct (video_step w video_id); intros H;
    inversion H; reflexivity.
Qed.

Lemma batch_loop_all_failed w videos_ids succeeded failed s f :
  batch_loop w videos_ids succeeded failed = Ok (s, f) ->
  s = succeeded /\ f = failed ++ videos_ids.
Proof.
  revert failed. induction videos_ids as [|video_id rest IH]; intros failed; simpl.
  - intros H. inversion H. now rewrite app_nil_r.
  - destruct (download_video w video_id) as [v|e] eqn:Ev; simpl; [|discriminate].
    apply download_video_falsy in Ev. unfold py_and. rewrite Ev. simpl.
    rewrite Ev. intros H. apply IH in H as [-> ->].
    now rewrite <- app_assoc.
Qed.

(** C1, on the code: no id is ever recorded as succeeded.  [download_video]
    returns [None] when its step completes, so the test of the batch loop is
    false whatever the two steps do, and every id of a batch that returns is
    in the failed list. *)
Theorem batch_records_every_id_failed w videos_ids succeeded failed :
  download_video_files_batch w videos_ids = Ok (succeeded, failed) ->
  succeeded = [] /\ failed = videos_ids.
Proof. apply batch_loop_all_failed. Qed.

Lemma batch_records_every_id_failed_witness :
  download_video_files_batch engine_all_completed ["a"; "b"] = Ok ([], ["a"; "b"]) /\
  ([] : list string) = [] /\ ["a"; "b"] = ["a"; "b"].
Proof.
  split; [reflexivity|].
  apply (batch_records_every_id_failed engine_all_completed ["a"; "b"]).
  reflexivity.
Defined.

(** C2: with at least one failure and no more successes than failures the
    check raises; with fewer failures than successes, or none, it returns,
    and the run goes on with the succeeded ids. *)
Theorem check_failed_threshold succeeded failed :
  (failed <> [] /\ (length succeeded <= length failed)%nat ->
   check_failed succeeded failed =
     Raise (OSError "Too much videos failed to download")) /\
  ((length failed < length succeeded)%nat \/ failed = [] ->
   check_failed succeeded failed = Ok tt) /\
  (forall video_format w done_order videos_ids max_concurrency,
     download_video_files video_format w done_order videos_ids max_concurrency =
       Ok (succeeded, failed) ->
     run_download_phase video_format w done_order videos_ids max_concurrency =
       if bool_decide (failed <> [] /\ (length succeeded <= length failed)%nat)
       then Raise (OSError "Too much videos failed to download")
       else Ok succeeded).
Proof.
  assert (Hraise : failed <> [] /\ (length succeeded <= length failed)%nat ->
            check_failed succeeded failed =
              Raise (OSError "Too much videos failed to download")).
  { intros [Hf Hle]. unfold check_failed.
    destruct failed as [|x failed]; [congruence|]. simpl length at 1.
    apply Nat.leb_le in Hle. cbn [Nat.eqb negb]. now rewrite Hle. }
  assert (Hok : (length failed < length succeeded)%nat \/ failed = [] ->
            check_failed succeeded failed = Ok tt).
  { intros [Hlt| ->]; unfold check_failed; [|reflexivity].
    destruct (negb _); [|reflexivity].
    apply Nat.leb_gt in Hlt. now rewrite Hlt. }
  repeat split; auto.
  intros video_format w done_order videos_ids max_concurrency H.
  unfold run_download_phase. rewrite H. simpl.
  case_bool_decide as Hd.
  - now rewrite Hraise.
  - rewrite Hok; [reflexivity|].
    destruct failed as [|x failed]; [now right|left].
    destruct (Nat.le_gt_cases (length succeeded) (length (x :: failed))); [|lia].
    exfalso. apply Hd. split; [discriminate|assumption].
Qed.

(** Five of ten ids failed: the run aborts.  Four of ten: it goes on. *)
Example check_failed_five_five :
  check_failed ["1"; "2"; "3"; "4"; "5"] ["6"; "7"; "8"; "9"; "10"] =
    Raise (OSError "Too much videos failed to download").
Proof. reflexivity. Qed.

Example check_failed_six_four :
  check_failed ["1"; "2"; "3"; "4"; "5"; "6"] ["7"; "8"; "9"; "10"] = Ok tt.
Proof. reflexivity. Qed.

End DownloadFacts.

(** ** Round-robin batches *)

Section BatchFacts.
Import Downloader.

Lemma succ_div_mod c k :
  (0 < c)%nat ->
  (S (k mod c) < c /\ S k / c = k / c /\ S k mod c = S (k mod c))%nat \/
  (S (k mod c) = c /\ S k / c = S (k / c) /\ S k mod c = 0)%nat.
Proof.
  intros Hc.
  pose proof (Nat.div_mod_eq k c) as E.
  pose proof (Nat.mod_upper_bound k c ltac:(lia)) as Hm.
  destruct (Nat.eq_dec (S (k mod c)) c) as [Heq|Hne]; [right|left].
  - assert (S k = c * S (k / c) + 0)%nat as E' by lia.
    split; [assumption|]. split.
    + symmetry. apply (Nat.div_unique (S k) c _ 0%nat); lia.
    + symmetry. apply (Nat.mod_unique (S k) c (S (k / c)) 0%nat); lia.
  - assert (S k = c * (k / c) + S (k mod c))%nat as E' by lia.
    split; [lia|]. split.
    + symmetry. apply (Nat.div_unique (S k) c _ (S (k mod c))); lia.
    + symmetry. apply (Nat.mod_unique (S k) c (k / c) (S (k mod c))); lia.
Qed.

Lemma next_slot_mod c k :
  (0 < c)%nat -> next_slot c (k mod c) = (S k mod c)%nat.
Proof.
  intros Hc. unfold next_slot.
  destruct (succ_div_mod c k Hc) as [(H1 & _ & ->)|(H1 & _ & ->)].
  - destruct (Nat.leb_spec c (S (k mod c))); [lia|reflexivity].
  - destruct (Nat.leb_spec c (S (k mod c))); [reflexivity|lia].
Qed.

Lemma slot_size_succ c k j :
  (0 < c)%nat -> (j < c)%nat ->
  slot_size c (S k) j =
    if Nat.eq_dec j (k mod c)%nat then S (slot_size c k j) else slot_size c k j.
Proof.
  intros Hc Hj. unfold slot_size.
  destruct (succ_div_mod c k Hc) as [(H1 & -> & ->)|(H1 & -> & ->)];
    destruct (Nat.eq_dec j (k mod c)%nat) as [->|Hne];
    repeat match goal with
           | |- context [(?a <? ?b)%nat] => destruct (Nat.ltb_spec a b)
           end; lia.
Qed.

Lemma concat_alter_snoc (v : string) n (bs : list (list string)) :
  (n < length bs)%nat ->
  concat (alter (fun b => b ++ [v]) n bs) ≡ₚ concat bs ++ [v].
Proof.
  revert n. induction bs as [|b bs IH]; intros n Hn; simpl in Hn; [lia|].
  destruct n as [|n]; simpl.
  - rewrite <- !app_assoc. apply Permutation_app_head, Permutation_app_comm.
  - change (list_alter ?f n bs) with (alter f n bs).
    rewrite IH by lia. now rewrite app_assoc.
Qed.

(** The loop, started after [k] ids have been dealt. *)
Lemma fill_batches_spec c (Hc : (0 < c)%nat) rest :
  forall k batches,
    length batches = c ->
    (forall j b, batches !! j = Some b -> length b = slot_size c k j) ->
    let bs := fill_batches c rest (k mod c) batches in
    length bs = c /\
    (forall j b, batches !! j = Some b ->
                 exists b', bs !! j = Some b' /\ b `prefix_of` b') /\
    (forall i v, rest !! i = Some v ->
                 exists b, bs !! ((k + i) mod c)%nat = Some b /\
                           b !! ((k + i) / c)%nat = Some v) /\
    concat bs ≡ₚ concat batches ++ rest.
Proof.
  induction rest as [|v rest IH]; intros k batches Hlen Hsize; simpl.
  - repeat split; auto.
    + intros j b Hb. exists b. split; [assumption|reflexivity].
    + intros i w Hw. discriminate.
    + now rewrite app_nil_r.
  - pose proof (Nat.mod_upper_bound k c ltac:(lia)) as Hm.
    rewrite next_slot_mod by assumption.
    set (batches1 := alter (fun batch => batch ++ [v]) (k mod c)%nat batches).
    assert (Hlen1 : length batches1 = c) by (unfold batches1; now rewrite length_alter).
    assert (Hsize1 : forall j b, batches1 !! j = Some b ->
                                 length b = slot_size c (S k) j).
    { intros j b Hb.
      assert (Hj : (j < c)%nat) by (rewrite <- Hlen1; eapply lookup_lt_Some; eauto).
      rewrite slot_size_succ by assumption. unfold batches1 in Hb.
      destruct (Nat.eq_dec j (k mod c)%nat) as [->|Hne].
      - rewrite list_lookup_alter_eq in Hb.
        destruct (batches !! (k mod c)%nat) as [b0|] eqn:E0; [|discriminate].
        simpl in Hb. injection Hb as <-. rewrite length_app. simpl.
        rewrite (Hsize _ _ E0). lia.
      - rewrite list_lookup_alter_ne in Hb by auto. eauto. }
    destruct (IH (S k) batches1 Hlen1 Hsize1) as (Hl & Hpre & Hget & Hperm).
    repeat split.
    + assumption.
    + intros j b Hb.
      destruct (Nat.eq_dec j (k mod c)%nat) as [->|Hne].
      * destruct (Hpre (k mod c)%nat (b ++ [v])) as (b' & Hb' & Hp).
        { unfold batches1. rewrite list_lookup_alter_eq, Hb. reflexivity. }
        exists b'. split; [assumption|].
        etransitivity; [|exact Hp]. now apply prefix_app_r.
      * apply Hpre. unfold batches1. now rewrite list_lookup_alter_ne by auto.
    + intros [|i] w Hw; simpl in Hw.
      * injection Hw as <-. rewrite Nat.add_0_r.
        destruct (lookup_lt_is_Some_2 batches (k mod c)%nat ltac:(lia)) as [b0 Hb0].
        destruct (Hpre (k mod c)%nat (b0 ++ [v])) as (b' & Hb' & Hp).
        { unfold batches1. rewrite list_lookup_alter_eq, Hb0. reflexivity. }
        exists b'. split; [assumption|].
        destruct Hp as [t ->]. rewrite <- app_assoc.
        rewrite lookup_app_r; rewrite (Hsize _ _ Hb0); unfold slot_size;
          destruct (Nat.ltb_spec (k mod c)%nat (k mod c)%nat); try lia.
        now replace (k / c - (k / c + 0))%nat with 0%nat by lia.
      * replace (k + S i)%nat with (S k + i)%nat by lia. now apply Hget.
    + rewrite Hperm. unfold batches1. rewrite concat_alter_snoc by lia.
      now rewrite <- app_assoc.
Qed.

Lemma round_robin_spec c (videos_ids : list string) :
  (0 < c)%nat ->
  let bs := round_robin c videos_ids in
  length bs = c /\
  (forall i v, videos_ids !! i = Some v ->
               exists b, bs !! (i mod c)%nat = Some b /\ b !! (i / c)%nat = Some v) /\
  concat bs ≡ₚ videos_ids.
Proof.
  intros Hc. unfold round_robin.
  destruct (fill_batches_spec c Hc videos_ids 0 (replicate c []))
    as (Hl & _ & Hget & Hperm).
  - apply length_replicate.
  - intros j b Hb. apply lookup_replicate_1 in Hb as [-> _].
    unfold slot_size. rewrite Nat.Div0.div_0_l, Nat.Div0.mod_0_l. reflexivity.
  - rewrite Nat.Div0.mod_0_l in *. repeat split; auto.
    rewrite Hperm. clear. induction c; simpl; auto.
Qed.

Lemma concat_unique_slot (bs : list (list string)) v j1 j2 b1 b2 :
  NoDup (concat bs) ->
  bs !! j1 = Some b1 -> bs !! j2 = Some b2 -> v ∈ b1 -> v ∈ b2 -> j1 = j2.
Proof.
  revert j1 j2. induction bs as [|b bs IH]; intros j1 j2 Hnd H1 H2 Hv1 Hv2.
  - discriminate.
  - simpl in Hnd. apply NoDup_app in Hnd as (Hb & Hdisj & Hrest).
    assert (Hin : forall j b', bs !! j = Some b' -> v ∈ b' -> v ∈ concat bs).
    { intros j b' Hj Hv. apply list_elem_of_In, in_concat. exists b'.
      split; [|now apply list_elem_of_In].
      apply list_elem_of_In. eapply list_elem_of_lookup_2; eauto. }
    destruct j1 as [|j1], j2 as [|j2]; simpl in H1, H2.
    + reflexivity.
    + injection H1 as <-. exfalso. eapply Hdisj; eauto.
    + injection H2 as <-. exfalso. eapply Hdisj; eauto.
    + f_equal. eapply IH; eauto.
Qed.

(** After the lookup of the format, the download phase runs
    [download_video_files_batch] on the batches of [batches_of], taken in
    the order the finished batches are read. *)
Lemma download_video_files_batches video_format w done_order videos_ids
    max_concurrency :
  download_video_files video_format w done_order videos_ids max_concurrency =
    (_ ← format_extensions video_format;
     collect
       (map (download_video_files_batch w)
          (if concurrency_of (Z.of_nat (length videos_ids)) max_concurrency <=? 1
           then batches_of videos_ids max_concurrency
           else done_order (batches_of videos_ids max_concurrency)))
       [] []).
Proof.
  unfold download_video_files, batches_of.
  destruct (format_extensions video_format) as [[audext vidext]|e];
    [|reflexivity].
  cbn [mbind result_bind].
  destruct (_ <=? 1); [|reflexivity]. simpl.
  destruct (download_video_files_batch w videos_ids) as [[s f]|e]; reflexivity.
Qed.

(** C7 as amended: for a non-empty list of ids and a concurrency of at
    least 2, the download phase has exactly min(number of ids, concurrency)
    batches; the [i]-th id is the [i / n]-th element of batch [i mod n]; the
    batches together hold every occurrence of the list exactly once, so when
    the ids of the list are distinct each id is in one batch only; seven ids
    over three slots give batches of 3, 2 and 2; and these batches are what
    the download phase hands to [download_video_files_batch]. *)
Theorem batches_of_round_robin (videos_ids : list string) (max_concurrency : Z) :
  videos_ids <> [] -> 2 <= max_concurrency ->
  let bs := batches_of videos_ids max_concurrency in
  Z.of_nat (length bs) = Z.min (Z.of_nat (length videos_ids)) max_concurrency /\
  (forall i v, videos_ids !! i = Some v ->
     exists b, bs !! (i mod length bs)%nat = Some b /\
               b !! (i / length bs)%nat = Some v) /\
  concat bs ≡ₚ videos_ids /\
  (NoDup videos_ids ->
   forall v j1 j2 b1 b2,
     bs !! j1 = Some b1 -> bs !! j2 = Some b2 -> v ∈ b1 -> v ∈ b2 -> j1 = j2) /\
  (length videos_ids = 7%nat -> max_concurrency = 3 ->
   map length bs = [3; 2; 2]%nat) /\
  (forall video_format w done_order,
     download_video_files video_format w done_order videos_ids max_concurrency =
       (_ ← format_extensions video_format;
        collect
          (map (download_video_files_batch w)
             (if (length bs <=? 1)%nat then bs else done_order bs))
          [] [])).
Proof.
  intros Hne Hmc bs.
  assert (Hmain :
    Z.of_nat (length bs) = Z.min (Z.of_nat (length videos_ids)) max_concurrency /\
    (forall i v, videos_ids !! i = Some v ->
       exists b, bs !! (i mod length bs)%nat = Some b /\
                 b !! (i / length bs)%nat = Some v) /\
    concat bs ≡ₚ videos_ids).
  { unfold bs, batches_of, concurrency_of.
    assert (Hpos : (0 < length videos_ids)%nat)
      by (destruct videos_ids; [congruence|simpl; lia]).
    set (c := if Z.of_nat (length videos_ids) <? max_concurrency
              then Z.of_nat (length videos_ids) else max_concurrency).
    assert (Hc : c = Z.min (Z.of_nat (length videos_ids)) max_concurrency).
    { unfold c. destruct (Z.ltb_spec (Z.of_nat (length videos_ids)) max_concurrency); lia. }
    destruct (Z.leb_spec c 1) as [Hle|Hgt].
    - cbn [length concat]. repeat split.
      + lia.
      + intros i v Hv. exists videos_ids.
        rewrite Nat.mod_1_r, Nat.div_1_r. auto.
      + now rewrite app_nil_r.
    - destruct (round_robin_spec (Z.to_nat c) videos_ids ltac:(lia))
        as (Hl & Hget & Hperm).
      rewrite Hl. repeat split; auto. lia. }
  destruct Hmain as (Hlen & Hget & Hperm). repeat split; auto.
  - intros Hnd v j1 j2 b1 b2. apply concat_unique_slot.
    now rewrite Hperm.
  - intros H7 ->. unfold bs.
    do 8 (destruct videos_ids as [|? videos_ids]; try discriminate).
    reflexivity.
  - intros video_format w done_order.
    rewrite download_video_files_batches. fold bs.
    replace (concurrency_of (Z.of_nat (length videos_ids)) max_concurrency <=? 1)
      with (length bs <=? 1)%nat; [reflexivity|].
    unfold concurrency_of.
    destruct (Z.ltb_spec (Z.of_nat (length videos_ids)) max_concurrency),
             (Nat.leb_spec (length bs) 1),
             (Z.leb_spec (Z.of_nat (length videos_ids)) 1),
             (Z.leb_spec max_concurrency 1); try reflexivity; lia.
Qed.

(** C7 as stated fails on a list that repeats an id, which a CSV file
    with a repeated row gives: the two occurrences of the id go to two
    batches. *)
Lemma batches_of_round_robin_counterexample :
  batches_of ["a"; "a"] 2 = [["a"]; ["a"]] /\
  exists j1 j2 b1 b2,
    j1 <> j2 /\
    batches_of ["a"; "a"] 2 !! j1 = Some b1 /\
    batches_of ["a"; "a"] 2 !! j2 = Some b2 /\
    "a" ∈ b1 /\ "a" ∈ b2.
Proof.
  split; [reflexivity|].
  exists 0%nat, 1%nat, ["a"], ["a"].
  repeat split; try reflexivity; try discriminate; now left.
Qed.

Lemma batches_of_round_robin_witness :
  map length (batches_of ["a"; "b"; "c"; "d"; "e"; "f"; "g"] 3) = [3; 2; 2]%nat.
Proof.
  apply (batches_of_round_robin ["a"; "b"; "c"; "d"; "e"; "f"; "g"] 3);
    [discriminate|lia|reflexivity|reflexivity].
Defined.

End BatchFacts.

(** ** [get_video_json]: the injected statistics *)

Section VideoJsonFacts.
Import Youtube.

Lemma digit_of_bounds c d : digit_of c = Some d -> 0 <= d <= 9.
Proof.
  unfold digit_of.
  destruct (Nat.leb_spec 48 (nat_of_ascii c)), (Nat.leb_spec (nat_of_ascii c) 57);
    simpl; intros E; inversion E; lia.
Qed.

Lemma digits_value_nonneg s : forall acc z,
  0 <= acc -> digits_value acc s = Some z -> 0 <= z.
Proof.
  induction s as [|c s IH]; simpl; intros acc z Hacc H.
  - injection H as <-. assumption.
  - destruct (digit_of c) as [d|] eqn:Ed; [|discriminate].
    apply digit_of_bounds in Ed. eapply IH; [|exact H]. lia.
Qed.

Lemma py_int_nonneg s z : py_int s = Ok z -> 0 <= z.
Proof.
  unfold py_int. destruct (list_ascii_of_string s) as [|c l]; [discriminate|].
  destruct (digits_value 0 (c :: l)) as [v|] eqn:E; [|discriminate].
  intros H. inversion H; subst. eapply digits_value_nonneg; [|exact E]. lia.
Qed.

(** *** Rounding to a float *)

Lemma round_half_even_bounds n d :
  0 < d ->
  n / d <= round_half_even n d /\
  (forall h, n <= h * d -> round_half_even n d <= h).
Proof.
  intros Hd. unfold round_half_even. cbv zeta.
  pose proof (Z.mod_pos_bound n d Hd) as Hm.
  pose proof (Z.div_mod n d ltac:(lia)) as E.
  assert (Hup : forall h, n <= h * d -> 0 < n mod d -> n / d + 1 <= h).
  { intros h Hh Hr. destruct (Z.lt_ge_cases (n / d) h) as [|Hge]; [lia|].
    exfalso. assert (d * h <= d * (n / d)) by (apply Z.mul_le_mono_nonneg_l; lia).
    lia. }
  assert (Hdn : forall h, n <= h * d -> n / d <= h).
  { intros h Hh. apply Z.div_le_upper_bound; [assumption|]. nia. }
  destruct (Z.compare_spec (2 * (n mod d)) d) as [Hc|Hc|Hc];
    [destruct (Z.even (n / d))| |].
  - split; [lia|]. intros h Hh. now apply Hdn.
  - split; [lia|]. intros h Hh. apply Hup; [assumption|lia].
  - split; [lia|]. intros h Hh. now apply Hdn.
  - split; [lia|]. intros h Hh. apply Hup; [assumption|lia].
Qed.

Lemma floor_log2_lt n d F :
  0 < n -> 0 < d -> 0 <= F -> n < d * 2 ^ F -> floor_log2 n d < F.
Proof.
  intros Hn Hd HF Hlt. unfold floor_log2.
  pose proof (Z.log2_spec n Hn) as [Hn1 Hn2].
  pose proof (Z.log2_spec d Hd) as [Hd1 Hd2].
  pose proof (Z.log2_nonneg n) as Hln. pose proof (Z.log2_nonneg d) as Hld.
  set (t := Z.log2 n - Z.log2 d) in *.
  destruct (Z.leb_spec (d * 2 ^ Z.max 0 t) (n * 2 ^ Z.max 0 (- t))) as [Ht|Ht].
  - destruct (Z.lt_ge_cases t F) as [|Hge]; [assumption|exfalso].
    rewrite (Z.max_r 0 t), (Z.max_l 0 (- t)) in Ht by lia.
    assert (2 ^ F <= 2 ^ t) by (apply Z.pow_le_mono_r; lia). nia.
  - destruct (Z.lt_ge_cases (t - 1) F) as [|Hge]; [assumption|exfalso].
    assert (E : Z.log2 n = Z.succ (Z.log2 d) + (t - 1)) by (unfold t; lia).
    rewrite E, Z.pow_add_r in Hn1 by lia.
    assert (2 ^ F <= 2 ^ (t - 1)) by (apply Z.pow_le_mono_r; lia).
    assert (0 < 2 ^ F) by (apply Z.pow_pos_nonneg; lia).
    nia.
Qed.

(** Rounding is monotone with respect to the floats it passes: a quotient
    between two multiples of [2 ^ - J] that have at most 53 bits is rounded
    to a float between them. *)
Lemma round_pos_between n d J lo hi :
  0 < n -> 0 < d -> 0 <= J <= 53 -> hi < 2 ^ 53 ->
  lo * d <= n * 2 ^ J -> n * 2 ^ J <= hi * d ->
  exists y, round_pos n d = Finite y /\
            (lo # Z.to_pos (2 ^ J) <= y)%Q /\ (y <= hi # Z.to_pos (2 ^ J))%Q.
Proof.
  intros Hn Hd HJ Hhi Hlo Hup.
  assert (HJpos : 0 < 2 ^ J) by (apply Z.pow_pos_nonneg; lia).
  assert (He : ulp_exponent n d <= - J).
  { unfold ulp_exponent.
    assert (floor_log2 n d < 53 - J); [|lia].
    apply floor_log2_lt; try lia.
    assert (E53 : 2 ^ 53 = 2 ^ (53 - J) * 2 ^ J)
      by (rewrite <- Z.pow_add_r by lia; f_equal; lia).
    assert (0 < 2 ^ (53 - J)) by (apply Z.pow_pos_nonneg; lia).
    nia. }
  unfold round_pos. set (e := ulp_exponent n d) in *.
  rewrite (Z.max_l 0 e), (Z.max_r 0 (- e)) by lia.
  rewrite Z.pow_0_r, !Z.mul_1_r.
  set (m := round_half_even (n * 2 ^ (- e)) d).
  assert (Hs : 2 ^ (- e) = 2 ^ (- e - J) * 2 ^ J)
    by (rewrite <- Z.pow_add_r by lia; f_equal; lia).
  assert (Hspos : 0 < 2 ^ (- e - J)) by (apply Z.pow_pos_nonneg; lia).
  assert (Hepos : 0 < 2 ^ (- e)) by (apply Z.pow_pos_nonneg; lia).
  destruct (round_half_even_bounds (n * 2 ^ (- e)) d Hd) as [Hm1 Hm2].
  fold m in Hm1, Hm2.
  assert (HL : lo * 2 ^ (- e - J) <= m).
  { etransitivity; [|exact Hm1]. apply Z.div_le_lower_bound; [assumption|].
    rewrite Hs. nia. }
  assert (HH : m <= hi * 2 ^ (- e - J)).
  { apply Hm2. rewrite Hs. nia. }
  assert (Hno : (0 <=? e) && (2 ^ 1024 <=? m * 2 ^ e) = false).
  { destruct (Z.leb_spec 0 e) as [He0|]; [|reflexivity]. cbn [andb].
    apply Z.leb_gt. assert (E0 : e = 0) by lia. assert (J = 0) by lia.
    subst J. rewrite E0 in HH |- *. change (- 0 - 0) with 0 in HH.
    rewrite Z.pow_0_r in HH |- *.
    assert (2 ^ 53 < 2 ^ 1024) by (apply Z.pow_lt_mono_r; lia). lia. }
  rewrite Hno. eexists. split; [reflexivity|].
  rewrite !Qred_correct. unfold Qle. simpl.
  rewrite !Z2Pos.id by lia. rewrite Hs. split; nia.
Qed.

Lemma round64_between x J lo hi :
  (0 < x)%Q -> 0 <= J <= 53 -> hi < 2 ^ 53 ->
  (lo # Z.to_pos (2 ^ J) <= x)%Q -> (x <= hi # Z.to_pos (2 ^ J))%Q ->
  exists y, round64 x = Finite y /\
            (lo # Z.to_pos (2 ^ J) <= y)%Q /\ (y <= hi # Z.to_pos (2 ^ J))%Q.
Proof.
  intros Hx HJ Hhi Hlo Hup.
  assert (HJpos : 0 < 2 ^ J) by (apply Z.pow_pos_nonneg; lia).
  destruct x as [xn xd]. unfold Qlt in Hx. simpl in Hx.
  unfold Qle in Hlo, Hup. simpl in Hlo, Hup.
  rewrite Z2Pos.id in Hlo, Hup by lia.
  unfold round64. simpl Qnum. simpl Qden.
  destruct xn as [|n|n]; try lia.
  apply round_pos_between; lia.
Qed.

Lemma Qadd_one_le a (P : positive) (y : Q) :
  (a # P <= y)%Q -> (a + Zpos P # P <= y + 1)%Q.
Proof. unfold Qle, Qplus. simpl. nia. Qed.

Lemma Qadd_one_ge a (P : positive) (y : Q) :
  (y <= a # P)%Q -> (y + 1 <= a + Zpos P # P)%Q.
Proof. unfold Qle, Qplus. simpl. nia. Qed.

(** As long as the view count and twice the number of years stay below
    [2 ^ 52], neither the division nor the addition rounds across an
    integer: [int(views / years + 1)] is one more than the floor of the
    quotient. *)
Lemma view_per_year_range views years :
  0 <= views -> 0 < years -> views + 2 * years <= 2 ^ 52 ->
  view_per_year views years = Ok (views / years + 1).
Proof.
  intros Hv Hy Hb. unfold view_per_year.
  destruct (Z.eqb_spec years 0) as [|_]; [lia|].
  set (k := views / years).
  set (J := Z.log2_up years).
  assert (HJ0 : 0 <= J) by apply Z.log2_up_nonneg.
  assert (HJ1 : years <= 2 ^ J).
  { destruct (Z.eq_dec years 1) as [->|]; [reflexivity|].
    apply Z.log2_up_spec. lia. }
  assert (HJ2 : 2 ^ J < 2 * years).
  { destruct (Z.eq_dec years 1) as [->|]; [reflexivity|].
    pose proof (Z.log2_up_spec years ltac:(lia)) as [H1 _].
    replace J with (Z.succ (Z.pred J)) by lia.
    rewrite Z.pow_succ_r; [unfold J; lia|].
    assert (0 < J); [|lia]. apply Z.log2_up_pos. lia. }
  assert (Hk0 : 0 <= k) by (apply Z.div_pos; lia).
  pose proof (Z.mul_div_le views years Hy) as Hk1. fold k in Hk1.
  pose proof (Z.mul_succ_div_gt views years Hy) as Hk2. fold k in Hk2.
  assert (H52 : 2 ^ 53 = 2 * 2 ^ 52) by reflexivity.
  assert (HJ53 : J <= 53).
  { destruct (Z.le_gt_cases J 53) as [|Hgt]; [assumption|exfalso].
    assert (2 ^ 53 < 2 ^ J) by (apply Z.pow_lt_mono_r; lia). nia. }
  assert (HJpos : 0 < 2 ^ J) by (apply Z.pow_pos_nonneg; lia).
  assert (Hhi : (k + 2) * 2 ^ J <= 2 ^ 53) by nia.
  unfold int_true_divide.
  destruct (Z.eq_dec views 0) as [->|Hv0].
  { destruct years as [|p|p]; try lia. unfold k. rewrite Z.div_0_l by lia.
    reflexivity. }
  destruct (round64_between (inject_Z views / inject_Z years) J
              (k * 2 ^ J) ((k + 1) * 2 ^ J - 1))
    as (y1 & -> & Hy1lo & Hy1hi); try lia.
  { destruct years as [|p|p]; try lia. unfold Qlt. simpl. lia. }
  { destruct years as [|p|p]; try lia. unfold Qle. simpl.
    rewrite Z2Pos.id by lia. nia. }
  { destruct years as [|p|p]; try lia. unfold Qle. simpl.
    rewrite Z2Pos.id by lia. nia. }
  cbn [mbind result_bind]. unfold float64_add.
  apply Qadd_one_le in Hy1lo. apply Qadd_one_ge in Hy1hi.
  rewrite Z2Pos.id in Hy1lo, Hy1hi by lia.
  destruct (round64_between (y1 + 1) J (k * 2 ^ J + 2 ^ J)
              ((k + 1) * 2 ^ J - 1 + 2 ^ J))
    as (y2 & -> & Hy2lo & Hy2hi); try lia; try assumption.
  { eapply Qlt_le_trans; [|exact Hy1lo]. unfold Qlt. simpl. nia. }
  unfold int_of_float64. f_equal.
  unfold Qle in Hy2lo, Hy2hi. simpl in Hy2lo, Hy2hi.
  rewrite Z2Pos.id in Hy2lo, Hy2hi by lia.
  destruct y2 as [yn yd]. simpl in *.
  assert (H1 : (k + 1) * Zpos yd <= yn) by nia.
  assert (H2 : yn < (k + 2) * Zpos yd) by nia.
  rewrite Z.quot_div_nonneg by nia.
  symmetry. apply (Z.div_unique yn (Zpos yd) (k + 1) (yn - (k + 1) * Zpos yd)); lia.
Qed.

Lemma view_per_year_zero views : view_per_year views 0 = Ok 0.
Proof. reflexivity. Qed.

(** *** The last video of an id *)

Lemma last_with_id_inv l k u :
  last_with_id l k = Some u -> u ∈ l /\ video_id u = k.
Proof.
  induction l as [|w l IH]; simpl; [discriminate|].
  destruct (last_with_id l k) as [later|].
  - intros E. destruct (IH E) as [Hin Hid]. split; [now right|assumption].
  - destruct (String.eqb_spec (video_id w) k) as [Hk|]; [|discriminate].
    intros E. injection E as <-. split; [left|assumption].
Qed.

Lemma last_with_id_elem l v : v ∈ l -> is_Some (last_with_id l (video_id v)).
Proof.
  induction l as [|w l IH]; intros H; [inversion H|]. simpl.
  apply elem_of_cons in H as [<-|H].
  - destruct (last_with_id l (video_id v)); [eauto|].
    rewrite String.eqb_refl. eauto.
  - destruct (IH H) as [u ->]. eauto.
Qed.

Lemma last_with_id_NoDup l v :
  NoDup (map video_id l) -> v ∈ l -> last_with_id l (video_id v) = Some v.
Proof.
  induction l as [|w l IH]; intros Hnd H; [inversion H|]. simpl in *.
  apply NoDup_cons in Hnd as [Hfresh Hnd].
  apply elem_of_cons in H as [->|H].
  - destruct (last_with_id l (video_id w)) as [later|] eqn:E.
    + apply last_with_id_inv in E as [Hin Hid]. exfalso. apply Hfresh.
      rewrite <- Hid. apply list_elem_of_fmap. now exists later.
    + now rewrite String.eqb_refl.
  - now rewrite (IH Hnd H).
Qed.

Lemma last_with_id_related (R : video -> video -> Prop) l r k :
  Forall2 R l r -> (forall u w, R u w -> video_id w = video_id u) ->
  match last_with_id l k, last_with_id r k with
  | Some u, Some w => R u w
  | None, None => True
  | _, _ => False
  end.
Proof.
  intros H Hid. induction H as [|u w l r HR _ IH]; simpl; [exact I|].
  destruct (last_with_id l k), (last_with_id r k); try contradiction; auto.
  rewrite (Hid _ _ HR). destruct (video_id u =? k)%string; auto.
Qed.

Section Loops.
Variable videos_api : list string -> videos_response.
Variable now_year : Z.
Variable filesize_approx : string -> option Z.
Variable int_of_str : string -> result Z.
Variable strptime_year : string -> result Z.

(** After the second loop the dictionary holds, for every id met, what the
    loop computed for the last video of that id. *)
Lemma stats_loop_last l : forall vp vs vp' vs',
  stats_loop now_year filesize_approx int_of_str strptime_year l vp vs
    = Ok (vp', vs') ->
  forall k,
    match last_with_id l k with
    | Some u =>
        exists n, vp' !! k = Some n /\
                  stored_for now_year int_of_str strptime_year u n
    | None => vp' !! k = vp !! k
    end.
Proof.
  induction l as [|u0 l IH]; cbn [stats_loop last_with_id];
    intros vp vs vp' vs' H k.
  - now inversion H.
  - destruct (int_of_str _) as [views|] eqn:Ev; [|discriminate].
    destruct (strptime_year _) as [year|] eqn:Ey; [|discriminate].
    cbn [mbind result_bind] in H.
    destruct (view_per_year _ _) as [n0|] eqn:En; [|discriminate].
    cbn [mbind result_bind] in H.
    specialize (IH _ _ _ _ H k).
    destruct (last_with_id l k) as [later|]; [exact IH|].
    destruct (String.eqb_spec (video_id u0) k) as [<-|Hne].
    + rewrite IH, lookup_insert_eq. exists n0. split; [reflexivity|].
      now exists views, year.
    + rewrite IH. now rewrite lookup_insert_ne.
Qed.

Lemma inject_loop_spec l vp vs : forall result,
  inject_loop l vp vs = Ok result ->
  Forall2 (fun u v =>
             video_id v = video_id u /\ publishedAt v = publishedAt u /\
             viewCount (video_statistics v) = viewCount (video_statistics u) /\
             Some <$> vp !! video_id u = Some (viewPerYear (video_statistics v)))
          l result.
Proof.
  induction l as [|u l IH]; simpl; intros result H.
  - inversion H. constructor.
  - destruct (dict_get vp (video_id u)) as [n|] eqn:En; [|discriminate].
    destruct (dict_get vs (video_id u)) as [m|]; [|discriminate].
    destruct (inject_loop l vp vs) as [rest|]; [|discriminate].
    simpl in H. inversion H; subst. constructor; [|now apply IH].
    simpl. repeat split; auto.
    unfold dict_get in En. destruct (vp !! video_id u); inversion En. reflexivity.
Qed.

(** C5 as amended: every video [v] that [get_video_json] returns carries as
    [viewPerYear] the number [n] that [int(views / years + 1)], with the
    [ZeroDivisionError] answered by 0, gives for [u], the last returned video
    with the id of [v] ([v] itself when the returned ids are distinct),
    [views] being [int] of its view count and [years] the current year minus
    the year of its publication date.  This [n] is 0 when [years] is zero;
    when [years] is positive it is the floor of [views / years] plus one, for
    a view count that is not negative and, with twice the years, does not
    exceed [2 ^ 52]. *)
Theorem get_video_json_view_per_year videos_ids result :
  get_video_json videos_api now_year filesize_approx int_of_str strptime_year
    videos_ids = Ok result ->
  forall v, v ∈ result ->
    exists u views year n,
      last_with_id result (video_id v) = Some u /\
      (NoDup (map video_id result) -> u = v) /\
      int_of_str (viewCount (video_statistics u)) = Ok views /\
      strptime_year (publishedAt u) = Ok year /\
      view_per_year views (now_year - year) = Ok n /\
      viewPerYear (video_statistics v) = Some n /\
      (now_year - year = 0 -> n = 0) /\
      (0 < now_year - year -> 0 <= views ->
       views + 2 * (now_year - year) <= 2 ^ 52 ->
       n = views / (now_year - year) + 1).
Proof.
  unfold get_video_json. intros H v Hv.
  destruct (fetch_chunks _ _ _ _) as [all|]; [|discriminate].
  cbn [mbind result_bind] in H.
  destruct (stats_loop _ _ _ _ all ∅ ∅) as [[vp vs]|] eqn:Es; [|discriminate].
  cbn [mbind result_bind] in H. apply inject_loop_spec in H.
  destruct (last_with_id_elem result v Hv) as [w Hw].
  pose proof (last_with_id_related _ all result (video_id v) H
                (fun u w HR => proj1 HR)) as Hrel.
  rewrite Hw in Hrel.
  pose proof (stats_loop_last _ _ _ _ _ Es (video_id v)) as Hst.
  destruct (last_with_id all (video_id v)) as [u|]; [|contradiction].
  destruct Hrel as (_ & Epub & Eviews & _).
  destruct Hst as (n & Hn & views & year & Hviews & Hyear & Hvpy).
  pose proof Hv as Hv'.
  apply list_elem_of_lookup in Hv' as [i Hi].
  destruct (Forall2_lookup_r _ _ _ _ _ H Hi) as (u' & _ & Eid' & _ & _ & Evpy).
  rewrite <- Eid', Hn in Evpy. simpl in Evpy. injection Evpy as Evpy.
  exists w, views, year, n. split; [exact Hw|]. split.
  { intros Hnd. rewrite (last_with_id_NoDup _ _ Hnd Hv) in Hw. congruence. }
  rewrite Eviews, Epub. repeat split; auto.
  - intros E0. rewrite E0, view_per_year_zero in Hvpy. congruence.
  - intros Hpos Hv0 Hb. rewrite view_per_year_range in Hvpy by assumption.
    congruence.
Qed.

End Loops.

Lemma get_video_json_view_per_year_witness :
  get_video_json example_videos_api 2026 example_probe py_int
    example_strptime_year ["a"] = Ok [example_video_enriched] /\
  exists u views year n,
    last_with_id [example_video_enriched] (video_id example_video_enriched)
      = Some u /\
    (NoDup (map video_id [example_video_enriched]) ->
     u = example_video_enriched) /\
    py_int (viewCount (video_statistics u)) = Ok views /\
    example_strptime_year (publishedAt u) = Ok year /\
    view_per_year views (2026 - year) = Ok n /\
    viewPerYear (video_statistics example_video_enriched) = Some n /\
    (2026 - year = 0 -> n = 0) /\
    (0 < 2026 - year -> 0 <= views -> views + 2 * (2026 - year) <= 2 ^ 52 ->
     n = views / (2026 - year) + 1).
Proof.
  split; [vm_compute; reflexivity|].
  apply (get_video_json_view_per_year example_videos_api 2026 example_probe
           py_int example_strptime_year ["a"] [example_video_enriched]).
  - vm_compute. reflexivity.
  - left.
Defined.

(** C5 as stated fails: a video viewed 10 times, published two calendar
    years ago, gets 6 where the floor of 10 / 2 is 5.  Nor is the floor plus
    one right without the two provisos of the amended statement: a count of
    [2 ^ 53 + 1] over one year is rounded to [2 ^ 53] by the division, and
    adding 1 changes nothing; and of two answered videos of one id, the
    first gets what the second gives, here 16 for its 10 views over 2
    years. *)
Lemma get_video_json_view_per_year_counterexample :
  (exists v,
     get_video_json example_videos_api 2026 example_probe py_int
       example_strptime_year ["a"] = Ok [v] /\
     py_int (viewCount (video_statistics v)) = Ok 10 /\
     example_strptime_year (publishedAt v) = Ok 2024 /\
     0 < 2026 - 2024 /\
     viewPerYear (video_statistics v) <> Some (10 / (2026 - 2024))) /\
  (exists v,
     get_video_json
       (fun _ =>
          VideosItems
            [{| video_id := "b";
                publishedAt := "2025-05-06T07:08:09Z";
                video_statistics :=
                  {| viewCount := "9007199254740993"; viewPerYear := None;
                     videoSize := None |} |}])
       2026 example_probe py_int example_strptime_year ["b"] = Ok [v] /\
     py_int (viewCount (video_statistics v)) = Ok 9007199254740993 /\
     example_strptime_year (publishedAt v) = Ok 2025 /\
     viewPerYear (video_statistics v) = Some 9007199254740992 /\
     9007199254740993 / (2026 - 2025) = 9007199254740993) /\
  (exists v w,
     get_video_json
       (fun _ =>
          VideosItems
            [example_video;
             {| video_id := "a";
                publishedAt := "2024-05-06T07:08:09Z";
                video_statistics :=
                  {| viewCount := "30"; viewPerYear := None;
                     videoSize := None |} |}])
       2026 example_probe py_int example_strptime_year ["a"; "a"]
       = Ok [v; w] /\
     py_int (viewCount (video_statistics v)) = Ok 10 /\
     example_strptime_year (publishedAt v) = Ok 2024 /\
     viewPerYear (video_statistics v) = Some 16 /\
     10 / (2026 - 2024) + 1 = 6).
Proof.
  split; [|split].
  - exists example_video_enriched. split; [vm_compute; reflexivity|].
    repeat split; try reflexivity. discriminate.
  - eexists. split; [vm_compute; reflexivity|].
    repeat split; vm_compute; reflexivity.
  - eexists _, _. split; [vm_compute; reflexivity|].
    repeat split; vm_compute; reflexivity.
Qed.

(** The arithmetic alone, outside the range of the amended statement: the
    rounding of the quotient from [2 ^ 53] on, and the truncation toward
    zero of a negative float. *)
Example view_per_year_rounded :
  view_per_year 9007199254740993 1 = Ok 9007199254740992 /\
  9007199254740993 / 1 + 1 = 9007199254740994 /\
  view_per_year (-5) 2 = Ok (-1) /\
  -5 / 2 + 1 = -2.
Proof. repeat split; vm_compute; reflexivity. Qed.

End VideoJsonFacts.

(** ** [subset_videos_json] *)

Section SubsetFacts.
Import Youtube.

Lemma keep_ids_nil videos : keep_ids [] videos = [].
Proof.
  unfold keep_ids. induction videos as [|v videos IH]; [reflexivity|].
  rewrite filter_cons_False; [assumption|]. apply not_elem_of_nil.
Qed.

Lemma keep_ids_Forall (P : video -> Prop) ids videos :
  Forall P videos -> Forall P (keep_ids ids videos).
Proof.
  unfold keep_ids. rewrite !Forall_forall. intros H v Hv.
  apply list_elem_of_filter in Hv as [_ Hv]. auto.
Qed.

Lemma mapM_result_ok {A B} (f : A -> result B) (l : list A) :
  Forall (fun x => exists y, f x = Ok y) l ->
  exists ys, mapM f l = Ok ys /\ length ys = length l.
Proof.
  induction 1 as [|x l [y Hy] _ (ys & Hys & Hl)]; simpl.
  - now exists [].
  - exists (y :: ys). rewrite Hy. simpl. rewrite Hys. simpl. auto.
Qed.

Lemma insert_desc_perm {K A} (gt : K -> K -> bool) (x : K * A) l :
  insert_desc gt x l ≡ₚ x :: l.
Proof.
  induction l as [|y l IH]; simpl; [reflexivity|].
  destruct (gt y.1 x.1); [|reflexivity].
  rewrite IH. apply Permutation_swap.
Qed.

Lemma sort_desc_perm {K A} (gt : K -> K -> bool) (l : list (K * A)) :
  sort_desc gt l ≡ₚ l.
Proof.
  induction l as [|x l IH]; simpl; [reflexivity|].
  now rewrite insert_desc_perm, IH.
Qed.

(** Sorting returns as soon as every key can be read, and returns the same
    videos. *)
Lemma sorted_reverse_ok {K} (gt : K -> K -> bool) key videos :
  Forall (fun v => exists k, key v = Ok k) videos ->
  exists sorted, sorted_reverse gt key videos = Ok sorted /\ sorted ≡ₚ videos.
Proof.
  intros H. destruct (mapM_result_ok key videos H) as (keys & Hk & Hl).
  unfold sorted_reverse. rewrite Hk. simpl. eexists. split; [reflexivity|].
  rewrite sort_desc_perm. change (map snd ?l) with (l.*2).
  rewrite snd_zip by lia. reflexivity.
Qed.

Lemma key_viewPerYear_ok videos :
  Forall has_statistics videos ->
  Forall (fun v => exists k, key_viewPerYear v = Ok k) videos.
Proof.
  intros H. eapply Forall_impl; [exact H|]. intros v [[n Hn] _]. exists n.
  unfold key_viewPerYear. now rewrite Hn.
Qed.

Lemma sort_by_ok subset_by videos :
  Forall has_statistics videos ->
  exists sorted, sort_by subset_by videos = Ok sorted /\ sorted ≡ₚ videos.
Proof.
  intros H. unfold sort_by.
  destruct (String.eqb subset_by "views");
    [apply sorted_reverse_ok, Forall_forall; intros v _; now eexists|].
  destruct (String.eqb subset_by "recent");
    [apply sorted_reverse_ok, Forall_forall; intros v _; now eexists|].
  destruct (String.eqb subset_by "views-per-year");
    [apply sorted_reverse_ok, key_viewPerYear_ok, H|].
  now exists videos.
Qed.

(** With [videos_ids] bound to a list that is not empty, the greedy loop
    returns. *)
Lemma budget_loop_returns subset_gb videos ids rest :
  ids <> [] -> Forall has_statistics rest ->
  forall total_size videos_ids_subset,
  exists r, budget_loop subset_gb videos rest total_size videos_ids_subset
              (Some ids) = Ok r.
Proof.
  intros Hids Hrest.
  induction Hrest as [|v rest [_ [size Hsize]] _ IH]; intros total subset; simpl.
  - now eexists.
  - unfold get_videoSize. rewrite Hsize. simpl.
    destruct (total + size <=? subset_gb); [|now eexists]. simpl.
    unfold py_last. destruct (last ids) as [last_id|] eqn:El.
    + simpl. destruct (String.eqb (video_id v) last_id); [now eexists|apply IH].
    + apply last_None in El. contradiction.
Qed.

(** C10 as amended: on videos that carry their statistics the operation
    returns whenever [subset_videos] is non-zero.  With [subset_videos] zero
    and [subset_gb] non-zero it raises [UnboundLocalError] on [videos_ids]
    exactly when the list is not empty and the video ranked first by
    views-per-year fits in the budget; on the empty list, and when that
    first video exceeds the budget, it returns the empty list. *)
Theorem subset_videos_json_unbound videos subset_by subset_videos subset_gb :
  (subset_videos <> 0 -> Forall has_statistics videos ->
   exists r, subset_videos_json videos subset_by subset_videos subset_gb = Ok r) /\
  (subset_videos = 0 -> subset_gb <> 0 ->
   forall sorted ranked,
     sort_by subset_by videos = Ok sorted ->
     sorted_reverse Z.gtb key_viewPerYear sorted = Ok ranked ->
     subset_videos_json videos subset_by subset_videos subset_gb =
       match ranked with
       | [] => Ok []
       | first :: _ =>
           match videoSize (video_statistics first) with
           | None => Raise KeyError
           | Some size =>
               if size <=? subset_gb * 1024 * 1024 * 1024
               then Raise (UnboundLocalError "videos_ids")
               else Ok []
           end
       end).
Proof.
  split.
  - intros Hn Hstats. unfold subset_videos_json.
    destruct (sort_by_ok subset_by videos Hstats) as (sorted & -> & Hperm).
    simpl. apply Z.eqb_neq in Hn. rewrite Hn. simpl.
    destruct (subset_gb =? 0); simpl; [now eexists|].
    set (kept := keep_ids _ sorted).
    assert (Hkept : Forall has_statistics kept).
    { apply keep_ids_Forall. now rewrite Hperm. }
    destruct (sorted_reverse_ok Z.gtb key_viewPerYear kept
                (key_viewPerYear_ok _ Hkept)) as (ranked & -> & Hranked).
    simpl. destruct ranked as [|first ranked]; [now eexists|].
    apply budget_loop_returns; [|now rewrite Hranked].
    destruct sorted as [|v sorted]; [|discriminate].
    unfold kept in Hranked. simpl in Hranked.
    apply Permutation_nil_r in Hranked. discriminate.
  - intros -> Hgb sorted ranked Hsorted Hranked. unfold subset_videos_json.
    rewrite Hsorted. simpl. apply Z.eqb_neq in Hgb. rewrite Hgb. simpl.
    rewrite Hranked. simpl.
    destruct ranked as [|first ranked]; [reflexivity|]. simpl.
    unfold get_videoSize. destruct (videoSize (video_statistics first)); simpl;
      [|reflexivity].
    destruct (_ <=? _); [reflexivity|]. now rewrite keep_ids_nil.
Qed.

(** C10 as stated fails: with no truncation and a budget of one gibibyte, a
    list whose first-ranked video has two gibibytes is answered with the
    empty list, and so is the empty list. *)
Lemma subset_videos_json_unbound_counterexample :
  subset_videos_json [example_big_video; example_small_video]
    "views-per-year" 0 1 = Ok [] /\
  subset_videos_json [] "views-per-year" 0 1 = Ok [].
Proof. split; reflexivity. Qed.

(** The crash of C10 on a list whose first-ranked video fits. *)
Example subset_videos_json_crash :
  subset_videos_json [example_small_video] "views-per-year" 0 1 =
    Raise (UnboundLocalError "videos_ids").
Proof. reflexivity. Qed.

End SubsetFacts.

(** ** The cache: [get_channel_playlists_json] *)

Section CacheFacts.
Import Youtube.

Lemma bind_inv {A B} (m : M A) (k : A -> M B) c r c' :
  (m ≫= k) c = (Ok r, c') ->
  exists a c1, m c = (Ok a, c1) /\ k a c1 = (Ok r, c').
Proof.
  unfold mbind, M_bind. destruct (m c) as [[a|e] c1]; [eauto|discriminate].
Qed.

Lemma bind_unfold {A B} (m : M A) (k : A -> M B) c :
  (m ≫= k) c = match m c with
               | (Ok a, c') => k a c'
               | (Raise e, c') => (Raise e, c')
               end.
Proof. reflexivity. Qed.

Lemma ret_bind {A B} (a : A) (k : A -> M B) c : (mret a ≫= k) c = k a c.
Proof. reflexivity. Qed.

Lemma load_json_Some key (c : cache) d :
  c !! key = Some d -> d <> DCorrupt -> load_json key c = (Ok (Some d), c).
Proof. unfold load_json. intros -> H. destruct d; congruence. Qed.

Lemma load_json_None key (c : cache) :
  c !! key = None \/ c !! key = Some DCorrupt -> load_json key c = (Ok None, c).
Proof. unfold load_json. now intros [-> | ->]. Qed.

Lemma load_json_inv key (c : cache) o c' :
  load_json key c = (Ok o, c') ->
  c' = c /\ (forall d, o = Some d -> c !! key = Some d).
Proof.
  unfold load_json. intros H. injection H as <- <-. split; [reflexivity|].
  intros d. destruct (c !! key) as [[]|]; congruence.
Qed.

(** The pagination loop: the pages are laid end to end and saved as they
    come; the loop returns them all, or raises what ended the pagination. *)
Lemma fetch_playlists_spec fname response : forall items (c : cache),
  fetch_playlists fname items response c =
    match playlists_end response with
    | None =>
        (Ok (items ++ playlists_pages_of response),
         <[fname := DPlaylists (items ++ playlists_pages_of response)]> c)
    | Some e =>
        (Raise e,
         if playlists_page_read response
         then <[fname := DPlaylists (items ++ playlists_pages_of response)]> c
         else c)
    end.
Proof.
  induction response as [|page|page next IH|]; intros items c; simpl;
    try reflexivity.
  rewrite bind_unfold. simpl. rewrite IH, <- app_assoc.
  destruct (playlists_end next) as [e|].
  - destruct next; simpl; rewrite ?app_nil_r, ?insert_insert_eq; reflexivity.
  - now rewrite insert_insert_eq.
Qed.

Lemma playlists_end_exn response e :
  playlists_end response = Some e -> e = HTTPError \/ e = KeyError.
Proof.
  induction response as [|page|page next IH|]; simpl; intros H;
    try discriminate; auto; injection H as <-; auto.
Qed.

(** C3 as amended: when the channel's playlist list is cached (and
    readable), an [optimize_number] of 1 or 2 raises [ValueError] whatever
    the cached content, and the cache is left as it was.  When it is not
    cached, [optimize_number] is not examined: the call does what it does
    for any other value; if the pagination reaches its last page it returns
    the pages laid end to end, saved under the channel's list; if not, it
    raises what ended the pagination, the HTTP failure or the [KeyError] of
    a body without items, never a [ValueError], and the pages read before
    stay saved. *)
Theorem get_channel_playlists_json_invalid api channel_id optimize_number
    (c : cache) :
  optimize_number = 1 \/ optimize_number = 2 ->
  (forall items,
     c !! channel_playlists_key channel_id = Some items -> items <> DCorrupt ->
     get_channel_playlists_json api channel_id (Some optimize_number) c =
       (Raise (ValueError "optimize_number must be 0 or >= 3"), c)) /\
  (c !! channel_playlists_key channel_id = None \/
   c !! channel_playlists_key channel_id = Some DCorrupt ->
   let fetched := playlists_pages_of (api channel_id) in
   let saved := <[channel_playlists_key channel_id := DPlaylists fetched]> c in
   (forall other,
      get_channel_playlists_json api channel_id other c =
        get_channel_playlists_json api channel_id (Some optimize_number) c) /\
   (playlists_end (api channel_id) = None ->
    get_channel_playlists_json api channel_id (Some optimize_number) c =
      (Ok (DPlaylists fetched), saved)) /\
   (forall e, playlists_end (api channel_id) = Some e ->
      (e = HTTPError \/ e = KeyError) /\
      get_channel_playlists_json api channel_id (Some optimize_number) c =
        (Raise e, if playlists_page_read (api channel_id) then saved else c))).
Proof.
  intros Hn. split.
  - intros items Hitems Hd. unfold get_channel_playlists_json.
    rewrite bind_unfold, (load_json_Some _ _ _ Hitems Hd).
    destruct Hn as [-> | ->]; reflexivity.
  - intros Hmiss fetched saved.
    assert (Hget : forall other,
              get_channel_playlists_json api channel_id other c =
                match playlists_end (api channel_id) with
                | None => (Ok (DPlaylists fetched), saved)
                | Some e =>
                    (Raise e,
                     if playlists_page_read (api channel_id) then saved else c)
                end).
    { intros other. unfold get_channel_playlists_json.
      rewrite bind_unfold, (load_json_None _ _ Hmiss), bind_unfold.
      rewrite fetch_playlists_spec. simpl.
      destruct (playlists_end (api channel_id)); reflexivity. }
    split; [|split].
    + intros other. now rewrite !Hget.
    + intros Hend. now rewrite Hget, Hend.
    + intros e Hend. split; [eapply playlists_end_exn; eauto|].
      now rewrite Hget, Hend.
Qed.

Lemma get_channel_playlists_json_invalid_witness :
  get_channel_playlists_json (fun _ => LastPage []) "UCx" (Some 1) example_cache =
    (Raise (ValueError "optimize_number must be 0 or >= 3"), example_cache).
Proof.
  apply (proj1 (get_channel_playlists_json_invalid (fun _ => LastPage []) "UCx" 1
                  example_cache (or_introl eq_refl))
           (DPlaylists example_items)).
  - reflexivity.
  - discriminate.
Defined.

(** C3 as stated fails: on an empty cache the call with [optimize_number] 1
    returns the list the platform answers. *)
Lemma get_channel_playlists_json_invalid_counterexample :
  (get_channel_playlists_json (fun _ => LastPage []) "UCx" (Some 1) ∅).1 =
    Ok (DPlaylists []) /\
  forall msg,
    (get_channel_playlists_json (fun _ => LastPage []) "UCx" (Some 1) ∅).1 <>
      Raise (ValueError msg).
Proof. split; [reflexivity|discriminate]. Qed.

End CacheFacts.

(** ** [merge_playlists] *)

Section MergeFacts.
Import Youtube.

Lemma playlist_videos_key_not_channel playlist_id channel_id :
  playlist_videos_key playlist_id <> channel_playlists_key channel_id.
Proof. discriminate. Qed.

Lemma playlist_key_not_channel playlist_id channel_id :
  playlist_key playlist_id <> channel_playlists_key channel_id.
Proof. discriminate. Qed.

Lemma append_not_self (s : string) : s <> s +:+ "_playlists".
Proof.
  induction s as [|a s IH]; simpl; [discriminate|].
  intros H. injection H as H. contradiction.
Qed.

Lemma channel_key_not_playlists channel_id :
  channel_key channel_id <> channel_playlists_key channel_id.
Proof.
  unfold channel_key, channel_playlists_key. simpl. intros H.
  repeat injection H as H. now apply append_not_self in H.
Qed.

Lemma os_remove_inv key (c c' : cache) :
  os_remove key c = (Ok tt, c') -> c' = delete key c.
Proof. unfold os_remove. destruct (c !! key); congruence. Qed.

Lemma as_videos_inv o (c c' : cache) videos :
  as_videos o c = (Ok videos, c') -> o = Some (DVideos videos) /\ c' = c.
Proof.
  unfold as_videos. destruct o as [[]|]; simpl; intros H; inversion H; auto.
Qed.

(** One merged playlist: the accumulator grows by its videos and the cache
    only loses files, off the channel's playlist list. *)
Lemma merge_one_inv channel_id item videos items_merged (c0 c c' : cache) acc :
  shrunk_from channel_id c0 c ->
  merge_one channel_id item videos items_merged c = (Ok acc, c') ->
  acc = items_merged ++ videos /\ shrunk_from channel_id c0 c'.
Proof.
  intros Hc H. unfold merge_one in H.
  apply bind_inv in H as ([] & c1 & H1 & H). apply os_remove_inv in H1 as ->.
  apply bind_inv in H as ([] & c2 & H2 & H). apply os_remove_inv in H2 as ->.
  apply bind_inv in H as (o & c3 & H3 & H). apply load_json_inv in H3 as [-> _].
  apply bind_inv in H as (l & c4 & H4 & H).
  assert (c4 = delete (playlist_key (ref_id item))
                 (delete (playlist_videos_key (ref_id item)) c)) as ->.
  { unfold remove_item in H4.
    destruct o as [[l0| | | |]|]; try discriminate.
    destruct (list_remove item l0); [|discriminate]. now inversion H4. }
  apply bind_inv in H as ([] & c5 & H5 & H). injection H5 as <-.
  injection H as <- <-. split; [reflexivity|].
  intros key d Hkey Hd. rewrite lookup_insert_ne in Hd by auto.
  apply lookup_delete_Some in Hd as [_ Hd].
  apply lookup_delete_Some in Hd as [_ Hd]. now apply Hc.
Qed.

Lemma list_ascii_of_string_app (a b : string) :
  list_ascii_of_string (a +:+ b) = list_ascii_of_string a ++ list_ascii_of_string b.
Proof. induction a as [|c a IH]; simpl; [reflexivity|now rewrite IH]. Qed.

Lemma string_length_list s : String.length s = length (list_ascii_of_string s).
Proof. induction s as [|c s IH]; simpl; congruence. Qed.

Lemma videos_key_not_custom playlist_id :
  playlist_videos_key playlist_id <> "playlist_custom".
Proof.
  unfold playlist_videos_key. intros E.
  apply (f_equal String.length) in E. rewrite !string_length_list in E.
  rewrite !list_ascii_of_string_app, !length_app in E. simpl in E. lia.
Qed.

Lemma videos_key_custom playlist_id :
  playlist_videos_key playlist_id = "playlist_custom_videos" ->
  playlist_id = "custom".
Proof.
  unfold playlist_videos_key. intros E.
  change ("playlist_" +:+ playlist_id +:+ "_videos")
    with (String "p" (String "l" (String "a" (String "y" (String "l"
           (String "i" (String "s" (String "t" (String "_"
              (playlist_id +:+ "_videos")))))))))) in E.
  repeat injection E as E.
  apply (f_equal list_ascii_of_string) in E.
  rewrite list_ascii_of_string_app in E.
  change (list_ascii_of_string "custom_videos")
    with (list_ascii_of_string "custom" ++ list_ascii_of_string "_videos") in E.
  apply app_inv_tail in E.
  rewrite <- (string_of_list_ascii_of_string playlist_id), E. reflexivity.
Qed.

Lemma playlist_key_custom playlist_id :
  playlist_key playlist_id = "playlist_custom" -> playlist_id = "custom".
Proof.
  unfold playlist_key. intros E.
  change ("playlist_" +:+ playlist_id)
    with (String "p" (String "l" (String "a" (String "y" (String "l"
           (String "i" (String "s" (String "t" (String "_" playlist_id)))))))))
    in E.
  now repeat injection E as E.
Qed.

Lemma playlist_key_custom_videos playlist_id :
  playlist_key playlist_id = "playlist_custom_videos" ->
  playlist_id = "custom_videos".
Proof.
  unfold playlist_key. intros E.
  change ("playlist_" +:+ playlist_id)
    with (String "p" (String "l" (String "a" (String "y" (String "l"
           (String "i" (String "s" (String "t" (String "_" playlist_id)))))))))
    in E.
  now repeat injection E as E.
Qed.

Lemma merge_one_cache channel_id item videos items_merged (c c' : cache) acc :
  merge_one channel_id item videos items_merged c = (Ok acc, c') ->
  acc = items_merged ++ videos /\
  exists l, c' = <[channel_playlists_key channel_id := DPlaylists l]>
                   (delete (playlist_key (ref_id item))
                      (delete (playlist_videos_key (ref_id item)) c)).
Proof.
  intros H. unfold merge_one in H.
  apply bind_inv in H as ([] & c1 & H1 & H). apply os_remove_inv in H1 as ->.
  apply bind_inv in H as ([] & c2 & H2 & H). apply os_remove_inv in H2 as ->.
  apply bind_inv in H as (o & c3 & H3 & H). apply load_json_inv in H3 as [-> _].
  apply bind_inv in H as (l & c4 & H4 & H).
  assert (c4 = delete (playlist_key (ref_id item))
                 (delete (playlist_videos_key (ref_id item)) c)) as ->.
  { unfold remove_item in H4.
    destruct o as [[l0| | | |]|]; try discriminate.
    destruct (list_remove item l0); [|discriminate]. now inversion H4. }
  apply bind_inv in H as ([] & c5 & H5 & H). injection H5 as <-.
  injection H as <- <-. split; [reflexivity|]. now exists l.
Qed.

Lemma shrunk_from_None channel_id (c0 c : cache) key :
  shrunk_from channel_id c0 c -> key <> channel_playlists_key channel_id ->
  c0 !! key = None -> c !! key = None.
Proof.
  intros Hs Hkey H0. destruct (c !! key) as [d|] eqn:E; [|reflexivity].
  apply Hs in E; [congruence|assumption].
Qed.

(** The loop over the channel list, for a threshold of at least 3: when it
    returns, it has accumulated the qualifying playlists of the initial
    cache, in order. *)
Lemma merge_loop_spec channel_id optimize_number (c0 : cache) :
  3 <= optimize_number ->
  forall items items_merged (c c' : cache) acc,
    shrunk_from channel_id c0 c ->
    merge_loop channel_id optimize_number items items_merged c = (Ok acc, c') ->
    acc = items_merged ++
          concat (map (fun item => qualifying c0 optimize_number (ref_id item)) items)
    /\ shrunk_from channel_id c0 c'.
Proof.
  intros Hn. apply Z.leb_le in Hn.
  induction items as [|item rest IH]; intros items_merged c c' acc Hc H; simpl in H.
  - injection H as <- <-. simpl. now rewrite app_nil_r.
  - apply bind_inv in H as (o & c1 & H1 & H).
    apply load_json_inv in H1 as [-> Ho].
    apply bind_inv in H as (acc1 & c2 & H2 & H). rewrite Hn in H2.
    apply bind_inv in H2 as (videos & c3 & H3 & H2).
    apply as_videos_inv in H3 as [-> ->].
    assert (E0 : c0 !! playlist_videos_key (ref_id item) = Some (DVideos videos)).
    { apply Hc; [apply playlist_videos_key_not_channel|]. now apply Ho. }
    assert (Hstep : acc1 = items_merged ++ qualifying c0 optimize_number (ref_id item)
                    /\ shrunk_from channel_id c0 c2).
    { unfold qualifying. rewrite E0.
      destruct (Z.of_nat (length videos) <? optimize_number).
      - eapply merge_one_inv; eauto.
      - injection H2 as <- <-. now rewrite app_nil_r. }
    destruct Hstep as [-> Hc2].
    destruct (IH _ _ _ _ Hc2 H) as [-> Hc']. split; [|assumption].
    simpl. now rewrite app_assoc.
Qed.

(** The de-duplication loop. *)
Lemma dedup_loop_app l : forall seen unique,
  dedup_loop l seen unique = unique ++ dedup_loop l seen [].
Proof.
  induction l as [|x l IH]; intros seen unique; simpl.
  - now rewrite app_nil_r.
  - case_bool_decide; [apply IH|].
    rewrite (IH _ (unique ++ [x])), (IH _ [x]). now rewrite <- app_assoc.
Qed.

Lemma dedup_loop_cons x l seen :
  dedup_loop (x :: l) seen [] =
    if bool_decide (item_videoId x ∈ seen) then dedup_loop l seen []
    else x :: dedup_loop l (seen ++ [item_videoId x]) [].
Proof. simpl. case_bool_decide; [reflexivity|]. apply (dedup_loop_app l _ [x]). Qed.

Lemma first_with_id_cons x l item :
  first_with_id (x :: l) item <->
  item = x \/ (item_videoId x <> item_videoId item /\ first_with_id l item).
Proof.
  split.
  - intros ([|i] & Hi & Hfirst); simpl in Hi.
    + left. congruence.
    + right. split.
      * apply (Hfirst 0%nat x); [lia|reflexivity].
      * exists i. split; [assumption|]. intros j other Hj Hother.
        apply (Hfirst (S j) other); [lia|assumption].
  - intros [->|(Hx & i & Hi & Hfirst)].
    + exists 0%nat. split; [reflexivity|]. intros j other Hj. lia.
    + exists (S i). split; [assumption|]. intros [|j] other Hj Hother.
      * simpl in Hother. congruence.
      * apply (Hfirst j other); [lia|assumption].
Qed.

Lemma dedup_loop_elem l : forall seen item,
  item ∈ dedup_loop l seen [] <->
  (item_videoId item ∉ seen) /\ first_with_id l item.
Proof.
  induction l as [|x l IH]; intros seen item.
  - simpl. split; [inversion 1|].
    intros (_ & i & Hi & _). discriminate.
  - rewrite dedup_loop_cons, first_with_id_cons. case_bool_decide as Hx.
    + rewrite IH. split.
      * intros [Hs Hf]. split; [assumption|]. right. split; [|assumption].
        intros E. rewrite E in Hx. contradiction.
      * intros [Hs [->|[_ Hf]]]; [contradiction|auto].
    + rewrite elem_of_cons, IH, not_elem_of_app, list_elem_of_singleton. split.
      * intros [->|[[Hs Hne] Hf]]; [auto|]. split; [assumption|]. right. auto.
      * intros [Hs [->|[Hne Hf]]]; [auto|]. right. auto.
Qed.

Lemma dedup_loop_NoDup l : forall seen,
  NoDup (map item_videoId (dedup_loop l seen [])).
Proof.
  induction l as [|x l IH]; intros seen.
  - constructor.
  - rewrite dedup_loop_cons. case_bool_decide; [apply IH|].
    simpl. constructor; [|apply IH].
    intros Hin. apply list_elem_of_fmap in Hin as (y & Ey & Hy).
    apply dedup_loop_elem in Hy as [Hy _]. apply Hy.
    rewrite <- Ey. apply elem_of_app. right. apply list_elem_of_singleton.
    reflexivity.
Qed.

Lemma dedup_loop_sublist l : forall seen, dedup_loop l seen [] `sublist_of` l.
Proof.
  induction l as [|x l IH]; intros seen.
  - constructor.
  - rewrite dedup_loop_cons. case_bool_decide.
    + apply sublist_cons, IH.
    + apply sublist_skip, IH.
Qed.

Lemma dedup_loop_covers l : forall seen item,
  item ∈ l ->
  item_videoId item ∈ seen \/
  item_videoId item ∈ map item_videoId (dedup_loop l seen []).
Proof.
  induction l as [|x l IH]; intros seen item Hin; [inversion Hin|].
  rewrite dedup_loop_cons. apply elem_of_cons in Hin as [->|Hin].
  - case_bool_decide; [now left|]. right. simpl. apply elem_of_cons. now left.
  - case_bool_decide; [now apply IH|].
    destruct (IH (seen ++ [item_videoId x]) item Hin) as [Hs|Hd].
    + apply elem_of_app in Hs as [Hs|Hs]; [now left|].
      apply list_elem_of_singleton in Hs. right. simpl. rewrite Hs.
      apply elem_of_cons. now left.
    + right. simpl. apply elem_of_cons. now right.
Qed.

Lemma renumber_lookup l i item :
  renumber l !! i = Some item ->
  exists original, l !! i = Some original /\ item = set_position i original.
Proof.
  unfold renumber. rewrite list_lookup_imap.
  destruct (l !! i) as [original|]; simpl; [|discriminate].
  intros H. exists original. split; congruence.
Qed.

Lemma shrunk_from_refl channel_id (c : cache) : shrunk_from channel_id c c.
Proof. intros key d _ H. exact H. Qed.

(** What the loop does to the files, for a threshold of at least 3: the
    two files of each merged playlist are gone, and every other file, off
    the channel's playlist list, is as it was. *)
Lemma merge_loop_cache channel_id optimize_number (c0 : cache) :
  3 <= optimize_number ->
  forall items items_merged (c c' : cache) acc,
    shrunk_from channel_id c0 c ->
    merge_loop channel_id optimize_number items items_merged c = (Ok acc, c') ->
    (forall item key,
       item ∈ items -> is_merged c0 optimize_number (ref_id item) = true ->
       key = playlist_videos_key (ref_id item) \/
       key = playlist_key (ref_id item) ->
       c' !! key = None) /\
    (forall key,
       key <> channel_playlists_key channel_id ->
       (forall item,
          item ∈ items -> is_merged c0 optimize_number (ref_id item) = true ->
          key <> playlist_videos_key (ref_id item) /\
          key <> playlist_key (ref_id item)) ->
       c' !! key = c !! key).
Proof.
  intros Hn. pose proof Hn as Hn'. apply Z.leb_le in Hn'.
  induction items as [|item rest IH]; intros items_merged c c' acc Hc H.
  - simpl in H. injection H as <- <-. split; [|reflexivity].
    intros item key Hin. inversion Hin.
  - simpl in H. apply bind_inv in H as (o & c1 & H1 & H).
    apply load_json_inv in H1 as [-> Ho].
    apply bind_inv in H as (acc1 & c2 & H2 & H). rewrite Hn' in H2.
    apply bind_inv in H2 as (videos & c3 & H3 & H2).
    apply as_videos_inv in H3 as [-> ->].
    assert (E0 : c0 !! playlist_videos_key (ref_id item) = Some (DVideos videos)).
    { apply Hc; [apply playlist_videos_key_not_channel|]. now apply Ho. }
    assert (Em : is_merged c0 optimize_number (ref_id item)
                 = (Z.of_nat (length videos) <? optimize_number)).
    { unfold is_merged. now rewrite E0. }
    destruct (Z.of_nat (length videos) <? optimize_number) eqn:Elt.
    + pose proof (merge_one_inv _ _ _ _ _ _ _ _ Hc H2) as [_ Hc2].
      apply merge_one_cache in H2 as [_ [l ->]].
      destruct (IH _ _ _ _ Hc2 H) as [Hgone Hkept].
      destruct (merge_loop_spec channel_id optimize_number _ Hn _ _ _ _ _
                  (shrunk_from_refl channel_id _) H) as [_ Hshrunk].
      split.
      * intros item' key Hin Hm Hkey.
        apply elem_of_cons in Hin as [->|Hin]; [|eauto].
        apply (shrunk_from_None channel_id _ _ _ Hshrunk).
        -- destruct Hkey as [-> | ->];
             [apply playlist_videos_key_not_channel|apply playlist_key_not_channel].
        -- rewrite lookup_insert_ne
             by (destruct Hkey as [-> | ->]; apply not_eq_sym;
                 [apply playlist_videos_key_not_channel
                 |apply playlist_key_not_channel]).
           apply lookup_delete_None. destruct Hkey as [-> | ->]; [right|now left].
           apply lookup_delete_None. now left.
      * intros key Hkey Hfiles.
        rewrite Hkept; [|assumption|].
        -- destruct (Hfiles item) as [Hv Hk];
             [apply elem_of_cons; now left|now rewrite Em|].
           rewrite lookup_insert_ne by auto.
           now rewrite !lookup_delete_ne by auto.
        -- intros item' Hin. apply Hfiles. apply elem_of_cons. now right.
    + injection H2 as <- <-.
      destruct (IH _ _ _ _ Hc H) as [Hgone Hkept]. split.
      * intros item' key Hin Hm Hkey.
        apply elem_of_cons in Hin as [->|Hin]; [congruence|eauto].
      * intros key Hkey Hfiles. apply Hkept; [assumption|].
        intros item' Hin. apply Hfiles. apply elem_of_cons. now right.
Qed.

(** What the merge does to the files. *)
Lemma merge_playlists_cache channel_id items optimize_number (c c' : cache) r :
  3 <= optimize_number ->
  merge_playlists channel_id (DPlaylists items) optimize_number c = (Ok r, c') ->
  exists channel,
    c !! channel_key channel_id = Some (DChannel channel) /\
    (forall playlist_id key,
       playlist_id ∈ map ref_id items ++ [ch_uploads channel] ->
       is_merged c optimize_number playlist_id = true ->
       key = playlist_videos_key playlist_id \/ key = playlist_key playlist_id ->
       key <> "playlist_custom" -> key <> "playlist_custom_videos" ->
       c' !! key = None) /\
    (forall key,
       key <> channel_playlists_key channel_id ->
       key <> "playlist_custom" -> key <> "playlist_custom_videos" ->
       (forall playlist_id,
          playlist_id ∈ map ref_id items ++ [ch_uploads channel] ->
          is_merged c optimize_number playlist_id = true ->
          key <> playlist_videos_key playlist_id /\
          key <> playlist_key playlist_id) ->
       c' !! key = c !! key).
Proof.
  intros Hn H. unfold merge_playlists in H.
  apply bind_inv in H as (items' & c1 & H1 & H). injection H1 as <- <-.
  apply bind_inv in H as (acc & c1 & Hloop & H).
  destruct (merge_loop_spec channel_id optimize_number c Hn _ _ _ _ _
              (shrunk_from_refl channel_id c) Hloop) as [_ Hc1].
  destruct (merge_loop_cache channel_id optimize_number c Hn _ _ _ _ _
              (shrunk_from_refl channel_id c) Hloop) as [Hgone Hkept].
  apply bind_inv in H as (o & c2 & Hload & H).
  apply load_json_inv in Hload as [-> Ho].
  apply bind_inv in H as (channel & c2 & Hch & H).
  assert (o = Some (DChannel channel) /\ c2 = c1) as [-> ->].
  { unfold as_channel in Hch. destruct o as [[]|]; inversion Hch; auto. }
  apply bind_inv in H as (o & c2 & Hload & H).
  apply load_json_inv in Hload as [-> Hup].
  apply bind_inv in H as (acc2 & c2 & Hupl & H).
  apply bind_inv in Hupl as (q & c3 & Hq & Hupl).
  destruct (Z.eqb_spec optimize_number 0) as [|_]; [lia|].
  pose proof Hn as Hn'. apply Z.leb_le in Hn'. rewrite Hn' in Hq.
  apply bind_inv in Hq as (uploads & c4 & Hq1 & Hq).
  apply as_videos_inv in Hq1 as [-> ->]. injection Hq as <- <-.
  assert (E0 : c !! playlist_videos_key (ch_uploads channel)
               = Some (DVideos uploads)).
  { apply Hc1; [apply playlist_videos_key_not_channel|]. now apply Hup. }
  assert (Em : is_merged c optimize_number (ch_uploads channel)
               = (Z.of_nat (length uploads) <? optimize_number)).
  { unfold is_merged. now rewrite E0. }
  assert (Hc2 :
    (forall key,
       key = playlist_videos_key (ch_uploads channel) \/
       key = playlist_key (ch_uploads channel) ->
       is_merged c optimize_number (ch_uploads channel) = true ->
       c2 !! key = None) /\
    (forall key, c1 !! key = None ->
       key <> channel_playlists_key channel_id -> c2 !! key = None) /\
    (forall key,
       key <> channel_playlists_key channel_id ->
       (is_merged c optimize_number (ch_uploads channel) = true ->
        key <> playlist_videos_key (ch_uploads channel) /\
        key <> playlist_key (ch_uploads channel)) ->
       c2 !! key = c1 !! key)).
  { rewrite Em. destruct (Z.of_nat (length uploads) <? optimize_number).
    - apply bind_inv in Hupl as ([] & c5 & Hr1 & Hupl).
      apply os_remove_inv in Hr1 as ->.
      apply bind_inv in Hupl as ([] & c6 & Hr2 & Hupl).
      apply os_remove_inv in Hr2 as ->.
      apply bind_inv in Hupl as (o' & c7 & Hl & Hupl).
      apply load_json_inv in Hl as [-> _].
      apply bind_inv in Hupl as (l & c8 & Hrefs & Hupl).
      assert (c8 = delete (playlist_key (ch_uploads channel))
                     (delete (playlist_videos_key (ch_uploads channel)) c1)) as ->.
      { unfold as_refs in Hrefs.
        destruct (default DCorrupt o'); inversion Hrefs; reflexivity. }
      apply bind_inv in Hupl as ([] & c9 & Hs & Hupl). injection Hs as <-.
      injection Hupl as _ <-. split; [|split].
      + intros key Hkey _.
        rewrite lookup_insert_ne
          by (destruct Hkey as [-> | ->]; apply not_eq_sym;
              [apply playlist_videos_key_not_channel
              |apply playlist_key_not_channel]).
        apply lookup_delete_None. destruct Hkey as [-> | ->]; [right|now left].
        apply lookup_delete_None. now left.
      + intros key Hnone Hkey. rewrite lookup_insert_ne by auto.
        apply lookup_delete_None. right. apply lookup_delete_None. now right.
      + intros key Hkey Hfiles. destruct (Hfiles eq_refl) as [Hv Hk].
        rewrite lookup_insert_ne by auto.
        now rewrite !lookup_delete_ne by auto.
    - injection Hupl as _ <-. split; [|split]; [discriminate|auto|auto]. }
  destruct Hc2 as (Hupgone & Hnone & Hupkept).
  apply bind_inv in H as ([] & c3 & Hs1 & H). injection Hs1 as <-.
  apply bind_inv in H as ([] & c4 & Hs2 & H). injection Hs2 as <-.
  apply bind_inv in H as ([] & c5 & Hs3 & H). injection Hs3 as <-.
  injection H as _ <-.
  exists channel. split; [|split].
  - apply Hc1; [apply channel_key_not_playlists|]. now apply Ho.
  - intros playlist_id key Hin Hm Hkey Hpc Hpcv.
    assert (Hck : key <> channel_playlists_key channel_id).
    { destruct Hkey as [-> | ->];
        [apply playlist_videos_key_not_channel|apply playlist_key_not_channel]. }
    rewrite !lookup_insert_ne by auto.
    apply elem_of_app in Hin as [Hin|Hin].
    + apply list_elem_of_fmap in Hin as (item & -> & Hin).
      apply Hnone; [|assumption]. eapply Hgone; eauto.
    + apply list_elem_of_singleton in Hin as ->. now apply Hupgone.
  - intros key Hck Hpc Hpcv Hfiles.
    rewrite !lookup_insert_ne by auto.
    rewrite Hupkept; [|assumption|].
    + apply Hkept; [assumption|]. intros item Hin Hm. apply Hfiles; [|assumption].
      apply elem_of_app. left. apply list_elem_of_fmap. now exists item.
    + intros Hm. apply Hfiles; [|assumption].
      apply elem_of_app. right. now apply list_elem_of_singleton.
Qed.

(** When two playlists share a file name. *)
Lemma playlist_key_inj a b : playlist_key a = playlist_key b -> a = b.
Proof.
  unfold playlist_key. intros E.
  apply (f_equal list_ascii_of_string) in E.
  rewrite !list_ascii_of_string_app in E. apply app_inv_head in E.
  apply (f_equal string_of_list_ascii) in E.
  now rewrite !string_of_list_ascii_of_string in E.
Qed.

Lemma playlist_videos_key_inj a b :
  playlist_videos_key a = playlist_videos_key b -> a = b.
Proof.
  unfold playlist_videos_key. intros E.
  apply (f_equal list_ascii_of_string) in E.
  rewrite !list_ascii_of_string_app in E. apply app_inv_head in E.
  apply app_inv_tail in E.
  apply (f_equal string_of_list_ascii) in E.
  now rewrite !string_of_list_ascii_of_string in E.
Qed.

Lemma videos_key_is_playlist_key a b :
  playlist_videos_key a = playlist_key b -> b = a +:+ "_videos".
Proof.
  unfold playlist_videos_key, playlist_key. intros E.
  apply (f_equal list_ascii_of_string) in E.
  rewrite !list_ascii_of_string_app in E. apply app_inv_head in E.
  rewrite <- list_ascii_of_string_app in E.
  apply (f_equal string_of_list_ascii) in E.
  now rewrite !string_of_list_ascii_of_string in E.
Qed.

(** C6: for a threshold of at least 3, when [merge_playlists] returns,
    the videos merged are exactly those of the playlists of the channel list
    that count fewer videos than the threshold (a playlist with as many
    videos as the threshold is left out), followed by those of the uploads
    playlist if it counts fewer itself; the list saved under
    [playlist_custom_videos] keeps, in order, the first item of each video
    id, and numbers the positions from zero.  As to the files: the video
    list and the detail file of each merged playlist are gone; every other
    file, but the channel's list and the two files of the synthetic
    playlist, is as it was; so a playlist that counts as many videos as the
    threshold, or more, keeps both its files, and so does the uploads
    playlist when it does not qualify (a playlist named [custom] or
    [custom_videos], or named as a merged one with [_videos] appended, or
    the reverse, would share a file with what the merge writes or
    removes). *)
Theorem merge_playlists_threshold channel_id items optimize_number
    (c c' : cache) r :
  3 <= optimize_number ->
  merge_playlists channel_id (DPlaylists items) optimize_number c = (Ok r, c') ->
  exists channel firsts,
    c !! channel_key channel_id = Some (DChannel channel) /\
    let merged :=
      merged_by_threshold c optimize_number items (ch_uploads channel) in
    c' !! "playlist_custom_videos" = Some (DVideos (renumber firsts)) /\
    firsts `sublist_of` merged /\
    NoDup (map item_videoId firsts) /\
    (forall item, item ∈ firsts <-> first_with_id merged item) /\
    (forall item, item ∈ merged ->
                  item_videoId item ∈ map item_videoId firsts) /\
    (forall i item, renumber firsts !! i = Some item ->
       exists original,
         firsts !! i = Some original /\
         item_videoId item = item_videoId original /\
         item_title item = item_title original /\
         item_position item = Z.of_nat i) /\
    (forall playlist_id key,
       playlist_id ∈ map ref_id items ++ [ch_uploads channel] ->
       is_merged c optimize_number playlist_id = true ->
       key = playlist_videos_key playlist_id \/ key = playlist_key playlist_id ->
       key <> "playlist_custom" -> key <> "playlist_custom_videos" ->
       c' !! key = None) /\
    (forall key,
       key <> channel_playlists_key channel_id ->
       key <> "playlist_custom" -> key <> "playlist_custom_videos" ->
       (forall playlist_id,
          playlist_id ∈ map ref_id items ++ [ch_uploads channel] ->
          is_merged c optimize_number playlist_id = true ->
          key <> playlist_videos_key playlist_id /\
          key <> playlist_key playlist_id) ->
       c' !! key = c !! key) /\
    (forall playlist_id,
       playlist_id ∈ map ref_id items ++ [ch_uploads channel] ->
       is_merged c optimize_number playlist_id = false ->
       playlist_id <> "custom" -> playlist_id <> "custom_videos" ->
       (forall other,
          other ∈ map ref_id items ++ [ch_uploads channel] ->
          is_merged c optimize_number other = true ->
          playlist_id <> other +:+ "_videos" /\
          other <> playlist_id +:+ "_videos") ->
       qualifying c optimize_number playlist_id = [] /\
       c' !! playlist_videos_key playlist_id
         = c !! playlist_videos_key playlist_id /\
       c' !! playlist_key playlist_id = c !! playlist_key playlist_id).
Proof.
  intros Hn H.
  destruct (merge_playlists_cache _ _ _ _ _ _ Hn H)
    as (channel0 & Hchannel0 & Hdeleted & Hframe).
  unfold merge_playlists in H.
  apply bind_inv in H as (items' & c1 & H1 & H). injection H1 as <- <-.
  apply bind_inv in H as (acc & c1 & Hloop & H).
  destruct (merge_loop_spec channel_id optimize_number c Hn _ _ _ _ _
              (shrunk_from_refl channel_id c) Hloop) as [-> Hc1].
  apply bind_inv in H as (o & c2 & Hload & H).
  apply load_json_inv in Hload as [-> Ho].
  apply bind_inv in H as (channel & c2 & Hch & H).
  assert (o = Some (DChannel channel) /\ c2 = c1) as [-> ->].
  { unfold as_channel in Hch. destruct o as [[]|]; inversion Hch; auto. }
  apply bind_inv in H as (o & c2 & Hload & H).
  apply load_json_inv in Hload as [-> Hup].
  apply bind_inv in H as (acc2 & c2 & Hupl & H).
  assert (Hacc2 : acc2 = merged_by_threshold c optimize_number items
                           (ch_uploads channel)).
  { apply bind_inv in Hupl as (q & c3 & Hq & Hupl).
    destruct (Z.eqb_spec optimize_number 0) as [|_]; [lia|].
    apply Z.leb_le in Hn. rewrite Hn in Hq.
    apply bind_inv in Hq as (uploads & c4 & Hq1 & Hq).
    apply as_videos_inv in Hq1 as [-> ->]. injection Hq as <- <-.
    assert (E0 : c !! playlist_videos_key (ch_uploads channel)
                 = Some (DVideos uploads)).
    { apply Hc1; [apply playlist_videos_key_not_channel|]. now apply Hup. }
    unfold merged_by_threshold, qualifying at 2. rewrite E0. simpl.
    destruct (Z.of_nat (length uploads) <? optimize_number).
    - apply bind_inv in Hupl as ([] & c5 & _ & Hupl).
      apply bind_inv in Hupl as ([] & c6 & _ & Hupl).
      apply bind_inv in Hupl as (o' & c7 & _ & Hupl).
      apply bind_inv in Hupl as (l & c8 & _ & Hupl).
      apply bind_inv in Hupl as ([] & c9 & _ & Hupl).
      now injection Hupl as <- _.
    - injection Hupl as <- _. now rewrite app_nil_r. }
  apply bind_inv in H as ([] & c3 & _ & H).
  apply bind_inv in H as ([] & c4 & _ & H).
  apply bind_inv in H as ([] & c5 & Hsave & H).
  injection Hsave as <-. injection H as _ <-.
  exists channel, (dedup_loop acc2 [] []). subst acc2. split.
  { apply Hc1; [apply channel_key_not_playlists|]. now apply Ho. }
  cbv zeta. split; [apply lookup_insert_eq|].
  split; [apply dedup_loop_sublist|].
  split; [apply dedup_loop_NoDup|].
  split.
  { intros item. rewrite dedup_loop_elem. split; [now intros [_ ?]|].
    intros Hf. split; [apply not_elem_of_nil|assumption]. }
  split.
  { intros item Hin. destruct (dedup_loop_covers _ [] item Hin) as [Hs|Hd];
      [inversion Hs|assumption]. }
  split.
  { intros i item Hi. apply renumber_lookup in Hi as (original & Ho' & ->).
    exists original. repeat split; auto. }
  assert (channel0 = channel) as ->.
  { assert (Hsame : c !! channel_key channel_id = Some (DChannel channel)).
    { apply Hc1; [apply channel_key_not_playlists|]. now apply Ho. }
    congruence. }
  split; [exact Hdeleted|]. split; [exact Hframe|].
  intros playlist_id Hin Hm Hcustom Hcustomv Hnames.
  assert (Hq : qualifying c optimize_number playlist_id = []).
  { unfold is_merged in Hm. unfold qualifying.
    destruct (c !! playlist_videos_key playlist_id) as [[]|]; try reflexivity.
    now rewrite Hm. }
  split; [exact Hq|].
  assert (Hother : forall key,
            key = playlist_videos_key playlist_id \/
            key = playlist_key playlist_id ->
            forall other,
              other ∈ map ref_id items ++ [ch_uploads channel] ->
              is_merged c optimize_number other = true ->
              key <> playlist_videos_key other /\ key <> playlist_key other).
  { intros key Hkey other Hin' Hm'.
    assert (Hne : playlist_id <> other) by congruence.
    destruct (Hnames other Hin' Hm') as [Hn1 Hn2].
    destruct Hkey as [-> | ->]; split; intros E.
    - now apply playlist_videos_key_inj in E.
    - now apply videos_key_is_playlist_key in E.
    - symmetry in E. now apply videos_key_is_playlist_key in E.
    - now apply playlist_key_inj in E. }
  split.
  - apply Hframe;
      [apply playlist_videos_key_not_channel
      |apply videos_key_not_custom
      |intros E; now apply videos_key_custom in E
      |apply Hother; now left].
  - apply Hframe;
      [apply playlist_key_not_channel
      |intros E; now apply playlist_key_custom in E
      |intros E; now apply playlist_key_custom_videos in E
      |apply Hother; now right].
Qed.

(** The channel of the example: of the playlists of 2, 5 and 10 videos, the
    threshold 5 merges the first only, then the uploads playlist of 3
    videos; the video the two share is kept once; the playlists of 5 and 10
    videos keep their files. *)
Lemma merge_playlists_threshold_witness :
  exists r (c' : cache),
    merge_playlists "UCx" (DPlaylists example_items) 5 example_cache = (Ok r, c') /\
    c' !! "playlist_custom_videos" = Some (DVideos example_merged) /\
    exists channel firsts,
      example_cache !! channel_key "UCx" = Some (DChannel channel) /\
      let merged := merged_by_threshold example_cache 5 example_items
                      (ch_uploads channel) in
      c' !! "playlist_custom_videos" = Some (DVideos (renumber firsts)) /\
      firsts `sublist_of` merged /\
      NoDup (map item_videoId firsts) /\
      (forall item, item ∈ firsts <-> first_with_id merged item) /\
      (forall item, item ∈ merged ->
                    item_videoId item ∈ map item_videoId firsts) /\
      (forall i item, renumber firsts !! i = Some item ->
         exists original,
           firsts !! i = Some original /\
           item_videoId item = item_videoId original /\
           item_title item = item_title original /\
           item_position item = Z.of_nat i) /\
      (forall playlist_id key,
         playlist_id ∈ map ref_id example_items ++ [ch_uploads channel] ->
         is_merged example_cache 5 playlist_id = true ->
         key = playlist_videos_key playlist_id \/
         key = playlist_key playlist_id ->
         key <> "playlist_custom" -> key <> "playlist_custom_videos" ->
         c' !! key = None) /\
      (forall key,
         key <> channel_playlists_key "UCx" ->
         key <> "playlist_custom" -> key <> "playlist_custom_videos" ->
         (forall playlist_id,
            playlist_id ∈ map ref_id example_items ++ [ch_uploads channel] ->
            is_merged example_cache 5 playlist_id = true ->
            key <> playlist_videos_key playlist_id /\
            key <> playlist_key playlist_id) ->
         c' !! key = example_cache !! key) /\
      (forall playlist_id,
         playlist_id ∈ map ref_id example_items ++ [ch_uploads channel] ->
         is_merged example_cache 5 playlist_id = false ->
         playlist_id <> "custom" -> playlist_id <> "custom_videos" ->
         (forall other,
            other ∈ map ref_id example_items ++ [ch_uploads channel] ->
            is_merged example_cache 5 other = true ->
            playlist_id <> other +:+ "_videos" /\
            other <> playlist_id +:+ "_videos") ->
         qualifying example_cache 5 playlist_id = [] /\
         c' !! playlist_videos_key playlist_id
           = example_cache !! playlist_videos_key playlist_id /\
         c' !! playlist_key playlist_id
           = example_cache !! playlist_key playlist_id).
Proof.
  exists (DPlaylist new_channel_playlists_json),
         (merge_playlists "UCx" (DPlaylists example_items) 5 example_cache).2.
  split; [vm_compute; reflexivity|].
  split; [vm_compute; reflexivity|].
  apply (merge_playlists_threshold "UCx" example_items 5 example_cache
           (merge_playlists "UCx" (DPlaylists example_items) 5 example_cache).2
           (DPlaylist new_channel_playlists_json)).
  - lia.
  - vm_compute. reflexivity.
Defined.

(** The files of the example after the merge: those of the playlist of 2
    videos and of the uploads playlist are gone, those of the playlists of 5
    and 10 videos are as they were. *)
Example merge_playlists_example_files :
  let c' := (merge_playlists "UCx" (DPlaylists example_items) 5 example_cache).2 in
  c' !! "playlist_PLtwo_videos" = None /\
  c' !! "playlist_PLtwo" = None /\
  c' !! "playlist_UUx_videos" = None /\
  c' !! "playlist_UUx" = None /\
  c' !! "playlist_PLfive_videos" = example_cache !! "playlist_PLfive_videos" /\
  c' !! "playlist_PLfive" = Some (example_playlist "PLfive") /\
  c' !! "playlist_PLten_videos" = example_cache !! "playlist_PLten_videos" /\
  c' !! "playlist_PLten" = Some (example_playlist "PLten") /\
  is_merged example_cache 5 "PLfive" = false.
Proof. repeat split; vm_compute; reflexivity. Qed.

(** *** On a well-formed cache the merge returns *)

Lemma os_remove_ok key (c : cache) :
  is_Some (c !! key) -> os_remove key c = (Ok tt, delete key c).
Proof. intros [d Hd]. unfold os_remove. now rewrite Hd. Qed.

Lemma list_remove_elem item l :
  item ∈ l ->
  exists l', list_remove item l = Some l' /\
             forall other, other ∈ l -> other <> item -> other ∈ l'.
Proof.
  induction l as [|y l IH]; intros Hin; [inversion Hin|]. simpl.
  destruct (decide (y = item)) as [->|Hne].
  - exists l. split; [reflexivity|]. intros other Ho Hne.
    apply elem_of_cons in Ho as [->|Ho]; [contradiction|assumption].
  - apply elem_of_cons in Hin as [->|Hin]; [contradiction|].
    destruct (IH Hin) as (l' & -> & Hl'). exists (y :: l'). split; [reflexivity|].
    intros other Ho Hoi. apply elem_of_cons in Ho as [->|Ho].
    + apply elem_of_cons. now left.
    + apply elem_of_cons. right. auto.
Qed.

Lemma well_cached_tail channel_id upload_id item rest (c : cache) l' :
  well_cached channel_id upload_id (item :: rest) c ->
  (forall other, other ∈ rest -> other ∈ l') ->
  well_cached channel_id upload_id rest
    (<[channel_playlists_key channel_id := DPlaylists l']>
       (delete (playlist_key (ref_id item))
          (delete (playlist_videos_key (ref_id item)) c))).
Proof.
  intros (_ & Hnd & Hitems & Hup & Hupk) Hl'.
  unfold playlist_files in Hnd. simpl in Hnd.
  apply NoDup_cons in Hnd as [Hv Hnd]. apply NoDup_cons in Hnd as [Hk Hnd].
  assert (Hkeep : forall key,
            key ∈ playlist_files rest upload_id ->
            (<[channel_playlists_key channel_id := DPlaylists l']>
               (delete (playlist_key (ref_id item))
                  (delete (playlist_videos_key (ref_id item)) c))) !! key
            = c !! key).
  { intros key Hkey.
    assert (key <> playlist_videos_key (ref_id item)).
    { intros ->. apply Hv. apply elem_of_cons. now right. }
    assert (key <> playlist_key (ref_id item)) by (intros ->; contradiction).
    assert (key <> channel_playlists_key channel_id).
    { unfold playlist_files in Hkey. apply elem_of_app in Hkey as [Hkey|Hkey].
      - apply list_elem_of_In, in_flat_map in Hkey as (x & _ & [<-|[<-|[]]]);
          discriminate.
      - apply elem_of_cons in Hkey as [->|Hkey]; [discriminate|].
        apply list_elem_of_singleton in Hkey as ->. discriminate. }
    rewrite lookup_insert_ne by auto. now rewrite !lookup_delete_ne by auto. }
  assert (Hin : forall other, other ∈ rest ->
            playlist_videos_key (ref_id other) ∈ playlist_files rest upload_id /\
            playlist_key (ref_id other) ∈ playlist_files rest upload_id).
  { intros other Ho. unfold playlist_files.
    split; apply elem_of_app; left; apply list_elem_of_In, in_flat_map;
      exists other; (split; [now apply list_elem_of_In|simpl; auto]). }
  assert (Hupin : playlist_videos_key upload_id ∈ playlist_files rest upload_id /\
                  playlist_key upload_id ∈ playlist_files rest upload_id).
  { unfold playlist_files. split; apply elem_of_app; right.
    - apply elem_of_cons. now left.
    - apply elem_of_cons. right. now apply list_elem_of_singleton. }
  repeat split.
  - exists l'. split; [apply lookup_insert_eq|assumption].
  - exact Hnd.
  - rewrite (Hkeep _ (proj1 (Hin _ H))). apply Hitems.
    apply elem_of_cons. now right.
  - rewrite (Hkeep _ (proj2 (Hin _ H))). apply Hitems.
    apply elem_of_cons. now right.
  - now rewrite (Hkeep _ (proj1 Hupin)).
  - now rewrite (Hkeep _ (proj2 Hupin)).
Qed.

Lemma merge_one_returns channel_id upload_id item rest videos items_merged
    (c : cache) :
  well_cached channel_id upload_id (item :: rest) c ->
  exists c',
    merge_one channel_id item videos items_merged c =
      (Ok (items_merged ++ videos), c') /\
    well_cached channel_id upload_id rest c' /\
    c' !! channel_key channel_id = c !! channel_key channel_id.
Proof.
  intros Hwc. pose proof Hwc as ((l & Hl & Hall) & Hnd & Hitems & _).
  destruct (Hitems item ltac:(apply elem_of_cons; now left)) as [[vs Hvs] Hk].
  assert (Hne : playlist_key (ref_id item) <> playlist_videos_key (ref_id item)).
  { unfold playlist_files in Hnd. simpl in Hnd.
    apply NoDup_cons in Hnd as [Hv _]. intros E. apply Hv. rewrite E.
    apply elem_of_cons. now left. }
  destruct (list_remove_elem item l ltac:(apply Hall, elem_of_cons; now left))
    as (l' & Hl' & Hrest).
  eexists. split; [|split].
  - unfold merge_one.
    rewrite bind_unfold, os_remove_ok by (rewrite Hvs; eauto).
    rewrite bind_unfold, os_remove_ok
      by (rewrite lookup_delete_ne by auto; exact Hk).
    rewrite bind_unfold, (load_json_Some _ _ (DPlaylists l)); [|
      rewrite !lookup_delete_ne by discriminate; exact Hl | discriminate].
    rewrite bind_unfold. unfold remove_item. rewrite Hl'. reflexivity.
  - apply well_cached_tail; [exact Hwc|].
    intros other Ho. apply Hrest; [apply Hall, elem_of_cons; now right|].
    intros ->. unfold playlist_files in Hnd. simpl in Hnd.
    apply NoDup_cons in Hnd as [Hv _]. apply Hv. apply elem_of_cons. right.
    apply elem_of_app. left. apply list_elem_of_In, in_flat_map. exists item.
    split; [now apply list_elem_of_In|simpl; auto].
  - rewrite lookup_insert_ne by (apply not_eq_sym, channel_key_not_playlists).
    rewrite !lookup_delete_ne by discriminate. reflexivity.
Qed.

Lemma merge_loop_returns channel_id upload_id optimize_number :
  3 <= optimize_number ->
  forall items items_merged (c : cache),
    well_cached channel_id upload_id items c ->
    exists acc c',
      merge_loop channel_id optimize_number items items_merged c = (Ok acc, c') /\
      well_cached channel_id upload_id [] c' /\
      c' !! channel_key channel_id = c !! channel_key channel_id.
Proof.
  intros Hn. apply Z.leb_le in Hn.
  induction items as [|item rest IH]; intros items_merged c Hwc; simpl.
  - exists items_merged, c. auto.
  - pose proof Hwc as (_ & _ & Hitems & _).
    destruct (Hitems item ltac:(apply elem_of_cons; now left)) as [[vs Hvs] _].
    rewrite bind_unfold, (load_json_Some _ _ _ Hvs) by discriminate.
    rewrite Hn, bind_unfold. simpl as_videos. rewrite ret_bind.
    destruct (Z.of_nat (length vs) <? optimize_number).
    + destruct (merge_one_returns channel_id upload_id item rest vs items_merged
                  c Hwc) as (c1 & -> & Hwc1 & Hch1).
      destruct (IH (items_merged ++ vs) c1 Hwc1) as (acc & c' & -> & Hwc' & Hch').
      exists acc, c'. split; [reflexivity|]. split; [exact Hwc'|congruence].
    + simpl. apply IH.
      destruct Hwc as ((l & Hl & Hall) & Hnd & Hitems' & Hup).
      repeat split.
      * exists l. split; [assumption|]. intros other Ho. apply Hall.
        apply elem_of_cons. now right.
      * unfold playlist_files in *. simpl in Hnd.
        apply NoDup_cons in Hnd as [_ Hnd]. now apply NoDup_cons in Hnd as [_ Hnd].
      * apply Hitems'. apply elem_of_cons. now right.
      * apply Hitems'. apply elem_of_cons. now right.
      * apply Hup.
      * apply Hup.
Qed.

(** For a threshold of at least 3, the merge returns on every well-formed
    cache that holds the channel. *)
Lemma merge_playlists_returns channel_id items optimize_number (c : cache)
    channel :
  3 <= optimize_number ->
  c !! channel_key channel_id = Some (DChannel channel) ->
  well_cached channel_id (ch_uploads channel) items c ->
  exists c', merge_playlists channel_id (DPlaylists items) optimize_number c =
               (Ok (DPlaylist new_channel_playlists_json), c').
Proof.
  intros Hn Hch Hwc. unfold merge_playlists.
  rewrite bind_unfold. simpl.
  destruct (merge_loop_returns channel_id (ch_uploads channel) optimize_number
              Hn items [] c Hwc) as (acc & c1 & Hloop & Hwc1 & Hch1).
  rewrite bind_unfold, Hloop. rewrite Hch in Hch1.
  rewrite bind_unfold, (load_json_Some _ _ _ Hch1) by discriminate.
  rewrite bind_unfold. simpl.
  destruct Hwc1 as ((l & Hl & _) & Hnd & _ & [uploads Hup] & Hupk).
  rewrite bind_unfold, (load_json_Some _ _ _ Hup) by discriminate.
  destruct (Z.eqb_spec optimize_number 0) as [|_]; [lia|].
  apply Z.leb_le in Hn. rewrite Hn.
  rewrite !bind_unfold. simpl.
  destruct (Z.of_nat (length uploads) <? optimize_number).
  - assert (Hne : playlist_key (ch_uploads channel)
                  <> playlist_videos_key (ch_uploads channel)).
    { unfold playlist_files in Hnd. simpl in Hnd.
      apply NoDup_cons in Hnd as [Hv _]. intros E. apply Hv. rewrite E.
      now apply list_elem_of_singleton. }
    rewrite bind_unfold, os_remove_ok by (rewrite Hup; eauto).
    rewrite bind_unfold, os_remove_ok
      by (rewrite lookup_delete_ne by auto; exact Hupk).
    rewrite bind_unfold, (load_json_Some _ _ (DPlaylists l)); [|
      rewrite !lookup_delete_ne by discriminate; exact Hl | discriminate].
    simpl. now eexists.
  - simpl. now eexists.
Qed.

(** The cache of the example is well formed. *)
Example example_cache_well_cached :
  well_cached "UCx" "UUx" example_items example_cache.
Proof.
  repeat split.
  - exists example_items. split; [reflexivity|auto].
  - apply (bool_decide_unpack _). vm_compute. exact I.
  - apply list_elem_of_In in H. simpl in H.
    destruct H as [<-|[<-|[<-|[]]]]; eexists; reflexivity.
  - apply list_elem_of_In in H. simpl in H.
    destruct H as [<-|[<-|[<-|[]]]]; eexists; reflexivity.
  - eexists. reflexivity.
  - eexists. reflexivity.
Qed.

End MergeFacts.

(** ** More of [utils.py]: file types, and what the patterns let through *)

Section FileTypeFacts.
Import Re Utils.

Lemma startswith_list_spec prefix s :
  startswith_list prefix s = true <-> exists t, s = prefix ++ t.
Proof.
  revert s. induction prefix as [|a prefix IH]; intros s; simpl.
  - split; eauto.
  - destruct s as [|b s].
    + split; [discriminate|]. intros [t Ht]. discriminate.
    + rewrite andb_true_iff, IH. split.
      * intros [Hab [t ->]]. apply Ascii.eqb_eq in Hab as ->. eauto.
      * intros [t Ht]. injection Ht as -> ->. rewrite Ascii.eqb_refl. eauto.
Qed.

Lemma endswith_spec s suffix :
  endswith s suffix = true <-> exists p, s = p +:+ suffix.
Proof.
  unfold endswith. rewrite startswith_list_spec. split.
  - intros [t Ht]. exists (string_of_list_ascii (rev t)).
    apply (f_equal (@rev ascii)) in Ht.
    rewrite rev_involutive, rev_app_distr, rev_involutive in Ht.
    rewrite <- (string_of_list_ascii_of_string s), Ht.
    rewrite <- (string_of_list_ascii_of_string (_ +:+ suffix)).
    now rewrite list_ascii_of_string_app, list_ascii_of_string_of_list_ascii.
  - intros [p ->]. exists (rev (list_ascii_of_string p)).
    now rewrite list_ascii_of_string_app, rev_app_distr.
Qed.

Lemma endswith_csv_not_txt file :
  endswith file ".csv" = true -> endswith file ".txt" = false.
Proof.
  intros H. destruct (endswith file ".txt") eqn:E; [|reflexivity].
  unfold endswith in H, E.
  apply startswith_list_spec in H as [t Ht], E as [t' Ht'].
  rewrite Ht in Ht'. simpl in Ht'. discriminate.
Qed.

(** X1: [check_file_type] goes by the end of the name alone: it answers
    ["csv"] exactly for the names that end in [.csv], ["txt"] exactly for
    those that end in [.txt], and [None] for every other name. *)
Theorem check_file_type_suffix file :
  (check_file_type file = Some "csv" <-> exists p, file = p +:+ ".csv") /\
  (check_file_type file = Some "txt" <-> exists p, file = p +:+ ".txt") /\
  (check_file_type file = None <->
   ~ (exists p, file = p +:+ ".csv") /\ ~ (exists p, file = p +:+ ".txt")).
Proof.
  rewrite <- !endswith_spec. unfold check_file_type.
  destruct (endswith file ".csv") eqn:Ecsv.
  - rewrite (endswith_csv_not_txt _ Ecsv).
    repeat split; try discriminate; try reflexivity; intros []; congruence.
  - destruct (endswith file ".txt") eqn:Etxt;
      repeat split; try discriminate; try reflexivity; try congruence;
      intros []; congruence.
Qed.

End FileTypeFacts.

Section IdentifierFacts.
Import Re Utils Downloader.

Lemma alnum_id_char c : alnum_char c = true -> id_char c = true.
Proof.
  unfold id_char, alnum_char.
  destruct (in_range "a" "z" c), (in_range "A" "Z" c), (in_range "0" "9" c);
    simpl; try discriminate; intros _; now rewrite ?orb_true_r.
Qed.

(** A string one of the three patterns matches is made of the characters of
    [[-_a-zA-Z0-9]]. *)
Lemma matches_id_chars r s :
  r = PLAYLIST_RE \/ r = CHANNEL_RE \/ r = USER_RE ->
  matches r s -> Forall (fun c => id_char c = true) s.
Proof.
  intros [->|[->| ->]] H.
  - apply playlist_re_spec in H as (body & -> & _ & Hb).
    repeat constructor; assumption.
  - apply channel_re_spec in H as (body & -> & _ & Hb).
    repeat constructor; assumption.
  - apply user_re_spec in H as [_ Hs].
    eapply Forall_impl; [exact Hs|]. apply alnum_id_char.
Qed.

Lemma anchored_id_chars r s c :
  r = PLAYLIST_RE \/ r = CHANNEL_RE \/ r = USER_RE ->
  id_char c = false -> c <> newline ->
  contains_char c s = true -> match_anchored r s = false.
Proof.
  intros Hr Hc Hnl Hin. apply match_anchored_false.
  unfold contains_char in Hin. apply existsb_exists in Hin as (x & Hx & E).
  apply Ascii.eqb_eq in E as <-.
  intros [H|(t & Ht & H)]; apply (matches_id_chars _ _ Hr) in H.
  - rewrite List.Forall_forall in H. specialize (H c Hx). congruence.
  - rewrite Ht in Hx. apply in_app_or in Hx as [Hx|[<-|[]]]; [|congruence].
    rewrite List.Forall_forall in H. specialize (H c Hx). congruence.
Qed.

Lemma get_id_type_outside_chars s c :
  id_char c = false -> c <> newline ->
  contains_char c s = true -> get_id_type (IdStr s) = None.
Proof.
  intros Hc Hnl Hin. simpl.
  rewrite !(anchored_id_chars _ s c) by auto. reflexivity.
Qed.

Lemma anchored_newline r s :
  r = PLAYLIST_RE \/ r = CHANNEL_RE \/ r = USER_RE ->
  ~ In newline (list_ascii_of_string s) ->
  match_anchored r (s +:+ String newline EmptyString) = match_anchored r s.
Proof.
  intros Hr Hs.
  assert (Hiff : Matches_anchored r (s +:+ String newline EmptyString) <->
                 Matches_anchored r s).
  { unfold Matches_anchored. rewrite list_ascii_of_string_app. simpl. split.
    - intros [H|(t & Ht & H)].
      + apply (matches_id_chars _ _ Hr) in H. rewrite List.Forall_forall in H.
        specialize (H newline ltac:(apply in_or_app; right; now left)).
        discriminate.
      + apply app_inj_tail in Ht as [<- _]. now left.
    - intros [H|(t & Ht & H)].
      + right. eauto.
      + exfalso. apply Hs. rewrite Ht. apply in_or_app. right. now left. }
  destruct (match_anchored r s) eqn:E.
  - apply match_anchored_spec. apply Hiff. now apply match_anchored_spec.
  - apply match_anchored_false. rewrite Hiff. now apply match_anchored_false.
Qed.

(** X2: one newline after an identifier is not seen: for a string without
    newline, [get_id_type] answers the same with and without a newline
    appended ([$] also matches before a final newline). *)
Theorem get_id_type_trailing_newline s :
  ~ In newline (list_ascii_of_string s) ->
  get_id_type (IdStr (s +:+ String newline EmptyString)) = get_id_type (IdStr s).
Proof.
  intros Hs. simpl. rewrite !anchored_newline by auto. reflexivity.
Qed.

Lemma get_id_type_trailing_newline_witness :
  get_id_type (IdStr ("PL0123456789abcdef" +:+ String newline EmptyString)) =
  get_id_type (IdStr "PL0123456789abcdef").
Proof.
  apply (get_id_type_trailing_newline "PL0123456789abcdef").
  simpl. unfold newline. intros H.
  repeat (destruct H as [H|H]; [discriminate|]). exact H.
Defined.

(** X3: [validate_id] rejects every identifier that contains a comma: no
    pattern of [get_id_type] lets a comma through, so the identifier is never
    a playlist. *)
Theorem validate_id_rejects_comma youtube_id :
  contains_char "," youtube_id = true ->
  validate_id youtube_id = Raise (ValueError "Invalid YoutubeId").
Proof.
  intros Hc. unfold validate_id.
  rewrite (get_id_type_outside_chars youtube_id ","%char) by
    (try reflexivity; try discriminate; assumption).
  rewrite Hc. reflexivity.
Qed.

Lemma validate_id_rejects_comma_witness :
  validate_id "PL0123456789abcdef,PL0123456789abcdeg" =
    Raise (ValueError "Invalid YoutubeId").
Proof.
  apply (validate_id_rejects_comma "PL0123456789abcdef,PL0123456789abcdeg").
  reflexivity.
Defined.

(** X4: a channel identifier passes [validate_id] only with exactly 22
    characters of [[-_a-zA-Z0-9]] after [UC]; a longer one, also by a
    final newline, raises [ValueError]. *)
Theorem validate_id_channel_length youtube_id :
  get_id_type (IdStr youtube_id) = Some "channel" ->
  (validate_id youtube_id = Ok tt <->
   exists body,
     youtube_id = "UC" +:+ body /\ String.length body = 22%nat /\
     Forall (fun c => id_char c = true) (list_ascii_of_string body)) /\
  (validate_id youtube_id <> Ok tt ->
   validate_id youtube_id = Raise (ValueError "Invalid ChannelId")).
Proof.
  intros Hty. unfold validate_id. rewrite Hty.
  rewrite bool_decide_eq_true_2 by reflexivity. simpl andb.
  assert (Hm : Matches_anchored CHANNEL_RE youtube_id).
  { simpl in Hty. apply match_anchored_spec.
    destruct (match_anchored PLAYLIST_RE youtube_id); [discriminate|].
    destruct (match_anchored CHANNEL_RE youtube_id); [reflexivity|].
    destruct (match_anchored USER_RE youtube_id); discriminate. }
  rewrite string_length_list.
  destruct (Nat.ltb_spec 24 (length (list_ascii_of_string youtube_id))) as [Hlt|Hle].
  - split; [|reflexivity]. split; [discriminate|].
    intros (body & -> & Hlen & _). rewrite list_ascii_of_string_app in Hlt.
    rewrite string_length_list in Hlen.
    rewrite length_app, Hlen in Hlt. simpl in Hlt. lia.
  - assert (Hcomma : contains_char "," youtube_id = false).
    { destruct (contains_char "," youtube_id) eqn:E; [|reflexivity].
      rewrite (get_id_type_outside_chars youtube_id ","%char) in Hty
        by (try reflexivity; try discriminate; assumption).
      discriminate. }
    rewrite Hcomma. simpl. split; [|congruence]. split; [|reflexivity]. intros _.
    destruct Hm as [H|(t & Ht & H)]; apply channel_re_spec in H
      as (body & E & Hlen & Hb).
    + exists (string_of_list_ascii body).
      rewrite list_ascii_of_string_of_list_ascii. repeat split; [| |assumption].
      * rewrite <- (string_of_list_ascii_of_string youtube_id), E.
        reflexivity.
      * rewrite string_length_list, list_ascii_of_string_of_list_ascii.
        rewrite E in Hle. simpl in Hle. lia.
    + rewrite Ht, E in Hle. rewrite length_app in Hle. simpl in Hle. lia.
Qed.

Lemma validate_id_channel_length_witness :
  validate_id "UC0123456789abcdefghijkl" = Ok tt <->
  exists body,
    "UC0123456789abcdefghijkl" = "UC" +:+ body /\ String.length body = 22%nat /\
    Forall (fun c => id_char c = true) (list_ascii_of_string body).
Proof.
  apply (validate_id_channel_length "UC0123456789abcdefghijkl"). reflexivity.
Defined.

End IdentifierFacts.

(** ** The cached getters *)

Section GetterFacts.
Import Youtube.

Lemma fetch_items_outcome response : forall items (c : cache),
  fetch_items items response c =
    match items_end response with
    | None => (Ok (items ++ pages_of response), c)
    | Some e => (Raise e, c)
    end.
Proof.
  induction response as [|page|page next IH|]; intros items c; simpl;
    try reflexivity.
  rewrite app_assoc. apply IH.
Qed.

(** X5: [get_videos_json] fetches a playlist once.  On a cache without the
    playlist's video list, a call that returns answers all the pages laid end
    to end and stores them, and every later call answers the same list from
    the cache, whatever the platform would answer then. *)
Theorem get_videos_json_fetches_once api playlist_id (c c' : cache) r :
  c !! playlist_videos_key playlist_id = None ->
  get_videos_json api playlist_id c = (Ok r, c') ->
  r = DVideos (pages_of (api playlist_id)) /\
  c' = <[playlist_videos_key playlist_id := r]> c /\
  forall api', get_videos_json api' playlist_id c' = (Ok r, c').
Proof.
  intros Hmiss H. unfold get_videos_json in H.
  rewrite bind_unfold, (load_json_None _ _ (or_introl Hmiss)), bind_unfold in H.
  rewrite fetch_items_outcome in H.
  destruct (items_end (api playlist_id)); [discriminate|].
  simpl in H. injection H as <- <-. repeat split.
  intros api'. unfold get_videos_json.
  rewrite bind_unfold, (load_json_Some _ _ (DVideos (pages_of (api playlist_id))));
    [reflexivity|apply lookup_insert_eq|discriminate].
Qed.

Lemma get_videos_json_fetches_once_witness :
  DVideos [example_item "a1" 0] = DVideos (pages_of (ItemsLast [example_item "a1" 0])) /\
  (<[playlist_videos_key "PLx" := DVideos [example_item "a1" 0]]> ∅ : cache) =
    <[playlist_videos_key "PLx" := DVideos [example_item "a1" 0]]> ∅ /\
  forall api',
    get_videos_json api' "PLx"
      (<[playlist_videos_key "PLx" := DVideos [example_item "a1" 0]]> ∅) =
    (Ok (DVideos [example_item "a1" 0]),
     <[playlist_videos_key "PLx" := DVideos [example_item "a1" 0]]> ∅).
Proof.
  apply (get_videos_json_fetches_once
           (fun _ => ItemsLast [example_item "a1" 0]) "PLx" ∅).
  - apply lookup_empty.
  - reflexivity.
Defined.



Lemma fetch_playlists_fail fname response : forall items (c : cache),
  playlists_fail response = true ->
  response <> HttpError ->
  fetch_playlists fname items response c =
    (Raise HTTPError,
     <[fname := DPlaylists (items ++ playlists_pages_of response)]> c).
Proof.
  induction response as [|page|page next IH|]; intros items c Hf Hne;
    simpl in *.
  - contradiction.
  - discriminate.
  - rewrite bind_unfold. simpl. destruct next as [|page'|page' next'|].
    + simpl. now rewrite app_nil_r.
    + discriminate.
    + rewrite IH by (auto; discriminate).
      now rewrite insert_insert_eq, app_assoc.
    + discriminate.
  - discriminate.
Qed.

(** X7: a pagination of the channel's playlists that fails after its first
    page leaves the pages read so far in the cache, and the next call takes
    them for the whole list: with no [optimize_number] it returns the
    truncated list without asking the platform again. *)
Theorem get_channel_playlists_json_truncated api channel_id optimize_number
    (c : cache) :
  c !! channel_playlists_key channel_id = None ->
  playlists_fail (api channel_id) = true ->
  api channel_id <> HttpError ->
  exists c',
    get_channel_playlists_json api channel_id optimize_number c =
      (Raise HTTPError, c') /\
    forall api',
      get_channel_playlists_json api' channel_id None c' =
        (Ok (DPlaylists (playlists_pages_of (api channel_id))), c').
Proof.
  intros Hmiss Hfail Hne. eexists. split.
  - unfold get_channel_playlists_json.
    rewrite bind_unfold, (load_json_None _ _ (or_introl Hmiss)), bind_unfold.
    rewrite fetch_playlists_fail by assumption. reflexivity.
  - intros api'. unfold get_channel_playlists_json.
    rewrite bind_unfold,
      (load_json_Some _ _ (DPlaylists ([] ++ playlists_pages_of (api channel_id))));
      [reflexivity|apply lookup_insert_eq|discriminate].
Qed.

Lemma get_channel_playlists_json_truncated_witness :
  exists c' : cache,
    get_channel_playlists_json
      (fun _ => NextPage [example_ref "PLtwo"] HttpError) "UCx" (Some 5) ∅ =
      (Raise HTTPError, c') /\
    forall api',
      get_channel_playlists_json api' "UCx" None c' =
        (Ok (DPlaylists (playlists_pages_of
                           (NextPage [example_ref "PLtwo"] HttpError))), c').
Proof.
  apply (get_channel_playlists_json_truncated
           (fun _ => NextPage [example_ref "PLtwo"] HttpError) "UCx" (Some 5) ∅).
  - apply lookup_empty.
  - reflexivity.
  - discriminate.
Defined.

(** X8: [get_channel_json] files a channel under the argument it was asked
    with.  After a call by user name that returns, the channel is cached
    under the user name and a second call by that name answers from the
    cache; the file of the channel's own id is as it was before. *)
Theorem get_channel_json_by_username api username (c c' : cache) r :
  c !! channel_key username = None ->
  get_channel_json api username true c = (Ok r, c') ->
  exists channel,
    r = DChannel channel /\
    c' = <[channel_key username := DChannel channel]> c /\
    (forall api', get_channel_json api' username true c' = (Ok r, c')) /\
    (ch_id channel <> username ->
     c' !! channel_key (ch_id channel) = c !! channel_key (ch_id channel)).
Proof.
  intros Hmiss H. unfold get_channel_json in H.
  rewrite bind_unfold, (load_json_None _ _ (or_introl Hmiss)), bind_unfold in H.
  destruct (api true username) as [| |[|channel rest]]; try discriminate.
  simpl in H. injection H as <- <-. exists channel. repeat split.
  - intros api'. unfold get_channel_json.
    rewrite bind_unfold, (load_json_Some _ _ (DChannel channel));
      [reflexivity|apply lookup_insert_eq|discriminate].
  - intros Hne. apply lookup_insert_ne. unfold channel_key. intros E.
    apply Hne. change ("channel_" +:+ ?x) with
      (String "c" (String "h" (String "a" (String "n" (String "n"
         (String "e" (String "l" (String "_" x)))))))) in E.
    repeat injection E as E. congruence.
Qed.

Lemma get_channel_json_by_username_witness :
  exists channel,
    DChannel {| ch_id := "UCx"; ch_title := "X"; ch_uploads := "UUx" |} =
      DChannel channel /\
    (<[channel_key "somebody" := DChannel {| ch_id := "UCx"; ch_title := "X";
                                             ch_uploads := "UUx" |}]> ∅ : cache) =
      <[channel_key "somebody" := DChannel channel]> ∅ /\
    (forall api',
       get_channel_json api' "somebody" true
         (<[channel_key "somebody" :=
              DChannel {| ch_id := "UCx"; ch_title := "X"; ch_uploads := "UUx" |}]> ∅) =
       (Ok (DChannel {| ch_id := "UCx"; ch_title := "X"; ch_uploads := "UUx" |}),
        <[channel_key "somebody" :=
            DChannel {| ch_id := "UCx"; ch_title := "X"; ch_uploads := "UUx" |}]> ∅)) /\
    (ch_id channel <> "somebody" ->
     (<[channel_key "somebody" :=
          DChannel {| ch_id := "UCx"; ch_title := "X"; ch_uploads := "UUx" |}]> ∅ : cache)
       !! channel_key (ch_id channel) = (∅ : cache) !! channel_key (ch_id channel)).
Proof.
  apply (get_channel_json_by_username
           (fun _ _ => Items [{| ch_id := "UCx"; ch_title := "X";
                                 ch_uploads := "UUx" |}]) "somebody" ∅).
  - apply lookup_empty.
  - reflexivity.
Defined.

(** [get_playlist_json] on a playlist the platform does not know (an empty
    list of items) raises [IndexError] and writes nothing. *)
Lemma get_playlist_json_not_found api playlist_id (c : cache) :
  c !! playlist_key playlist_id = None ->
  api playlist_id = Items [] ->
  get_playlist_json api playlist_id c = (Raise IndexError, c).
Proof.
  intros Hmiss Hapi. unfold get_playlist_json.
  rewrite bind_unfold, (load_json_None _ _ (or_introl Hmiss)), bind_unfold, Hapi.
  reflexivity.
Qed.

End GetterFacts.

(** ** Merging, again: what any merge leaves behind *)

Section MergeMoreFacts.
Import Youtube.

Lemma raise_bind {A B} e (k : A -> M B) (c : cache) :
  (raise e ≫= k) c = (Raise e, c).
Proof. reflexivity. Qed.

(** Whatever the threshold, the loop only deletes files, off the channel's
    playlist list. *)
Lemma merge_loop_shrinks channel_id optimize_number (c0 : cache) :
  forall items items_merged (c c' : cache) acc,
    shrunk_from channel_id c0 c ->
    merge_loop channel_id optimize_number items items_merged c = (Ok acc, c') ->
    shrunk_from channel_id c0 c'.
Proof.
  induction items as [|item rest IH]; intros items_merged c c' acc Hc H; simpl in H.
  - now injection H as <- <-.
  - apply bind_inv in H as (o & c1 & H1 & H).
    apply load_json_inv in H1 as [-> _].
    apply bind_inv in H as (acc1 & c2 & H2 & H).
    eapply IH; [|exact H].
    destruct (3 <=? optimize_number).
    + apply bind_inv in H2 as (videos & c3 & H3 & H2).
      apply as_videos_inv in H3 as [-> ->].
      destruct (Z.of_nat (length videos) <? optimize_number).
      * eapply merge_one_inv; eauto.
      * now injection H2 as <- <-.
    + destruct (optimize_number =? 0).
      * apply bind_inv in H2 as (videos & c3 & H3 & H2).
        apply as_videos_inv in H3 as [-> ->]. eapply merge_one_inv; eauto.
      * now injection H2 as <- <-.
Qed.

(** The last steps of [merge_playlists], from the accumulated list on. *)
Lemma merge_playlists_inv channel_id items optimize_number (c c' : cache) r :
  merge_playlists channel_id (DPlaylists items) optimize_number c = (Ok r, c') ->
  exists channel acc (c3 : cache),
    c !! channel_key channel_id = Some (DChannel channel) /\
    shrunk_from channel_id c c3 /\
    r = DPlaylist new_channel_playlists_json /\
    c' = <["playlist_custom_videos" := DVideos (renumber (dedup_loop acc [] []))]>
           (<["playlist_custom" :=
                DPlaylist (custom_playlist channel_id optimize_number channel)]>
              (<[channel_playlists_key channel_id :=
                   DPlaylist new_channel_playlists_json]> c3)).
Proof.
  intros H. unfold merge_playlists in H.
  apply bind_inv in H as (items' & c1 & H1 & H). injection H1 as <- <-.
  apply bind_inv in H as (acc & c1 & Hloop & H).
  pose proof (merge_loop_shrinks channel_id optimize_number c _ _ _ _ _
                (shrunk_from_refl channel_id c) Hloop) as Hc1.
  apply bind_inv in H as (o & c2 & Hload & H).
  apply load_json_inv in Hload as [-> Ho].
  apply bind_inv in H as (channel & c2 & Hch & H).
  assert (o = Some (DChannel channel) /\ c2 = c1) as [-> ->].
  { unfold as_channel in Hch. destruct o as [[]|]; inversion Hch; auto. }
  apply bind_inv in H as (o & c2 & Hload & H).
  apply load_json_inv in Hload as [-> _].
  apply bind_inv in H as (acc2 & c2 & Hupl & H).
  assert (Hc2 : shrunk_from channel_id c c2).
  { apply bind_inv in Hupl as (q & c3 & Hq & Hupl).
    assert (c3 = c1) as ->.
    { unfold as_videos in Hq.
      destruct (optimize_number =? 0), (3 <=? optimize_number),
        o as [[]|]; simpl in Hq; try discriminate; now injection Hq as _ <-. }
    destruct q as [uploads|]; [|now injection Hupl as _ <-].
    apply bind_inv in Hupl as ([] & c5 & Hr1 & Hupl).
    apply os_remove_inv in Hr1 as ->.
    apply bind_inv in Hupl as ([] & c6 & Hr2 & Hupl).
    apply os_remove_inv in Hr2 as ->.
    apply bind_inv in Hupl as (o' & c7 & Hl & Hupl).
    apply load_json_inv in Hl as [-> _].
    apply bind_inv in Hupl as (l & c8 & Hrefs & Hupl).
    assert (c8 = delete (playlist_key (ch_uploads channel))
                   (delete (playlist_videos_key (ch_uploads channel)) c1)) as ->.
    { unfold as_refs in Hrefs.
      destruct (default DCorrupt o'); inversion Hrefs; reflexivity. }
    apply bind_inv in Hupl as ([] & c9 & Hs & Hupl). injection Hs as <-.
    injection Hupl as _ <-.
    intros key d Hkey Hd. rewrite lookup_insert_ne in Hd by auto.
    apply lookup_delete_Some in Hd as [_ Hd].
    apply lookup_delete_Some in Hd as [_ Hd]. now apply Hc1. }
  apply bind_inv in H as ([] & c3 & Hs1 & H). injection Hs1 as <-.
  apply bind_inv in H as ([] & c4 & Hs2 & H). injection Hs2 as <-.
  apply bind_inv in H as ([] & c5 & Hs3 & H). injection Hs3 as <-.
  injection H as <- <-.
  exists channel, acc2, c2. repeat split; auto.
  apply Hc1; [apply channel_key_not_playlists|]. now apply Ho.
Qed.

End MergeMoreFacts.

(** ** [extract_playlists_details_from] *)

Section ExtractFacts.
Import Youtube.

Variable get_slug : string -> string.
Variable channels_api : bool -> string -> answer channel_json.
Variable playlists_api : string -> playlists_response.
Variable playlist_api : string -> answer playlist_json.
Variable set_order : list string -> list string.

Lemma get_channel_json_cached api channel_id for_username (c : cache) d :
  c !! channel_key channel_id = Some d -> d <> DCorrupt ->
  get_channel_json api channel_id for_username c = (Ok d, c).
Proof.
  intros Hd Hne. unfold get_channel_json.
  now rewrite bind_unfold, (load_json_Some _ _ _ Hd Hne).
Qed.

Lemma get_playlist_json_cached api playlist_id (c : cache) d :
  c !! playlist_key playlist_id = Some d -> d <> DCorrupt ->
  get_playlist_json api playlist_id c = (Ok d, c).
Proof.
  intros Hd Hne. unfold get_playlist_json.
  now rewrite bind_unfold, (load_json_Some _ _ _ Hd Hne).
Qed.

(** X9: on a channel (or a user) whose playlist list is cached, resolving
    the playlists with an [optimize_number] of 3 or more never returns: the
    merge raises, or it returns the synthetic entry, a dictionary, and taking
    the ids of its elements raises [TypeError]. *)
Theorem extract_playlists_optimized_raises collection_type youtube_id
    optimize_number (c : cache) channel d :
  collection_type = Some "channel" \/ collection_type = Some "user" ->
  3 <= optimize_number ->
  c !! channel_key youtube_id = Some (DChannel channel) ->
  c !! channel_playlists_key (ch_id channel) = Some d -> d <> DCorrupt ->
  exists e c',
    extract_playlists_details_from get_slug channels_api playlists_api
      playlist_api set_order collection_type youtube_id (Some optimize_number) c
    = (Raise e, c') /\
    (forall r c1, merge_playlists (ch_id channel) d optimize_number c = (Ok r, c1) ->
                  e = TypeError).
Proof.
  intros Hty Hn Hch Hd Hne. unfold extract_playlists_details_from.
  assert (Hif : bool_decide (collection_type = Some "user") ||
                bool_decide (collection_type = Some "channel") = true).
  { destruct Hty as [-> | ->]; reflexivity. }
  rewrite Hif, !bind_unfold.
  rewrite (get_channel_json_cached _ _ _ _ _ Hch) by discriminate.
  simpl as_channel. rewrite ret_bind.
  unfold get_channel_playlists_json.
  rewrite !bind_unfold, (load_json_Some _ _ _ Hd Hne).
  apply Z.leb_le in Hn. rewrite Hn.
  destruct (merge_playlists (ch_id channel) d optimize_number c)
    as [[r|e] c1] eqn:Em.
  - assert (r = DPlaylist new_channel_playlists_json) as ->.
    { destruct d as [items| | | |];
        try (unfold merge_playlists in Em; simpl in Em; discriminate).
      apply merge_playlists_inv in Em as (_ & _ & _ & _ & _ & -> & _).
      reflexivity. }
    assert (E0 : (optimize_number =? 0) = false) by (apply Z.eqb_neq; lia).
    assert (E1 : (optimize_number =? 1) = false) by (apply Z.eqb_neq; lia).
    assert (E2 : (optimize_number =? 2) = false) by (apply Z.eqb_neq; lia).
    rewrite E0, E1, E2. simpl.
    rewrite bool_decide_eq_false_2 by (intros E; injection E as E; lia).
    rewrite !bind_unfold, Em. simpl.
    exists TypeError, c1. split; [reflexivity|auto].
  - rewrite !bind_unfold, Em.
    exists e, c1. split; [reflexivity|]. intros r c2 H. discriminate.
Qed.

End ExtractFacts.

Section ExtractExamples.
Import Youtube.

Lemma extract_playlists_optimized_raises_witness :
  exists e (c' : cache),
    extract_playlists_details_from (fun title => title) (fun _ _ => BadStatus)
      (fun _ => HttpError) (fun _ => BadStatus) (fun ids => ids)
      (Some "channel") "UCx" (Some 5)
      (<[channel_key "UCx" :=
           DChannel {| ch_id := "UCx"; ch_title := "X"; ch_uploads := "UUx" |}]>
         example_cache)
    = (Raise e, c') /\
    (forall r c1,
       merge_playlists "UCx" (DPlaylists example_items) 5
         (<[channel_key "UCx" :=
              DChannel {| ch_id := "UCx"; ch_title := "X"; ch_uploads := "UUx" |}]>
            example_cache) = (Ok r, c1) ->
       e = TypeError).
Proof.
  apply (extract_playlists_optimized_raises (fun title => title)
           (fun _ _ => BadStatus) (fun _ => HttpError) (fun _ => BadStatus)
           (fun ids => ids) (Some "channel") "UCx" 5
           (<[channel_key "UCx" :=
                DChannel {| ch_id := "UCx"; ch_title := "X"; ch_uploads := "UUx" |}]>
              example_cache)
           {| ch_id := "UCx"; ch_title := "X"; ch_uploads := "UUx" |}
           (DPlaylists example_items)).
  - now left.
  - lia.
  - apply lookup_insert_eq.
  - reflexivity.
  - discriminate.
Defined.

End ExtractExamples.

(** ** Flattening a channel: [optimize_number] 0 *)

Section FlattenFacts.
Import Youtube.

(** The loop with [optimize_number] 0 takes the videos of every playlist of
    the list and deletes its video list. *)
Lemma merge_loop_zero channel_id (c0 : cache) :
  forall items items_merged (c c' : cache) acc,
    shrunk_from channel_id c0 c ->
    merge_loop channel_id 0 items items_merged c = (Ok acc, c') ->
    acc = items_merged ++
          concat (map (fun item => cached_videos c0 (ref_id item)) items) /\
    forall item, item ∈ items -> c' !! playlist_videos_key (ref_id item) = None.
Proof.
  induction items as [|item rest IH]; intros items_merged c c' acc Hc H.
  - simpl in H. injection H as <- <-. simpl. rewrite app_nil_r.
    split; [reflexivity|]. intros item Hin. inversion Hin.
  - pose proof H as Hloop. simpl in H.
    apply bind_inv in H as (o & c1 & H1 & H).
    apply load_json_inv in H1 as [-> Ho].
    apply bind_inv in H as (acc1 & c2 & H2 & H). simpl in H2.
    apply bind_inv in H2 as (videos & c3 & H3 & H2).
    apply as_videos_inv in H3 as [-> ->].
    assert (E0 : c0 !! playlist_videos_key (ref_id item) = Some (DVideos videos)).
    { apply Hc; [apply playlist_videos_key_not_channel|]. now apply Ho. }
    pose proof (merge_one_inv _ _ _ _ _ _ _ _ Hc H2) as [_ Hc2].
    apply merge_one_cache in H2 as [-> [l ->]].
    destruct (IH _ _ _ _ Hc2 H) as [-> Hgone]. split.
    + simpl. unfold cached_videos at 2. rewrite E0. now rewrite app_assoc.
    + intros other Hin. apply elem_of_cons in Hin as [->|Hin]; [|auto].
      eapply (shrunk_from_None channel_id); [| |].
      * eapply merge_loop_shrinks; [apply shrunk_from_refl|exact H].
      * apply playlist_videos_key_not_channel.
      * rewrite lookup_insert_ne by (apply not_eq_sym, playlist_videos_key_not_channel).
        destruct (decide (playlist_key (ref_id item)
                          = playlist_videos_key (ref_id item))) as [E|E].
        -- rewrite E. apply lookup_delete_eq.
        -- rewrite lookup_delete_ne by assumption. apply lookup_delete_eq.
Qed.

(** X10: with an [optimize_number] of 0, when [merge_playlists] returns,
    the channel is flattened: [playlist_custom_videos] holds the videos of
    every playlist of the list, in the order of the list, followed by those
    of the uploads playlist, each video id kept once and the positions
    numbered from zero; [playlist_custom] is a playlist entitled
    [All Videos]; and the video lists that were merged are gone from the
    cache (but for one called [custom]). *)
Theorem merge_playlists_flattens channel_id items (c c' : cache) r :
  merge_playlists channel_id (DPlaylists items) 0 c = (Ok r, c') ->
  exists channel,
    c !! channel_key channel_id = Some (DChannel channel) /\
    r = DPlaylist new_channel_playlists_json /\
    c' !! "playlist_custom_videos" =
      Some (DVideos (renumber (dedup_loop
              (concat (map (fun item => cached_videos c (ref_id item)) items)
               ++ cached_videos c (ch_uploads channel)) [] []))) /\
    c' !! "playlist_custom" =
      Some (DPlaylist (custom_playlist channel_id 0 channel)) /\
    snippet_title <$> pl_snippet (custom_playlist channel_id 0 channel)
      = Some "All Videos" /\
    forall playlist_id,
      playlist_id ∈ map ref_id items ++ [ch_uploads channel] ->
      playlist_id <> "custom" ->
      c' !! playlist_videos_key playlist_id = None.
Proof.
  intros H. unfold merge_playlists in H.
  apply bind_inv in H as (items' & c1 & H1 & H). injection H1 as <- <-.
  apply bind_inv in H as (acc & c1 & Hloop & H).
  pose proof (merge_loop_shrinks channel_id 0 c _ _ _ _ _
                (shrunk_from_refl channel_id c) Hloop) as Hc1.
  apply (merge_loop_zero channel_id c _ _ _ _ _ (shrunk_from_refl channel_id c))
    in Hloop as [-> Hgone].
  apply bind_inv in H as (o & c2 & Hload & H).
  apply load_json_inv in Hload as [-> Ho].
  apply bind_inv in H as (channel & c2 & Hch & H).
  assert (o = Some (DChannel channel) /\ c2 = c1) as [-> ->].
  { unfold as_channel in Hch. destruct o as [[]|]; inversion Hch; auto. }
  apply bind_inv in H as (o & c2 & Hload & H).
  apply load_json_inv in Hload as [-> Hup].
  apply bind_inv in H as (acc2 & c2 & Hupl & H).
  apply bind_inv in Hupl as (q & c3 & Hq & Hupl).
  change (0 =? 0) with true in Hq. cbv iota in Hq.
  apply bind_inv in Hq as (uploads & c4 & Hv & Hq).
  apply as_videos_inv in Hv as [-> ->]. injection Hq as <- <-.
  apply bind_inv in Hupl as ([] & c5 & Hr1 & Hupl).
  apply os_remove_inv in Hr1 as ->.
  apply bind_inv in Hupl as ([] & c6 & Hr2 & Hupl).
  apply os_remove_inv in Hr2 as ->.
  apply bind_inv in Hupl as (o' & c7 & Hl & Hupl).
  apply load_json_inv in Hl as [-> _].
  apply bind_inv in Hupl as (l & c8 & Hrefs & Hupl).
  assert (c8 = delete (playlist_key (ch_uploads channel))
                 (delete (playlist_videos_key (ch_uploads channel)) c1)) as ->.
  { unfold as_refs in Hrefs.
    destruct (default DCorrupt o'); inversion Hrefs; reflexivity. }
  apply bind_inv in Hupl as ([] & c9 & Hs & Hupl). injection Hs as <-.
  injection Hupl as <- <-.
  apply bind_inv in H as ([] & c3 & Hs1 & H). injection Hs1 as <-.
  apply bind_inv in H as ([] & c4 & Hs2 & H). injection Hs2 as <-.
  apply bind_inv in H as ([] & c5 & Hs3 & H). injection Hs3 as <-.
  injection H as <- <-.
  assert (Huploads : cached_videos c (ch_uploads channel) = uploads).
  { unfold cached_videos.
    rewrite (Hc1 _ (DVideos uploads));
      [reflexivity|apply playlist_videos_key_not_channel|now apply Hup]. }
  exists channel. split; [|split; [|split; [|split; [|split]]]].
  - apply Hc1; [apply channel_key_not_playlists|]. now apply Ho.
  - reflexivity.
  - rewrite lookup_insert_eq, Huploads. reflexivity.
  - rewrite lookup_insert_ne by discriminate. apply lookup_insert_eq.
  - reflexivity.
  - intros playlist_id Hin Hne.
    rewrite lookup_insert_ne
      by (intros E; symmetry in E; now apply videos_key_custom in E).
    rewrite lookup_insert_ne by (apply not_eq_sym, videos_key_not_custom).
    rewrite !lookup_insert_ne
      by (apply not_eq_sym, playlist_videos_key_not_channel).
    apply lookup_delete_None. right. apply lookup_delete_None.
    apply elem_of_app in Hin as [Hin|Hin].
    + right. apply list_elem_of_fmap in Hin as (item & -> & Hin). now apply Hgone.
    + apply list_elem_of_singleton in Hin as ->. now left.
Qed.

(** The channel of the example, flattened: the ten, five and two videos of
    the playlists and the three uploads, the shared video once. *)
Lemma merge_playlists_flattens_witness :
  exists r (c' : cache),
    merge_playlists "UCx" (DPlaylists example_items) 0 example_cache = (Ok r, c') /\
    exists channel,
      example_cache !! channel_key "UCx" = Some (DChannel channel) /\
      r = DPlaylist new_channel_playlists_json /\
      c' !! "playlist_custom_videos" =
        Some (DVideos (renumber (dedup_loop
                (concat (map (fun item => cached_videos example_cache (ref_id item))
                           example_items)
                 ++ cached_videos example_cache (ch_uploads channel)) [] []))) /\
      c' !! "playlist_custom" =
        Some (DPlaylist (custom_playlist "UCx" 0 channel)) /\
      snippet_title <$> pl_snippet (custom_playlist "UCx" 0 channel)
        = Some "All Videos" /\
      forall playlist_id,
        playlist_id ∈ map ref_id example_items ++ [ch_uploads channel] ->
        playlist_id <> "custom" ->
        c' !! playlist_videos_key playlist_id = None.
Proof.
  exists (DPlaylist new_channel_playlists_json),
         (merge_playlists "UCx" (DPlaylists example_items) 0 example_cache).2.
  split; [vm_compute; reflexivity|].
  apply (merge_playlists_flattens "UCx" example_items example_cache
           (merge_playlists "UCx" (DPlaylists example_items) 0 example_cache).2
           (DPlaylist new_channel_playlists_json)).
  vm_compute. reflexivity.
Defined.

End FlattenFacts.

(** ** Resolving the playlists of a request *)

Section ResolveFacts.
Import Utils Youtube Downloader.

Variable get_slug : string -> string.
Variable channels_api : bool -> string -> answer channel_json.
Variable playlists_api : string -> playlists_response.
Variable playlist_api : string -> answer playlist_json.
Variable set_order : list string -> list string.

(** A pagination that no HTTP failure ends either reaches its last page or
    stops at a body without items. *)
Lemma playlists_end_no_fail response :
  playlists_fail response = false ->
  playlists_end response = None \/ playlists_end response = Some KeyError.
Proof.
  induction response as [|page|page next IH|]; simpl; intros H; auto.
  discriminate.
Qed.

(** X11: on a channel whose playlist list is cached, an [optimize_number]
    of 0 resolves to one playlist, the synthetic [custom] one, entitled
    [All Videos] and attributed to the channel; no uploads playlist is
    reported, and the platform is not asked for the playlist. *)
Theorem extract_playlists_flattened collection_type youtube_id (c c1 : cache)
    channel items r :
  collection_type = Some "channel" \/ collection_type = Some "user" ->
  c !! channel_key youtube_id = Some (DChannel channel) ->
  c !! channel_playlists_key (ch_id channel) = Some (DPlaylists items) ->
  merge_playlists (ch_id channel) (DPlaylists items) 0 c = (Ok r, c1) ->
  set_order ["custom"] = ["custom"] ->
  exists channel0,
    c !! channel_key (ch_id channel) = Some (DChannel channel0) /\
    extract_playlists_details_from get_slug channels_api playlists_api
      playlist_api set_order collection_type youtube_id (Some 0) c
    = (Ok ([{| playlist_id := "custom";
               title := "All Videos";
               description := "Custom playlist created by user";
               creator_id := ch_id channel;
               creator_name := ch_title channel0;
               slug := get_slug "All Videos" |}],
           Some (ch_id channel), None), c1).
Proof.
  intros Hty Hch Hd Em Hset. unfold extract_playlists_details_from.
  assert (Hif : bool_decide (collection_type = Some "user") ||
                bool_decide (collection_type = Some "channel") = true).
  { destruct Hty as [-> | ->]; reflexivity. }
  rewrite Hif, !bind_unfold.
  rewrite (get_channel_json_cached _ _ _ _ _ Hch) by discriminate.
  simpl as_channel. rewrite ret_bind.
  unfold get_channel_playlists_json.
  rewrite !bind_unfold, (load_json_Some _ _ _ Hd) by discriminate.
  change (3 <=? 0) with false. change (0 =? 0) with true.
  cbv iota. rewrite ret_bind, !bind_unfold, Em.
  change ((0 =? 1) || (0 =? 2)) with false. cbv iota.
  rewrite bool_decide_eq_true_2 by reflexivity.
  unfold mret at 1 2, M_ret. rewrite Hset.
  apply merge_playlists_inv in Em as (channel0 & acc & c3 & Hch0 & _ & -> & ->).
  exists channel0. split; [assumption|].
  simpl mapM. rewrite !bind_unfold. unfold from_id at 1.
  rewrite bind_unfold.
  rewrite (get_playlist_json_cached _ _ _
             (DPlaylist (custom_playlist (ch_id channel) 0 channel0)));
    [reflexivity| |discriminate].
  rewrite lookup_insert_ne by discriminate. apply lookup_insert_eq.
Qed.

(** X12: on a channel whose playlist list is not cached yet, an
    [optimize_number] of 0 merges nothing: the list is fetched and saved, and
    the playlist [custom], which no file describes, is asked to the
    platform; unless the platform knows a playlist of that name the call
    raises, leaving the fetched list behind.  (The pagination meets no HTTP
    failure, and its first answer has items: the call raises as well when a
    later answer has none, leaving the pages read before.) *)
Theorem extract_playlists_first_run collection_type youtube_id (c : cache)
    channel :
  collection_type = Some "channel" \/ collection_type = Some "user" ->
  c !! channel_key youtube_id = Some (DChannel channel) ->
  c !! channel_playlists_key (ch_id channel) = None ->
  playlists_fail (playlists_api (ch_id channel)) = false ->
  playlists_api (ch_id channel) <> PageWithoutItems ->
  c !! "playlist_custom" = None ->
  set_order ["custom"] = ["custom"] ->
  (forall p rest, playlist_api "custom" <> Items (p :: rest)) ->
  exists e,
    e ∈ [HTTPError; KeyError; IndexError] /\
    extract_playlists_details_from get_slug channels_api playlists_api
      playlist_api set_order collection_type youtube_id (Some 0) c
    = (Raise e,
       <[channel_playlists_key (ch_id channel) :=
           DPlaylists (playlists_pages_of (playlists_api (ch_id channel)))]> c).
Proof.
  intros Hty Hch Hmiss Hfetch Hitems Hcustom Hset Hapi.
  unfold extract_playlists_details_from.
  assert (Hif : bool_decide (collection_type = Some "user") ||
                bool_decide (collection_type = Some "channel") = true).
  { destruct Hty as [-> | ->]; reflexivity. }
  rewrite Hif, !bind_unfold.
  rewrite (get_channel_json_cached _ _ _ _ _ Hch) by discriminate.
  simpl as_channel. rewrite ret_bind.
  unfold get_channel_playlists_json.
  rewrite !bind_unfold, (load_json_None _ _ (or_introl Hmiss)), !bind_unfold.
  rewrite fetch_playlists_spec. cbn [app].
  destruct (playlists_end_no_fail _ Hfetch) as [-> | ->].
  2: { exists KeyError. split; [repeat constructor|].
       destruct (playlists_api (ch_id channel)); try discriminate;
         [reflexivity|reflexivity|now destruct Hitems]. }
  rewrite bool_decide_eq_true_2 by reflexivity.
  unfold mret at 1 2, M_ret. rewrite Hset.
  simpl mapM. rewrite !bind_unfold. unfold from_id at 1.
  rewrite bind_unfold. unfold get_playlist_json.
  rewrite bind_unfold, load_json_None
    by (left; rewrite lookup_insert_ne by discriminate; exact Hcustom).
  rewrite bind_unfold.
  destruct (playlist_api "custom") as [| |[|p rest]] eqn:Ea; simpl.
  - exists HTTPError. split; [repeat constructor|reflexivity].
  - exists KeyError. split; [repeat constructor|reflexivity].
  - exists IndexError. split; [repeat constructor|reflexivity].
  - now destruct (Hapi p rest).
Qed.

Lemma split_list_no_sep sep s :
  existsb (Ascii.eqb sep) s = false -> split_list sep s = [s].
Proof.
  induction s as [|a s IH]; simpl; [reflexivity|].
  intros H. apply orb_false_elim in H as [Ha Hs].
  rewrite Ascii.eqb_sym, Ha, (IH Hs). reflexivity.
Qed.

Lemma split_no_sep sep s : contains_char sep s = false -> split sep s = [s].
Proof.
  intros H. unfold split. rewrite (split_list_no_sep _ _ H). simpl.
  now rewrite string_of_list_ascii_of_string.
Qed.

(** A second [Playlist.from_id] on the same id reads the file the first
    one left. *)
Lemma from_id_again playlist_id (c c1 : cache) p :
  from_id get_slug playlist_api playlist_id c = (Ok p, c1) ->
  from_id get_slug playlist_api playlist_id c1 = (Ok p, c1).
Proof.
  intros H. unfold from_id in H.
  apply bind_inv in H as (d & c2 & Hget & H).
  assert (c2 = c1) as ->.
  { destruct d as [| |pl| |]; try discriminate.
    destruct (pl_snippet pl); [|discriminate]. now injection H as _ <-. }
  assert (Hd : c1 !! playlist_key playlist_id = Some d /\ d <> DCorrupt).
  { split; [|intros ->; discriminate].
    unfold get_playlist_json in Hget.
    apply bind_inv in Hget as (o & c3 & Hl & Hget).
    apply load_json_inv in Hl as [-> Ho]. destruct o as [d'|].
    - injection Hget as <- <-. now apply Ho.
    - apply bind_inv in Hget as (x & c4 & _ & Hget).
      apply bind_inv in Hget as ([] & c5 & Hs & Hget).
      injection Hs as <-. injection Hget as <- <-. apply lookup_insert_eq. }
  destruct Hd as [Hd Hne]. unfold from_id.
  rewrite bind_unfold, (get_playlist_json_cached _ _ _ _ Hd Hne). exact H.
Qed.

(** X13: an identifier [get_id_type] takes for a playlist is resolved as
    one playlist: splitting it at commas gives the identifier itself, the
    main channel is the creator of that playlist, no uploads playlist is
    reported, and the playlist, resolved twice, is asked to the platform at
    most once. *)
Theorem extract_playlists_single_playlist youtube_id optimize_number
    (c c1 : cache) p :
  get_id_type (IdStr youtube_id) = Some "playlist" ->
  set_order [youtube_id] = [youtube_id] ->
  from_id get_slug playlist_api youtube_id c = (Ok p, c1) ->
  split "," youtube_id = [youtube_id] /\
  extract_playlists_details_from get_slug channels_api playlists_api
    playlist_api set_order (get_id_type (IdStr youtube_id)) youtube_id
    optimize_number c
  = (Ok ([p], Some (creator_id p), None), c1).
Proof.
  intros Hty Hset Hp.
  assert (Hsplit : split "," youtube_id = [youtube_id]).
  { apply split_no_sep.
    destruct (contains_char "," youtube_id) eqn:E; [|reflexivity].
    rewrite (get_id_type_outside_chars youtube_id ","%char) in Hty
      by (try reflexivity; try discriminate; assumption).
    discriminate. }
  split; [assumption|].
  unfold extract_playlists_details_from. rewrite Hty.
  change (bool_decide (Some "playlist" = Some "user") ||
          bool_decide (Some "playlist" = Some "channel")) with false.
  cbv iota. rewrite bool_decide_eq_true_2 by reflexivity.
  rewrite Hsplit. simpl head. simpl default.
  rewrite !bind_unfold, Hp. unfold mret at 1 2, M_ret. rewrite Hset.
  simpl mapM. rewrite !bind_unfold, (from_id_again _ _ _ _ Hp). reflexivity.
Qed.

End ResolveFacts.

Section ResolveExamples.
Import Utils Youtube Downloader.

Lemma extract_playlists_flattened_witness :
  exists channel0,
    example_cache !! channel_key "UCx" = Some (DChannel channel0) /\
    extract_playlists_details_from (fun title => title) (fun _ _ => BadStatus)
      (fun _ => HttpError) (fun _ => BadStatus) (fun ids => ids)
      (Some "channel") "UCx" (Some 0) example_cache
    = (Ok ([{| playlist_id := "custom";
               title := "All Videos";
               description := "Custom playlist created by user";
               creator_id := "UCx";
               creator_name := ch_title channel0;
               slug := "All Videos" |}],
           Some "UCx", None),
       (merge_playlists "UCx" (DPlaylists example_items) 0 example_cache).2).
Proof.
  apply (extract_playlists_flattened (fun title => title)
           (fun _ _ => BadStatus) (fun _ => HttpError) (fun _ => BadStatus)
           (fun ids => ids) (Some "channel") "UCx" example_cache
           (merge_playlists "UCx" (DPlaylists example_items) 0 example_cache).2
           {| ch_id := "UCx"; ch_title := "X"; ch_uploads := "UUx" |}
           example_items (DPlaylist new_channel_playlists_json)).
  - now left.
  - reflexivity.
  - reflexivity.
  - vm_compute. reflexivity.
  - reflexivity.
Defined.

Lemma extract_playlists_first_run_witness :
  exists e,
    e ∈ [HTTPError; KeyError; IndexError] /\
    extract_playlists_details_from (fun title => title) (fun _ _ => BadStatus)
      (fun _ => LastPage example_items) (fun _ => Items []) (fun ids => ids)
      (Some "channel") "UCx" (Some 0)
      {[ "channel_UCx" :=
           DChannel {| ch_id := "UCx"; ch_title := "X"; ch_uploads := "UUx" |} ]}
    = (Raise e,
       <[channel_playlists_key "UCx" := DPlaylists example_items]>
         {[ "channel_UCx" :=
              DChannel {| ch_id := "UCx"; ch_title := "X"; ch_uploads := "UUx" |} ]}).
Proof.
  apply (extract_playlists_first_run (fun title => title)
           (fun _ _ => BadStatus) (fun _ => LastPage example_items)
           (fun _ => Items []) (fun ids => ids) (Some "channel") "UCx"
           {[ "channel_UCx" :=
                DChannel {| ch_id := "UCx"; ch_title := "X"; ch_uploads := "UUx" |} ]}
           {| ch_id := "UCx"; ch_title := "X"; ch_uploads := "UUx" |}).
  - now left.
  - reflexivity.
  - reflexivity.
  - reflexivity.
  - discriminate.
  - reflexivity.
  - reflexivity.
  - discriminate.
Defined.

Lemma extract_playlists_single_playlist_witness :
  split "," "PL0123456789abcdef" = ["PL0123456789abcdef"] /\
  extract_playlists_details_from (fun title => title) (fun _ _ => BadStatus)
    (fun _ => HttpError)
    (fun playlist_id =>
       Items [{| pl_kind := "youtube#playlist"; pl_etag := "etag";
                 pl_id := playlist_id;
                 pl_snippet := Some {| snippet_title := "Lessons";
                                       snippet_description := "";
                                       snippet_channelId := "UCx";
                                       snippet_channelTitle := "X" |} |}])
    (fun ids => ids) (get_id_type (IdStr "PL0123456789abcdef"))
    "PL0123456789abcdef" None ∅
  = (Ok ([{| playlist_id := "PL0123456789abcdef"; title := "Lessons";
             description := ""; creator_id := "UCx"; creator_name := "X";
             slug := "Lessons" |}],
         Some "UCx", None),
     {[ "playlist_PL0123456789abcdef" :=
          DPlaylist {| pl_kind := "youtube#playlist"; pl_etag := "etag";
                       pl_id := "PL0123456789abcdef";
                       pl_snippet := Some {| snippet_title := "Lessons";
                                             snippet_description := "";
                                             snippet_channelId := "UCx";
                                             snippet_channelTitle := "X" |} |} ]}).
Proof.
  apply (extract_playlists_single_playlist (fun title => title)
           (fun _ _ => BadStatus) (fun _ => HttpError)
           (fun playlist_id =>
              Items [{| pl_kind := "youtube#playlist"; pl_etag := "etag";
                        pl_id := playlist_id;
                        pl_snippet := Some {| snippet_title := "Lessons";
                                              snippet_description := "";
                                              snippet_channelId := "UCx";
                                              snippet_channelTitle := "X" |} |}])
           (fun ids => ids) "PL0123456789abcdef" None ∅
           {[ "playlist_PL0123456789abcdef" :=
                DPlaylist {| pl_kind := "youtube#playlist"; pl_etag := "etag";
                             pl_id := "PL0123456789abcdef";
                             pl_snippet := Some {| snippet_title := "Lessons";
                                                   snippet_description := "";
                                                   snippet_channelId := "UCx";
                                                   snippet_channelTitle := "X" |} |} ]}
           {| playlist_id := "PL0123456789abcdef"; title := "Lessons";
              description := ""; creator_id := "UCx"; creator_name := "X";
              slug := "Lessons" |}).
  - vm_compute. reflexivity.
  - reflexivity.
  - reflexivity.
Defined.

End ResolveExamples.

(** ** Subsets of the videos *)

Section SubsetMoreFacts.
Import Youtube.

Lemma filter_all {A} (P : A -> Prop) `{forall x, Decision (P x)} (l : list A) :
  Forall P l -> filter P l = l.
Proof.
  induction 1 as [|x l Hx _ IH]; [reflexivity|].
  rewrite filter_cons_True by assumption. now rewrite IH.
Qed.

Lemma filter_none {A} (P : A -> Prop) `{forall x, Decision (P x)} (l : list A) :
  Forall (fun x => ~ P x) l -> filter P l = [].
Proof.
  induction 1 as [|x l Hx _ IH]; [reflexivity|].
  now rewrite filter_cons_False.
Qed.

(** With distinct ids, keeping the ids of a prefix keeps the prefix. *)
Lemma keep_ids_prefix l1 l2 :
  NoDup (map video_id (l1 ++ l2)) ->
  keep_ids (map video_id l1) (l1 ++ l2) = l1.
Proof.
  intros Hnd. unfold keep_ids. rewrite filter_app.
  rewrite map_app in Hnd. apply NoDup_app in Hnd as (_ & Hdisj & _).
  rewrite filter_all, filter_none; [apply app_nil_r| |].
  - apply Forall_forall. intros v Hv Hin. apply (Hdisj (video_id v) Hin).
    apply list_elem_of_fmap. now exists v.
  - apply Forall_forall. intros v Hv. apply list_elem_of_fmap. now exists v.
Qed.

Lemma keep_ids_take k l :
  NoDup (map video_id l) -> keep_ids (take k (map video_id l)) l = take k l.
Proof.
  intros Hnd. change (map video_id l) with (video_id <$> l).
  rewrite <- fmap_take. rewrite <- (take_drop k l) at 2.
  apply keep_ids_prefix. now rewrite take_drop.
Qed.

Lemma keep_ids_slice l n :
  NoDup (map video_id l) -> keep_ids (slice_to (map video_id l) n) l = slice_to l n.
Proof.
  intros Hnd. unfold slice_to. rewrite length_map.
  destruct (0 <=? n); now apply keep_ids_take.
Qed.

Lemma mapM_result_inv {A B} (f : A -> result B) (l : list A) ys :
  mapM f l = Ok ys ->
  length ys = length l /\
  forall y x, (y, x) ∈ zip ys l -> f x = Ok y.
Proof.
  revert ys. induction l as [|x l IH]; intros ys H; simpl in H.
  - injection H as <-. split; [reflexivity|]. intros y x Hin. inversion Hin.
  - destruct (f x) as [y|e] eqn:Ey; [|discriminate]. simpl in H.
    destruct (mapM f l) as [ys'|e] eqn:Em; [|discriminate]. simpl in H.
    injection H as <-. destruct (IH ys' eq_refl) as [Hl Hz]. split.
    + simpl. now rewrite Hl.
    + intros y0 x0 Hin. simpl in Hin.
      apply elem_of_cons in Hin as [E|Hin]; [now injection E as -> ->|auto].
Qed.

Lemma sorted_reverse_inv {K} (gt : K -> K -> bool) key videos sorted :
  sorted_reverse gt key videos = Ok sorted -> sorted ≡ₚ videos.
Proof.
  unfold sorted_reverse. intros H.
  destruct (mapM key videos) as [keys|e] eqn:Ek; [|discriminate].
  simpl in H. injection H as <-.
  apply mapM_result_inv in Ek as [Hl _].
  rewrite sort_desc_perm. change (map snd ?l) with (l.*2).
  rewrite snd_zip by lia. reflexivity.
Qed.

Lemma sort_by_inv subset_by videos sorted :
  sort_by subset_by videos = Ok sorted -> sorted ≡ₚ videos.
Proof.
  unfold sort_by.
  destruct (String.eqb subset_by "views"); [apply sorted_reverse_inv|].
  destruct (String.eqb subset_by "recent"); [apply sorted_reverse_inv|].
  destruct (String.eqb subset_by "views-per-year"); [apply sorted_reverse_inv|].
  now intros [= <-].
Qed.

Lemma NoDup_ids_perm (l l' : list video) :
  l ≡ₚ l' -> NoDup (map video_id l') -> NoDup (map video_id l).
Proof.
  intros Hp Hnd. change (map video_id l) with (video_id <$> l).
  now rewrite Hp.
Qed.

(** X14: without a size budget, on videos of distinct ids, the subset is
    the ranking by [subset_by] cut like the slice [[:subset_videos]] (the
    whole ranking for 0), and the ranking holds the videos given. *)
Theorem subset_videos_json_truncates videos subset_by subset_videos ranked :
  NoDup (map video_id videos) ->
  sort_by subset_by videos = Ok ranked ->
  ranked ≡ₚ videos /\
  subset_videos_json videos subset_by subset_videos 0 =
    Ok (if subset_videos =? 0 then ranked else slice_to ranked subset_videos).
Proof.
  intros Hnd Hs. pose proof (sort_by_inv _ _ _ Hs) as Hp.
  split; [assumption|]. unfold subset_videos_json. rewrite Hs. simpl.
  destruct (subset_videos =? 0); simpl; [reflexivity|].
  rewrite keep_ids_slice; [reflexivity|]. eapply NoDup_ids_perm; eauto.
Qed.

Lemma subset_videos_json_truncates_witness :
  [example_small_video; example_big_video]
    ≡ₚ [example_big_video; example_small_video] /\
  subset_videos_json [example_big_video; example_small_video] "views" 1 0 =
    Ok (if 1 =? 0 then [example_small_video; example_big_video]
        else slice_to [example_small_video; example_big_video] 1).
Proof.
  apply (subset_videos_json_truncates [example_big_video; example_small_video]
           "views" 1 [example_small_video; example_big_video]).
  - apply (bool_decide_unpack _). vm_compute. exact I.
  - reflexivity.
Defined.

Lemma size_of_videos_app l1 l2 :
  size_of_videos (l1 ++ l2) = size_of_videos l1 + size_of_videos l2.
Proof.
  induction l1 as [|v l1 IH]; simpl; [reflexivity|].
  fold (size_of_videos (l1 ++ l2)). fold (size_of_videos l1). lia.
Qed.

(** The greedy loop answers a prefix of its list, within the budget. *)
Lemma budget_loop_prefix subset_gb videos videos_ids result :
  NoDup (map video_id videos) ->
  forall rest done total_size,
    videos = done ++ rest ->
    total_size = size_of_videos done ->
    total_size <= subset_gb ->
    Forall (fun v => is_Some (videoSize (video_statistics v))) done ->
    budget_loop subset_gb videos rest total_size (map video_id done) videos_ids
      = Ok result ->
    (exists k, result = take k videos) /\
    size_of_videos result <= subset_gb /\
    Forall (fun v => is_Some (videoSize (video_statistics v))) result.
Proof.
  intros Hnd. induction rest as [|v rest IH];
    intros done total Hv Ht Hle Hdone H; simpl in H.
  - injection H as <-. rewrite app_nil_r in Hv. subst videos. repeat split.
    + exists (length done). now rewrite firstn_all.
    + lia.
    + assumption.
  - assert (Hkeep : keep_ids (map video_id done) videos = done).
    { subst videos. now apply keep_ids_prefix. }
    assert (Hv' : videos = (done ++ [v]) ++ rest)
      by (rewrite <- app_assoc; exact Hv).
    assert (Hkeep' : keep_ids (map video_id done ++ [video_id v]) videos
                     = done ++ [v]).
    { change [video_id v] with (map video_id [v]).
      rewrite <- map_app. rewrite Hv' in Hnd |- *.
      now apply keep_ids_prefix. }
    unfold get_videoSize in H.
    destruct (videoSize (video_statistics v)) as [size|] eqn:Es;
      [|discriminate]. simpl in H.
    assert (Hdone' : Forall (fun v => is_Some (videoSize (video_statistics v)))
                       (done ++ [v])).
    { apply Forall_app. split; [assumption|]. constructor; [|constructor].
      rewrite Es. now eexists. }
    assert (Hsize : size_of_videos (done ++ [v]) = total + size).
    { rewrite size_of_videos_app. simpl. rewrite Es. simpl. lia. }
    destruct (total + size <=? subset_gb) eqn:Efit.
    + apply Z.leb_le in Efit.
      destruct (read_videos_ids videos_ids) as [ids|e]; [|discriminate].
      simpl in H. destruct (py_last ids) as [last_id|e]; [|discriminate].
      simpl in H. destruct (String.eqb (video_id v) last_id).
      * injection H as <-. rewrite Hkeep'. repeat split.
        -- exists (length (done ++ [v])). rewrite Hv'.
           now rewrite take_app_length.
        -- lia.
        -- assumption.
      * apply (IH (done ++ [v]) (total + size)); auto.
        now rewrite map_app.
    + injection H as <-. rewrite Hkeep. repeat split.
      * exists (length done). subst videos. now rewrite take_app_length.
      * lia.
      * assumption.
Qed.

(** X15: on videos of distinct ids and with a positive [subset_gb], what
    [subset_videos_json] returns fits in the budget: the sizes of the videos
    returned, which all carry one, add up to at most [subset_gb] gibibytes;
    and every video returned is one of those given. *)
Theorem subset_videos_json_within_budget videos subset_by subset_videos
    subset_gb result :
  NoDup (map video_id videos) ->
  0 < subset_gb ->
  subset_videos_json videos subset_by subset_videos subset_gb = Ok result ->
  size_of_videos result <= subset_gb * 1024 * 1024 * 1024 /\
  forall v, v ∈ result ->
    v ∈ videos /\ is_Some (videoSize (video_statistics v)).
Proof.
  intros Hnd Hgb H. unfold subset_videos_json in H.
  destruct (sort_by subset_by videos) as [ranked|e] eqn:Hs; [|discriminate].
  simpl in H. pose proof (sort_by_inv _ _ _ Hs) as Hp.
  assert (Hnd1 : NoDup (map video_id ranked)) by (eapply NoDup_ids_perm; eauto).
  set (kept := if negb (subset_videos =? 0)
               then (keep_ids (slice_to (map video_id ranked) subset_videos) ranked,
                     Some (map video_id ranked))
               else (ranked, None)) in H.
  assert (Hkept : (forall v, v ∈ kept.1 -> v ∈ ranked) /\
                  NoDup (map video_id kept.1)).
  { unfold kept. destruct (negb (subset_videos =? 0)); simpl; [|auto].
    rewrite keep_ids_slice by assumption. unfold slice_to. split.
    - intros v Hv. destruct (0 <=? subset_videos);
        eapply elem_of_sublist; eauto using sublist_take.
    - change (map video_id ?l) with (video_id <$> l).
      destruct (0 <=? subset_videos); rewrite fmap_take;
        eapply sublist_NoDup; eauto using sublist_take. }
  destruct kept as [kept ids]. simpl in Hkept. destruct Hkept as [Hsub Hnd2].
  replace (negb (subset_gb =? 0)) with true in H
    by (symmetry; apply negb_true_iff, Z.eqb_neq; lia).
  destruct (sorted_reverse Z.gtb key_viewPerYear kept) as [resorted|e] eqn:Hr;
    [|discriminate].
  simpl in H. pose proof (sorted_reverse_inv _ _ _ _ Hr) as Hp2.
  apply (budget_loop_prefix _ _ _ _ (NoDup_ids_perm _ _ Hp2 Hnd2) resorted [] 0)
    in H as ((k & ->) & Hsize & Hsized); auto; [|lia].
  split; [assumption|]. intros v Hv. split.
  - rewrite <- Hp. apply Hsub. rewrite <- Hp2.
    eapply elem_of_sublist; eauto using sublist_take.
  - rewrite Forall_forall in Hsized. auto.
Qed.

End SubsetMoreFacts.

(** ** The rankings are descending *)

Section RankingFacts.
Import Youtube.

Section Descending.
Context {K A : Type} (gt : K -> K -> bool).
Hypothesis gt_asym : forall a b, gt a b = true -> gt b a = false.
Hypothesis le_trans : forall a b c,
  gt a b = false -> gt b c = false -> gt a c = false.

Lemma insert_desc_sorted (x : K * A) l :
  StronglySorted (not_above gt) l -> StronglySorted (not_above gt) (insert_desc gt x l).
Proof.
  induction 1 as [|y t Ht IH Hy]; simpl.
  - repeat constructor.
  - destruct (gt y.1 x.1) eqn:E.
    + constructor; [assumption|]. rewrite insert_desc_perm.
      constructor; [|assumption]. now apply gt_asym.
    + constructor; [now constructor|]. constructor; [exact E|].
      eapply Forall_impl; [exact Hy|]. intros z Hz. unfold not_above in *.
      eapply le_trans; eauto.
Qed.

Lemma sort_desc_sorted (l : list (K * A)) : StronglySorted (not_above gt) (sort_desc gt l).
Proof.
  induction l as [|x l IH]; simpl; [constructor|].
  now apply insert_desc_sorted.
Qed.

Lemma sorted_lookup (l : list (K * A)) :
  StronglySorted (not_above gt) l ->
  forall i j x y, (i < j)%nat -> l !! i = Some x -> l !! j = Some y ->
                  not_above gt x y.
Proof.
  induction 1 as [|z t Ht IH Hz]; intros i j x y Hij Hi Hj; [discriminate|].
  destruct j as [|j]; [lia|]. simpl in Hj. destruct i as [|i].
  - injection Hi as <-. rewrite Forall_forall in Hz. apply Hz.
    eapply list_elem_of_lookup_2; eauto.
  - simpl in Hi. apply (IH i j); auto. lia.
Qed.

End Descending.

Lemma Zgtb_asym a b : (a >? b) = true -> (b >? a) = false.
Proof. rewrite !Z.gtb_ltb. intros H%Z.ltb_lt. apply Z.ltb_ge. lia. Qed.

Lemma Zgtb_le_trans a b c :
  (a >? b) = false -> (b >? c) = false -> (a >? c) = false.
Proof.
  rewrite !Z.gtb_ltb. intros H1%Z.ltb_ge H2%Z.ltb_ge. apply Z.ltb_ge. lia.
Qed.

Lemma string_compare_refl s : (s ?= s)%string = Eq.
Proof.
  pose proof (String.compare_antisym s s) as H.
  destruct (s ?= s)%string; simpl in H; congruence.
Qed.

Lemma string_compare_ge_trans : forall c b a : string,
  (c ?= b)%string <> Lt -> (b ?= a)%string <> Lt -> (c ?= a)%string <> Lt.
Proof.
  induction c as [|x c IH]; intros [|y b] [|z a]; simpl; try congruence.
  unfold Ascii.compare.
  destruct (N.compare_spec (N_of_ascii x) (N_of_ascii y)),
           (N.compare_spec (N_of_ascii y) (N_of_ascii z)),
           (N.compare_spec (N_of_ascii x) (N_of_ascii z));
    try congruence; try lia; eauto.
Qed.

Lemma string_gt_asym a b : string_gt a b = true -> string_gt b a = false.
Proof.
  unfold string_gt, String.ltb. rewrite (String.compare_antisym b a).
  destruct (a ?= b)%string; simpl; congruence.
Qed.

Lemma string_gt_le_trans a b c :
  string_gt a b = false -> string_gt b c = false -> string_gt a c = false.
Proof.
  unfold string_gt, String.ltb. intros H1 H2.
  pose proof (string_compare_ge_trans c b a) as H.
  destruct (c ?= b)%string, (b ?= a)%string, (c ?= a)%string;
    try discriminate; try reflexivity; exfalso; apply H; congruence.
Qed.

(** In a ranking, a video placed after another one has no greater key. *)
Lemma sorted_reverse_sorted {K} (gt : K -> K -> bool) key videos ranked :
  (forall a b, gt a b = true -> gt b a = false) ->
  (forall a b c, gt a b = false -> gt b c = false -> gt a c = false) ->
  sorted_reverse gt key videos = Ok ranked ->
  forall i j a b ka kb,
    (i < j)%nat -> ranked !! i = Some a -> ranked !! j = Some b ->
    key a = Ok ka -> key b = Ok kb -> gt kb ka = false.
Proof.
  intros Hasym Htrans H i j a b ka kb Hij Hi Hj Ha Hb.
  unfold sorted_reverse in H.
  destruct (mapM key videos) as [keys|e] eqn:Ek; [|discriminate].
  simpl in H. injection H as <-.
  apply mapM_result_inv in Ek as [_ Hz].
  change (map snd ?l) with (l.*2) in Hi, Hj.
  rewrite list_lookup_fmap in Hi, Hj.
  destruct (sort_desc gt (zip keys videos) !! i) as [[ka' a']|] eqn:Ei;
    [|discriminate].
  destruct (sort_desc gt (zip keys videos) !! j) as [[kb' b']|] eqn:Ej;
    [|discriminate].
  simpl in Hi, Hj. injection Hi as ->. injection Hj as ->.
  assert (ka' = ka) as ->.
  { apply list_elem_of_lookup_2 in Ei. rewrite sort_desc_perm in Ei.
    apply Hz in Ei. congruence. }
  assert (kb' = kb) as ->.
  { apply list_elem_of_lookup_2 in Ej. rewrite sort_desc_perm in Ej.
    apply Hz in Ej. congruence. }
  apply (sorted_lookup gt _ (sort_desc_sorted gt Hasym Htrans _) i j
           (ka, a) (kb, b) Hij Ei Ej).
Qed.

Lemma NoDup_ids_inj (l : list video) a b :
  NoDup (map video_id l) -> a ∈ l -> b ∈ l -> video_id a = video_id b -> a = b.
Proof.
  intros Hnd Ha Hb E.
  apply list_elem_of_lookup_1 in Ha as [i Hi].
  apply list_elem_of_lookup_1 in Hb as [j Hj].
  assert (i = j) as ->.
  { apply (NoDup_lookup (map video_id l) i j (video_id a)); [assumption| |].
    - change (map video_id l) with (video_id <$> l).
      now rewrite list_lookup_fmap, Hi.
    - change (map video_id l) with (video_id <$> l).
      now rewrite list_lookup_fmap, Hj, E. }
  congruence.
Qed.

(** X16: the size budget can keep less than what fits.  When every video
    is kept by the count ([subset_videos] at least their number), and the
    video ranked last by [subset_by] has the most views per year and fits in
    the budget, that video is returned alone: the greedy loop takes it
    first, finds the id that ends the first ranking and stops, whatever the
    sizes of the others. *)
Theorem subset_videos_json_stops_at_last videos subset_by subset_videos
    subset_gb ranked v size :
  NoDup (map video_id videos) ->
  sort_by subset_by videos = Ok ranked ->
  last ranked = Some v ->
  Z.of_nat (length videos) <= subset_videos ->
  subset_gb <> 0 ->
  videoSize (video_statistics v) = Some size ->
  size <= subset_gb * 1024 * 1024 * 1024 ->
  (exists y, viewPerYear (video_statistics v) = Some y /\
     forall w, w ∈ videos -> w <> v ->
       exists y', viewPerYear (video_statistics w) = Some y' /\ y' < y) ->
  subset_videos_json videos subset_by subset_videos subset_gb = Ok [v].
Proof.
  intros Hnd Hs Hlast Hn Hgb Hsize Hfit (y & Hy & Hmax).
  pose proof (sort_by_inv _ _ _ Hs) as Hp.
  assert (Hnd1 : NoDup (map video_id ranked)) by (eapply NoDup_ids_perm; eauto).
  assert (Hv : v ∈ ranked).
  { apply last_Some in Hlast as [l' ->]. apply elem_of_app. right. now left. }
  assert (Hlen : length ranked = length videos) by now rewrite Hp.
  assert (Hpos : 0 < subset_videos).
  { destruct ranked; [inversion Hv|]. simpl in Hlen. lia. }
  unfold subset_videos_json. rewrite Hs. simpl.
  replace (subset_videos =? 0) with false by (symmetry; apply Z.eqb_neq; lia).
  replace (subset_gb =? 0) with false by (symmetry; now apply Z.eqb_neq).
  simpl. rewrite keep_ids_slice by assumption. unfold slice_to.
  replace (0 <=? subset_videos) with true by (symmetry; apply Z.leb_le; lia).
  rewrite take_ge by lia.
  assert (Hkeys : Forall (fun w => exists k, key_viewPerYear w = Ok k) ranked).
  { apply Forall_forall. intros w Hw. unfold key_viewPerYear.
    destruct (decide (video_id w = video_id v)) as [E|E].
    - apply (NoDup_ids_inj ranked) in E as ->; auto. rewrite Hy. now eexists.
    - destruct (Hmax w) as (y' & -> & _); [now rewrite <- Hp|congruence|].
      now eexists. }
  destruct (sorted_reverse_ok Z.gtb key_viewPerYear ranked Hkeys)
    as (resorted & Hr & Hp2).
  rewrite Hr. simpl.
  assert (Hhead : exists rest, resorted = v :: rest).
  { assert (Hv2 : v ∈ resorted) by now rewrite Hp2.
    apply list_elem_of_lookup_1 in Hv2 as [j Hj].
    destruct resorted as [|v0 rest]; [discriminate|].
    destruct j as [|j]; [injection Hj as ->; now eexists|].
    destruct (decide (video_id v0 = video_id v)) as [E|E].
    - apply (NoDup_ids_inj ranked) in E as ->; auto; [now eexists|].
      rewrite <- Hp2. now left.
    - destruct (Hmax v0) as (y' & Hy' & Hlt);
        [rewrite <- Hp, <- Hp2; now left|congruence|].
      pose proof (sorted_reverse_sorted Z.gtb key_viewPerYear ranked
                    (v0 :: rest) Zgtb_asym Zgtb_le_trans Hr 0%nat (S j) v0 v y' y)
        as Hord.
      unfold key_viewPerYear in Hord. rewrite Hy, Hy' in Hord.
      specialize (Hord ltac:(lia) eq_refl Hj eq_refl eq_refl).
      rewrite Z.gtb_ltb in Hord. apply Z.ltb_ge in Hord. lia. }
  destruct Hhead as [rest ->]. simpl.
  unfold get_videoSize. rewrite Hsize. simpl. rewrite Z.add_0_l.
  replace (size <=? subset_gb * 1024 * 1024 * 1024) with true
    by (symmetry; now apply Z.leb_le).
  simpl. unfold py_last. change (map video_id ranked) with (video_id <$> ranked).
  rewrite fmap_last, Hlast. simpl. rewrite String.eqb_refl.
  f_equal. apply (keep_ids_prefix [v] rest).
  eapply NoDup_ids_perm; eauto.
Qed.

(** The example: ranked by views, the video of two gibibytes comes last;
    it has the most views per year and fits in three gibibytes, and the
    video of a hundred bytes is dropped. *)
Lemma subset_videos_json_stops_at_last_witness :
  subset_videos_json [example_big_video; example_small_video] "views" 2 3
    = Ok [example_big_video].
Proof.
  apply (subset_videos_json_stops_at_last
           [example_big_video; example_small_video] "views" 2 3
           [example_small_video; example_big_video] example_big_video
           (2 * 1024 * 1024 * 1024)).
  - apply (bool_decide_unpack _). vm_compute. exact I.
  - reflexivity.
  - reflexivity.
  - simpl. lia.
  - lia.
  - reflexivity.
  - lia.
  - exists 6. split; [reflexivity|]. intros w Hw Hne.
    apply elem_of_cons in Hw as [->|Hw]; [contradiction|].
    apply list_elem_of_singleton in Hw as ->.
    exists 3. split; [reflexivity|lia].
Defined.

(** X17: the ranking by views compares the view counts as the strings
    they are: a video whose count is the greater string is placed first,
    whatever the numbers they write. *)
Theorem sort_by_views_compares_strings videos ranked :
  sort_by "views" videos = Ok ranked ->
  ranked ≡ₚ videos /\
  forall i j a b,
    ranked !! i = Some a -> ranked !! j = Some b ->
    String.ltb (viewCount (video_statistics a))
               (viewCount (video_statistics b)) = true ->
    (j < i)%nat.
Proof.
  intros H. split; [now apply sort_by_inv in H|].
  intros i j a b Hi Hj Hlt.
  change (sort_by "views" videos) with
    (sorted_reverse string_gt key_viewCount videos) in H.
  destruct (lt_eq_lt_dec i j) as [[Hij|Hij]|Hij]; [| |assumption].
  - pose proof (sorted_reverse_sorted string_gt key_viewCount videos ranked
                  string_gt_asym string_gt_le_trans H i j a b _ _ Hij Hi Hj
                  eq_refl eq_refl) as Hord.
    unfold string_gt in Hord. congruence.
  - subst j. assert (a = b) as -> by congruence.
    unfold String.ltb in Hlt. now rewrite string_compare_refl in Hlt.
Qed.

(** Nine views are ranked before a thousand. *)
Lemma sort_by_views_compares_strings_witness :
  [{| video_id := "nine"; publishedAt := "2024-05-06T07:08:09Z";
      video_statistics := {| viewCount := "9"; viewPerYear := None;
                             videoSize := None |} |};
   {| video_id := "thousand"; publishedAt := "2024-05-06T07:08:09Z";
      video_statistics := {| viewCount := "1000"; viewPerYear := None;
                             videoSize := None |} |}]
  ≡ₚ [{| video_id := "thousand"; publishedAt := "2024-05-06T07:08:09Z";
         video_statistics := {| viewCount := "1000"; viewPerYear := None;
                                videoSize := None |} |};
      {| video_id := "nine"; publishedAt := "2024-05-06T07:08:09Z";
         video_statistics := {| viewCount := "9"; viewPerYear := None;
                                videoSize := None |} |}] /\
  forall i j a b,
    [{| video_id := "nine"; publishedAt := "2024-05-06T07:08:09Z";
        video_statistics := {| viewCount := "9"; viewPerYear := None;
                               videoSize := None |} |};
     {| video_id := "thousand"; publishedAt := "2024-05-06T07:08:09Z";
        video_statistics := {| viewCount := "1000"; viewPerYear := None;
                               videoSize := None |} |}] !! i = Some a ->
    [{| video_id := "nine"; publishedAt := "2024-05-06T07:08:09Z";
        video_statistics := {| viewCount := "9"; viewPerYear := None;
                               videoSize := None |} |};
     {| video_id := "thousand"; publishedAt := "2024-05-06T07:08:09Z";
        video_statistics := {| viewCount := "1000"; viewPerYear := None;
                               videoSize := None |} |}] !! j = Some b ->
    String.ltb (viewCount (video_statistics a))
               (viewCount (video_statistics b)) = true ->
    (j < i)%nat.
Proof.
  apply (sort_by_views_compares_strings
           [{| video_id := "thousand"; publishedAt := "2024-05-06T07:08:09Z";
               video_statistics := {| viewCount := "1000"; viewPerYear := None;
                                      videoSize := None |} |};
            {| video_id := "nine"; publishedAt := "2024-05-06T07:08:09Z";
               video_statistics := {| viewCount := "9"; viewPerYear := None;
                                      videoSize := None |} |}]).
  reflexivity.
Defined.

Lemma subset_videos_json_within_budget_witness :
  size_of_videos [example_big_video; example_small_video]
    <= 3 * 1024 * 1024 * 1024 /\
  forall v, v ∈ [example_big_video; example_small_video] ->
    v ∈ [example_big_video; example_small_video] /\
    is_Some (videoSize (video_statistics v)).
Proof.
  apply (subset_videos_json_within_budget
           [example_big_video; example_small_video] "views-per-year" 2 3
           [example_big_video; example_small_video]).
  - apply (bool_decide_unpack _). vm_compute. exact I.
  - lia.
  - reflexivity.
Defined.

End RankingFacts.

(** ** [get_video_json] on a platform that answers every chunk *)

Section EnrichFacts.
Import Youtube.

Variable videos_api : list string -> videos_response.
Variable now_year : Z.
Variable filesize_approx : string -> option Z.
Variable int_of_str : string -> result Z.
Variable strptime_year : string -> result Z.

(** What the platform knows of a video id. *)
Variable info : string -> video.

Hypothesis videos_api_chunk : forall chunk,
  chunk <> [] -> (length chunk <= 50)%nat ->
  videos_api chunk = VideosItems (map info chunk).

Lemma fetch_chunks_all videos_ids : forall m s all_videos_json,
  (forall k, (s <= k < s + m)%nat -> (k * 50 < length videos_ids)%nat) ->
  (length videos_ids <= (s + m) * 50)%nat ->
  all_videos_json = map info (take (s * 50) videos_ids) ->
  fetch_chunks videos_api videos_ids
    (map (fun k => (k * 50)%nat) (seq s m)) all_videos_json
  = Ok (map info videos_ids).
Proof.
  induction m as [|m IH]; intros s acc Hlt Hge ->.
  - cbn [seq map fetch_chunks]. now rewrite take_ge by lia.
  - cbn [seq map fetch_chunks].
    assert (Hs : (s * 50 < length videos_ids)%nat) by (apply Hlt; lia).
    rewrite videos_api_chunk.
    + apply IH.
      * intros k Hk. apply Hlt. lia.
      * lia.
      * rewrite <- map_app, take_take_drop. f_equal. f_equal. lia.
    + intros E. apply (f_equal length) in E.
      rewrite length_take, length_drop in E.
      change (length (@nil string)) with 0%nat in E. lia.
    + rewrite length_take. lia.
Qed.

Lemma py_range_chunks n :
  py_range n 50 = map (fun k => (k * 50)%nat) (seq 0 ((n + 49) / 50)) /\
  (forall k, (k < (n + 49) / 50)%nat -> (k * 50 < n)%nat) /\
  (n <= (n + 49) / 50 * 50)%nat.
Proof.
  pose proof (Nat.div_mod_eq (n + 49) 50) as E.
  pose proof (Nat.mod_upper_bound (n + 49) 50 ltac:(lia)) as Hm.
  split; [|split].
  - unfold py_range. now replace (n + 50 - 1)%nat with (n + 49)%nat by lia.
  - intros k Hk. nia.
  - lia.
Qed.

(** What the second loop leaves in the two dictionaries. *)
Lemma stats_loop_enrich : forall videos_ids views_per_year videos_size,
  (forall id, id ∈ videos_ids ->
     video_id (info id) = id /\
     exists views year n,
       int_of_str (viewCount (video_statistics (info id))) = Ok views /\
       strptime_year (publishedAt (info id)) = Ok year /\
       view_per_year views (now_year - year) = Ok n) ->
  exists views_per_year' videos_size',
    stats_loop now_year filesize_approx int_of_str strptime_year
      (map info videos_ids) views_per_year videos_size
      = Ok (views_per_year', videos_size') /\
    (forall id, id ∈ videos_ids ->
       videos_size' !! id = Some (default 0 (filesize_approx id)) /\
       exists views year n,
         int_of_str (viewCount (video_statistics (info id))) = Ok views /\
         strptime_year (publishedAt (info id)) = Ok year /\
         view_per_year views (now_year - year) = Ok n /\
         views_per_year' !! id = Some n) /\
    (forall id, id ∉ videos_ids ->
       views_per_year' !! id = views_per_year !! id /\
       videos_size' !! id = videos_size !! id).
Proof.
  induction videos_ids as [|id0 ids IH]; intros vp vs Hinfo.
  - exists vp, vs. split; [reflexivity|]. split; [|auto].
    intros id Hid. inversion Hid.
  - destruct (Hinfo id0 ltac:(left)) as (Eid & views & year & n & Ev & Ey & En).
    cbn [map stats_loop]. rewrite Ev, Ey, Eid. cbn [mbind result_bind].
    rewrite En. cbn [mbind result_bind].
    destruct (IH (<[id0 := n]> vp)
                 (<[id0 := default 0 (filesize_approx id0)]> vs))
      as (vp' & vs' & -> & Hin & Hout).
    { intros id Hid. apply Hinfo. now right. }
    exists vp', vs'. split; [reflexivity|]. split.
    + intros id Hid. destruct (decide (id ∈ ids)) as [Hi|Hi]; [now apply Hin|].
      apply elem_of_cons in Hid as [->|Hid]; [|contradiction].
      destruct (Hout id0 Hi) as [-> ->]. rewrite !lookup_insert_eq.
      split; [reflexivity|]. now exists views, year, n.
    + intros id Hid. apply not_elem_of_cons in Hid as [Hne Hid].
      destruct (Hout id Hid) as [-> ->].
      now rewrite !lookup_insert_ne by congruence.
Qed.

Lemma inject_loop_enrich views_per_year videos_size : forall videos_ids,
  (forall id, id ∈ videos_ids ->
     video_id (info id) = id /\
     is_Some (views_per_year !! id) /\ is_Some (videos_size !! id)) ->
  exists result,
    inject_loop (map info videos_ids) views_per_year videos_size = Ok result /\
    map video_id result = videos_ids /\
    forall i v, result !! i = Some v ->
      publishedAt v = publishedAt (info (video_id v)) /\
      viewCount (video_statistics v)
        = viewCount (video_statistics (info (video_id v))) /\
      viewPerYear (video_statistics v) = views_per_year !! video_id v /\
      videoSize (video_statistics v) = videos_size !! video_id v.
Proof.
  induction videos_ids as [|id0 ids IH]; intros Hinfo.
  - exists []. split; [reflexivity|]. split; [reflexivity|].
    intros i v Hv. discriminate.
  - destruct (Hinfo id0 ltac:(left)) as (Eid & [n Hn] & [m Hm]).
    destruct IH as (rest & Hrest & Hids & Hget).
    { intros id Hid. apply Hinfo. now right. }
    cbn [map inject_loop]. unfold dict_get. rewrite Eid, Hn, Hm. simpl.
    rewrite Hrest. simpl. eexists. split; [reflexivity|]. split.
    + simpl. now rewrite Hids.
    + intros [|i] v Hv; simpl in Hv; [|now apply (Hget i)].
      injection Hv as <-. simpl. auto.
Qed.

(** X18: when the platform answers every chunk of at most 50 ids with the
    videos of these ids, in order, and for each of them [int] reads the view
    count, [strptime] reads the publication date and
    [int(views / years + 1)] does not overflow, [get_video_json] returns: one
    video per id given, in the order given (the chunks [[i : i + 50]] cover
    the list, none is empty and none exceeds 50), each with the [videoSize]
    the probe found, or 0 when the probe failed, and with that number as its
    [viewPerYear]. *)
Theorem get_video_json_enriches videos_ids :
  (forall id, id ∈ videos_ids ->
     video_id (info id) = id /\
     exists views year n,
       int_of_str (viewCount (video_statistics (info id))) = Ok views /\
       strptime_year (publishedAt (info id)) = Ok year /\
       view_per_year views (now_year - year) = Ok n) ->
  exists result,
    get_video_json videos_api now_year filesize_approx int_of_str
      strptime_year videos_ids = Ok result /\
    map video_id result = videos_ids /\
    forall i v, result !! i = Some v ->
      publishedAt v = publishedAt (info (video_id v)) /\
      viewCount (video_statistics v)
        = viewCount (video_statistics (info (video_id v))) /\
      videoSize (video_statistics v)
        = Some (default 0 (filesize_approx (video_id v))) /\
      exists views year n,
        int_of_str (viewCount (video_statistics v)) = Ok views /\
        strptime_year (publishedAt v) = Ok year /\
        view_per_year views (now_year - year) = Ok n /\
        viewPerYear (video_statistics v) = Some n.
Proof.
  intros Hinfo. unfold get_video_json.
  destruct (py_range_chunks (length videos_ids)) as (-> & Hlt & Hge).
  rewrite (fetch_chunks_all videos_ids _ 0 []);
    [|intros k Hk; apply Hlt; lia|exact Hge|reflexivity].
  cbn [mbind result_bind].
  destruct (stats_loop_enrich videos_ids ∅ ∅ Hinfo)
    as (vp & vs & -> & Hin & _).
  cbn [mbind result_bind].
  destruct (inject_loop_enrich vp vs videos_ids) as (result & -> & Hids & Hget).
  { intros id Hid. destruct (Hinfo id Hid) as [Eid _].
    destruct (Hin id Hid) as (Hs & views & year & n & _ & _ & _ & Hv).
    rewrite Hs, Hv. repeat split; auto; now eexists. }
  exists result. split; [reflexivity|]. split; [assumption|].
  intros i v Hv. destruct (Hget i v Hv) as (Ep & Ec & Evpy & Esize).
  assert (Hid : video_id v ∈ videos_ids).
  { rewrite <- Hids. apply list_elem_of_fmap. exists v. split; [reflexivity|].
    eapply list_elem_of_lookup_2; eauto. }
  destruct (Hin _ Hid) as (Hs & views & year & n & Hviews & Hyear & Hn & Hvp).
  repeat split; auto; [congruence|].
  exists views, year, n. rewrite Ec, Ep. repeat split; auto. congruence.
Qed.

End EnrichFacts.

Section EnrichExamples.
Import Youtube.

(** Fifty-one ids make two requests; every video comes back enriched. *)
Lemma get_video_json_enriches_witness :
  exists result,
    get_video_json
      (fun chunk =>
         if bool_decide (chunk <> [] /\ (length chunk <= 50)%nat)
         then VideosItems
                   (map (fun id =>
                           {| video_id := id;
                              publishedAt := "2024-05-06T07:08:09Z";
                              video_statistics :=
                                {| viewCount := "10"; viewPerYear := None;
                                   videoSize := None |} |}) chunk)
         else VideosError)
      2026 example_probe py_int example_strptime_year (replicate 51 "a")
      = Ok result /\
    map video_id result = replicate 51 "a" /\
    forall i v, result !! i = Some v ->
      publishedAt v = "2024-05-06T07:08:09Z" /\
      viewCount (video_statistics v) = "10" /\
      videoSize (video_statistics v)
        = Some (default 0 (example_probe (video_id v))) /\
      exists views year n,
        py_int (viewCount (video_statistics v)) = Ok views /\
        example_strptime_year (publishedAt v) = Ok year /\
        view_per_year views (2026 - year) = Ok n /\
        viewPerYear (video_statistics v) = Some n.
Proof.
  apply (get_video_json_enriches
           (fun chunk =>
              if bool_decide (chunk <> [] /\ (length chunk <= 50)%nat)
              then VideosItems
                   (map (fun id =>
                                {| video_id := id;
                                   publishedAt := "2024-05-06T07:08:09Z";
                                   video_statistics :=
                                     {| viewCount := "10"; viewPerYear := None;
                                        videoSize := None |} |}) chunk)
              else VideosError)
           2026 example_probe py_int example_strptime_year
           (fun id =>
              {| video_id := id;
                 publishedAt := "2024-05-06T07:08:09Z";
                 video_statistics :=
                   {| viewCount := "10"; viewPerYear := None;
                      videoSize := None |} |})).
  - intros chunk Hne Hlen. now rewrite bool_decide_eq_true_2.
  - intros id _. split; [reflexivity|]. exists 10, 2024, 6.
    repeat split; vm_compute; reflexivity.
Defined.

End EnrichExamples.

(** ** The download phase as a whole *)

Section RunFacts.
Import Downloader.

Lemma collect_all_failed w batches : forall succeeded failed s f,
  collect (map (download_video_files_batch w) batches) succeeded failed
    = Ok (s, f) ->
  s = succeeded /\ f = failed ++ concat batches.
Proof.
  induction batches as [|batch batches IH]; intros succeeded failed s f H;
    simpl in H.
  - injection H as <- <-. now rewrite app_nil_r.
  - destruct (download_video_files_batch w batch) as [[bs bf]|e] eqn:Eb;
      [|discriminate].
    apply batch_loop_all_failed in Eb as [-> ->]. simpl in H.
    apply IH in H as [-> ->]. rewrite app_nil_r. simpl.
    now rewrite app_assoc.
Qed.

Lemma batch_loop_returns w videos_ids :
  (forall id e, video_step w id <> Uncaught e) ->
  forall succeeded failed,
    batch_loop w videos_ids succeeded failed = Ok (succeeded, failed ++ videos_ids).
Proof.
  intros Hw. induction videos_ids as [|id rest IH]; intros succeeded failed.
  - simpl. now rewrite app_nil_r.
  - simpl. unfold download_video.
    destruct (video_step w id) as [| |e] eqn:Es; simpl.
    + rewrite IH. now rewrite <- app_assoc.
    + rewrite IH. now rewrite <- app_assoc.
    + now destruct (Hw id e).
Qed.

Lemma collect_returns w batches :
  (forall id e, video_step w id <> Uncaught e) ->
  forall succeeded failed,
    collect (map (download_video_files_batch w) batches) succeeded failed
      = Ok (succeeded, failed ++ concat batches).
Proof.
  intros Hw. induction batches as [|batch batches IH]; intros succeeded failed.
  - simpl. now rewrite app_nil_r.
  - simpl. unfold download_video_files_batch.
    rewrite (batch_loop_returns w batch Hw). simpl.
    rewrite IH, app_nil_r. now rewrite app_assoc.
Qed.

(** The batches of the download phase hold the ids given. *)
Lemma download_batches_perm
    (done_order : list (list string) -> list (list string))
    videos_ids max_concurrency :
  (forall batches, done_order batches ≡ₚ batches) ->
  concat (if concurrency_of (Z.of_nat (length videos_ids)) max_concurrency <=? 1
          then batches_of videos_ids max_concurrency
          else done_order (batches_of videos_ids max_concurrency))
    ≡ₚ videos_ids.
Proof.
  intros Hperm. unfold batches_of.
  destruct (Z.leb_spec
              (concurrency_of (Z.of_nat (length videos_ids)) max_concurrency) 1)
    as [Hle|Hgt].
  - simpl. now rewrite app_nil_r.
  - rewrite Hperm.
    now destruct (round_robin_spec
                    (Z.to_nat (concurrency_of (Z.of_nat (length videos_ids))
                                 max_concurrency))
                    videos_ids ltac:(lia)) as (_ & _ & ->).
Qed.

(** A batch raises only what the engine raised past the handlers of
    [download_video]. *)
Lemma batch_loop_raises w videos_ids : forall succeeded failed e,
  batch_loop w videos_ids succeeded failed = Raise e ->
  exists id, id ∈ videos_ids /\ video_step w id = Uncaught e.
Proof.
  induction videos_ids as [|id rest IH]; intros succeeded failed e H;
    [discriminate|].
  cbn [batch_loop] in H. unfold download_video in H.
  destruct (video_step w id) as [| |e0] eqn:Es; cbn in H.
  - destruct (IH _ _ _ H) as (id' & Hin & Hid'). exists id'.
    split; [now right|assumption].
  - destruct (IH _ _ _ H) as (id' & Hin & Hid'). exists id'.
    split; [now right|assumption].
  - injection H as ->. exists id. split; [left|assumption].
Qed.

Lemma collect_raises w batches : forall succeeded failed e,
  collect (map (download_video_files_batch w) batches) succeeded failed
    = Raise e ->
  exists id, id ∈ concat batches /\ video_step w id = Uncaught e.
Proof.
  induction batches as [|batch batches IH]; intros succeeded failed e H;
    [discriminate|].
  cbn [map collect] in H.
  destruct (download_video_files_batch w batch) as [[bs bf]|e0] eqn:Eb.
  - cbn [mbind result_bind] in H.
    destruct (IH _ _ _ H) as (id & Hin & Hid). exists id.
    split; [|assumption]. cbn [concat]. apply elem_of_app. now right.
  - cbn [mbind result_bind] in H. injection H as ->.
    apply batch_loop_raises in Eb as (id & Hin & Hid). exists id.
    split; [|assumption]. cbn [concat]. apply elem_of_app. now left.
Qed.

Lemma format_extensions_spec video_format :
  (video_format = "webm" \/ video_format = "mp4" ->
   exists extensions, format_extensions video_format = Ok extensions) /\
  (video_format <> "webm" -> video_format <> "mp4" ->
   format_extensions video_format = Raise KeyError).
Proof.
  unfold format_extensions.
  destruct (String.eqb_spec video_format "webm") as [->|Hw].
  - split; [eauto|congruence].
  - destruct (String.eqb_spec video_format "mp4") as [->|Hm].
    + split; [eauto|congruence].
    + split; [intros [?|?]; contradiction|reflexivity].
Qed.

(** X19: with at least one video to download, the download step of [run]
    (the call of [download_video_files] and the check of the two lists it
    returns) never hands a list on.  A format that is neither [webm] nor
    [mp4] makes the lookup of the extensions raise [KeyError]; with one of
    the two, as no id is ever recorded as succeeded, the phase returns every
    id as failed and the check raises [OSError], unless the engine raises,
    for one of the ids, an exception that the handlers of [download_video]
    do not catch; nothing else is raised.  (The finished batches are read in
    any order.) *)
Theorem run_download_phase_never_passes video_format w
    (done_order : list (list string) -> list (list string))
    videos_ids max_concurrency :
  videos_ids <> [] ->
  (forall batches, done_order batches ≡ₚ batches) ->
  (forall succeeded,
     run_download_phase video_format w done_order videos_ids max_concurrency
       <> Ok succeeded) /\
  (video_format <> "webm" -> video_format <> "mp4" ->
   run_download_phase video_format w done_order videos_ids max_concurrency
     = Raise KeyError) /\
  (video_format = "webm" \/ video_format = "mp4" ->
   (forall id e, video_step w id <> Uncaught e) ->
   run_download_phase video_format w done_order videos_ids max_concurrency
     = Raise (OSError "Too much videos failed to download")) /\
  (forall e,
     run_download_phase video_format w done_order videos_ids max_concurrency
       = Raise e ->
     (e = KeyError /\ video_format <> "webm" /\ video_format <> "mp4") \/
     e = OSError "Too much videos failed to download" \/
     exists id, id ∈ videos_ids /\ video_step w id = Uncaught e).
Proof.
  intros Hne Hperm.
  pose proof (download_batches_perm done_order videos_ids max_concurrency Hperm)
    as Hids.
  assert (Hraise : forall failed, failed ≡ₚ videos_ids ->
            check_failed [] failed
              = Raise (OSError "Too much videos failed to download")).
  { intros failed Hf. unfold check_failed.
    destruct failed as [|x failed]; [|reflexivity].
    symmetry in Hf. apply Permutation_nil_r in Hf. contradiction. }
  destruct (format_extensions_spec video_format) as [Hknown Hunknown].
  unfold run_download_phase. rewrite download_video_files_batches.
  repeat split.
  - intros succeeded H.
    destruct (format_extensions video_format) as [extensions|e];
      [|discriminate].
    cbn [mbind result_bind] in H.
    destruct (collect _ [] []) as [[s f]|e] eqn:Ec; [|discriminate].
    apply collect_all_failed in Ec as [-> ->]. cbn in H.
    rewrite Hraise in H by exact Hids. discriminate.
  - intros Hw Hm. now rewrite Hunknown.
  - intros Hformat Hw. destruct (Hknown Hformat) as [extensions ->].
    cbn [mbind result_bind]. rewrite (collect_returns w _ Hw).
    cbn. now rewrite Hraise by exact Hids.
  - intros e H.
    assert (Hvalid : forall extensions,
              format_extensions video_format = Ok extensions ->
              e = OSError "Too much videos failed to download" \/
              exists id, id ∈ videos_ids /\ video_step w id = Uncaught e).
    { intros extensions Hext. rewrite Hext in H. cbn [mbind result_bind] in H.
      destruct (collect _ [] []) as [[s f]|e0] eqn:Ec.
      - apply collect_all_failed in Ec as [-> ->]. cbn in H.
        rewrite Hraise in H by exact Hids. injection H as <-. now left.
      - cbn in H. injection H as ->.
        apply collect_raises in Ec as (id & Hin & Hid).
        right. exists id. split; [|assumption]. now rewrite Hids in Hin. }
    destruct (String.eqb_spec video_format "webm") as [Ew|Hw].
    { destruct (Hknown (or_introl Ew)) as [extensions Hext]. right. eauto. }
    destruct (String.eqb_spec video_format "mp4") as [Em|Hm].
    { destruct (Hknown (or_intror Em)) as [extensions Hext]. right. eauto. }
    rewrite Hunknown in H by assumption. injection H as <-. now left.
Qed.

Lemma run_download_phase_never_passes_witness :
  (forall succeeded,
     run_download_phase "mp4" engine_all_completed (fun batches => batches)
       ["a"; "b"; "c"] 2 <> Ok succeeded) /\
  ("mp4" <> "webm" -> "mp4" <> "mp4" ->
   run_download_phase "mp4" engine_all_completed (fun batches => batches)
     ["a"; "b"; "c"] 2 = Raise KeyError) /\
  ("mp4" = "webm" \/ "mp4" = "mp4" ->
   (forall id e, video_step engine_all_completed id <> Uncaught e) ->
   run_download_phase "mp4" engine_all_completed (fun batches => batches)
     ["a"; "b"; "c"] 2
     = Raise (OSError "Too much videos failed to download")) /\
  (forall e,
     run_download_phase "mp4" engine_all_completed (fun batches => batches)
       ["a"; "b"; "c"] 2 = Raise e ->
     (e = KeyError /\ "mp4" <> "webm" /\ "mp4" <> "mp4") \/
     e = OSError "Too much videos failed to download" \/
     exists id, id ∈ ["a"; "b"; "c"] /\
                video_step engine_all_completed id = Uncaught e).
Proof.
  apply (run_download_phase_never_passes "mp4" engine_all_completed
           (fun batches => batches) ["a"; "b"; "c"] 2).
  - discriminate.
  - reflexivity.
Defined.

(** The two outcomes of the download step that the example above does not
    show: an unknown format, and an engine that raises past the handlers. *)
Example run_download_phase_other_outcomes :
  run_download_phase "avi" engine_all_completed (fun batches => batches)
    ["a"; "b"; "c"] 2 = Raise KeyError /\
  run_download_phase "webm"
    {| video_step := fun id =>
         if String.eqb id "b" then Uncaught (OtherError "MemoryError")
         else Completed;
       thumbnail_step := fun _ => Completed;
       subtitles_step := fun _ => true |}
    (fun batches => batches) ["a"; "b"; "c"] 2
    = Raise (OtherError "MemoryError").
Proof. split; reflexivity. Qed.

(** The sizes of the slots when the loop ends. *)
Lemma fill_batches_sizes c (Hc : (0 < c)%nat) rest :
  forall k batches,
    length batches = c ->
    (forall j b, batches !! j = Some b -> length b = slot_size c k j) ->
    forall j b, fill_batches c rest (k mod c) batches !! j = Some b ->
                length b = slot_size c (k + length rest) j.
Proof.
  induction rest as [|v rest IH]; intros k batches Hlen Hsize j b Hb.
  - simpl in Hb. rewrite Nat.add_0_r. auto.
  - pose proof (Nat.mod_upper_bound k c ltac:(lia)) as Hm.
    cbn [fill_batches] in Hb. rewrite next_slot_mod in Hb by assumption.
    cbn [length]. replace (k + S (length rest))%nat
      with (S k + length rest)%nat by lia.
    apply (IH (S k) (alter (fun batch => batch ++ [v]) (k mod c)%nat batches));
      [now rewrite length_alter| |exact Hb].
    intros j' b' Hb'.
    assert (Hj : (j' < c)%nat).
    { rewrite <- Hlen, <- (length_alter (fun batch => batch ++ [v])
                             batches (k mod c)%nat).
      eapply lookup_lt_Some; eauto. }
    rewrite slot_size_succ by assumption.
    destruct (Nat.eq_dec j' (k mod c)%nat) as [->|Hne].
    + rewrite list_lookup_alter_eq in Hb'.
      destruct (batches !! (k mod c)%nat) as [b0|] eqn:E0; [|discriminate].
      simpl in Hb'. injection Hb' as <-. rewrite length_app. simpl.
      rewrite (Hsize _ _ E0). lia.
    + rewrite list_lookup_alter_ne in Hb' by auto. eauto.
Qed.

(** X20: the round-robin batches are balanced.  For a non-empty list of
    ids and a concurrency of at least 2, no batch is empty, batch [j] holds
    the quotient of the number of ids by the number of batches, plus one
    when [j] is below the remainder; so a batch never has more ids than an
    earlier one, and never fewer than any other less one. *)
Theorem batches_of_balanced (videos_ids : list string) (max_concurrency : Z) :
  videos_ids <> [] -> 2 <= max_concurrency ->
  let bs := batches_of videos_ids max_concurrency in
  forall j b, bs !! j = Some b ->
    length b = slot_size (length bs) (length videos_ids) j /\
    (0 < length b)%nat /\
    forall j' b', bs !! j' = Some b' ->
      (length b' <= length b + 1)%nat /\
      ((j <= j')%nat -> (length b' <= length b)%nat).
Proof.
  intros Hne Hmc bs.
  assert (Hpos : (0 < length videos_ids)%nat)
    by (destruct videos_ids; [congruence|simpl; lia]).
  assert (Hbs : (0 < length bs <= length videos_ids)%nat /\
                forall j b, bs !! j = Some b ->
                  length b = slot_size (length bs) (length videos_ids) j).
  { unfold bs, batches_of, concurrency_of.
    set (c := if Z.of_nat (length videos_ids) <? max_concurrency
              then Z.of_nat (length videos_ids) else max_concurrency).
    assert (Hc : c = Z.min (Z.of_nat (length videos_ids)) max_concurrency).
    { unfold c.
      destruct (Z.ltb_spec (Z.of_nat (length videos_ids)) max_concurrency); lia. }
    destruct (Z.leb_spec c 1) as [Hle|Hgt].
    - cbn [length]. split; [lia|]. intros [|j] b Hb; [|discriminate].
      injection Hb as <-. unfold slot_size.
      rewrite Nat.div_1_r, Nat.mod_1_r. simpl. lia.
    - destruct (round_robin_spec (Z.to_nat c) videos_ids ltac:(lia))
        as (Hl & _ & _).
      rewrite Hl. split; [lia|]. intros j b Hb. unfold round_robin in Hb.
      pose proof (fill_batches_sizes (Z.to_nat c) ltac:(lia) videos_ids 0%nat
                    (replicate (Z.to_nat c) [])) as Hs.
      rewrite Nat.Div0.mod_0_l in Hs. apply Hs; [| |exact Hb].
      + apply length_replicate.
      + intros j0 b0 Hb0. apply lookup_replicate_1 in Hb0 as [-> _].
        unfold slot_size. rewrite Nat.Div0.div_0_l, Nat.Div0.mod_0_l.
        reflexivity. }
  destruct Hbs as [Hlen Hsize]. intros j b Hb.
  pose proof (Nat.div_mod_eq (length videos_ids) (length bs)) as Ediv.
  assert (Hq : (1 <= length videos_ids / length bs)%nat).
  { apply Nat.div_le_lower_bound; lia. }
  rewrite (Hsize j b Hb). split; [reflexivity|]. split.
  - unfold slot_size. lia.
  - intros j' b' Hb'. rewrite (Hsize j' b' Hb'). unfold slot_size.
    destruct (Nat.ltb_spec j (length videos_ids mod length bs)),
             (Nat.ltb_spec j' (length videos_ids mod length bs)); lia.
Qed.

Lemma batches_of_balanced_witness :
  length ["a"; "d"; "g"]
    = slot_size (length (batches_of ["a"; "b"; "c"; "d"; "e"; "f"; "g"] 3))
        (length ["a"; "b"; "c"; "d"; "e"; "f"; "g"]) 0 /\
  (0 < length ["a"; "d"; "g"])%nat /\
  forall j' b',
    batches_of ["a"; "b"; "c"; "d"; "e"; "f"; "g"] 3 !! j' = Some b' ->
    (length b' <= length ["a"; "d"; "g"] + 1)%nat /\
    ((0 <= j')%nat -> (length b' <= length ["a"; "d"; "g"])%nat).
Proof.
  apply (batches_of_balanced ["a"; "b"; "c"; "d"; "e"; "f"; "g"] 3).
  - discriminate.
  - lia.
  - reflexivity.
Defined.

End RunFacts.

(** ** [replace_titles] *)

Section TitlesFacts.
Import Youtube.

Variable rstrip : string -> string.
Variable extract_video_id : string -> result string.
Variable open_file : string -> option (list string).

Lemma skip_to_miss video_id ids : forall v_index,
  video_id ∉ ids -> skip_to video_id ids v_index = (v_index + length ids)%nat.
Proof.
  induction ids as [|id ids IH]; intros v Hnot; simpl; [lia|].
  apply not_elem_of_cons in Hnot as [Hne Hnot].
  apply String.eqb_neq in Hne. rewrite Hne, IH by assumption. lia.
Qed.

(** Whatever the cursor, the loop only changes titles, and only into
    titles of the list. *)
Lemma replace_loop_keeps titles ids : forall items v_index result,
  replace_loop items titles ids v_index = Ok result ->
  Forall2 (fun item item' =>
             item_videoId item' = item_videoId item /\
             item_position item' = item_position item /\
             (item_title item' = item_title item \/ item_title item' ∈ titles))
    items result.
Proof.
  assert (Hrefl : forall items : list playlist_item,
            Forall2 (fun item item' =>
                       item_videoId item' = item_videoId item /\
                       item_position item' = item_position item /\
                       (item_title item' = item_title item \/
                        item_title item' ∈ titles)) items items).
  { induction items; constructor; auto. }
  induction items as [|item rest IH]; intros v result H; simpl in H.
  - injection H as <-. constructor.
  - destruct (v <? length ids)%nat; [|injection H as <-; apply Hrefl].
    destruct (skip_to _ _ _ <? length ids)%nat.
    + destruct (titles !! _) as [new_title|] eqn:Et; [|discriminate].
      destruct (replace_loop rest titles ids _) as [rest'|e] eqn:Er;
        [|discriminate].
      simpl in H. injection H as <-. constructor; [|eapply IH; eauto].
      simpl. repeat split; auto. right.
      eapply list_elem_of_lookup_2; eauto.
    + destruct (replace_loop rest titles ids _) as [rest'|e] eqn:Er;
        [|discriminate].
      simpl in H. injection H as <-. constructor; [auto|eapply IH; eauto].
Qed.

(** X21: when [replace_titles] returns, exactly two files were given, as
    many titles as ids were read from them, and the items are the same
    videos at the same positions: only titles have changed, each into one
    of the titles read. *)
Theorem replace_titles_keeps_items items custom_titles result :
  replace_titles rstrip extract_video_id open_file items custom_titles
    = Ok result ->
  length custom_titles = 2%nat /\
  exists files titles ids,
    open_files open_file custom_titles = Ok files /\
    read_files rstrip extract_video_id files [] [] = Ok (titles, ids) /\
    length titles = length ids /\
    Forall2 (fun item item' =>
               item_videoId item' = item_videoId item /\
               item_position item' = item_position item /\
               (item_title item' = item_title item \/
                item_title item' ∈ titles))
      items result.
Proof.
  unfold replace_titles. intros H.
  destruct (Nat.eqb_spec (length custom_titles) 0); [discriminate|].
  destruct (Nat.eqb_spec (length custom_titles) 1); [discriminate|].
  destruct (Nat.ltb_spec 2 (length custom_titles)); [discriminate|].
  split; [lia|].
  destruct (open_files open_file custom_titles) as [files|e] eqn:Eo;
    [|discriminate].
  simpl in H.
  destruct (read_files rstrip extract_video_id files [] [])
    as [[titles ids]|e] eqn:Er; [|discriminate].
  simpl in H.
  destruct (Nat.eqb_spec (length titles) (length ids)) as [Hlen|];
    [|discriminate].
  simpl in H. exists files, titles, ids.
  split; [reflexivity|]. split; [exact Er|]. split; [exact Hlen|].
  eapply replace_loop_keeps; eauto.
Qed.

Lemma read_lines_titles lines : forall titles ids,
  Forall (fun line => Utils.startswith line "https://" = false) lines ->
  read_lines rstrip extract_video_id lines titles ids
    = Ok (titles ++ map rstrip lines, ids).
Proof.
  induction lines as [|line lines IH]; intros titles ids Hl; simpl.
  - now rewrite app_nil_r.
  - apply Forall_cons in Hl as [-> Hl]. rewrite IH by assumption.
    now rewrite <- app_assoc.
Qed.

Lemma read_lines_ids lines : forall (items : list playlist_item) titles ids,
  Forall2 (fun line item =>
             Utils.startswith line "https://" = true /\
             extract_video_id line = Ok (item_videoId item)) lines items ->
  read_lines rstrip extract_video_id lines titles ids
    = Ok (titles, ids ++ map item_videoId items).
Proof.
  induction lines as [|line lines IH]; intros items titles ids Hl;
    inversion Hl as [|? item ? items' [Hs He] Hrest]; subst; simpl.
  - now rewrite app_nil_r.
  - rewrite Hs, He. simpl. rewrite (IH items') by assumption.
    now rewrite <- app_assoc.
Qed.

Lemma replace_loop_in_order : forall items new_titles seen_titles seen_ids,
  length seen_titles = length seen_ids ->
  length new_titles = length items ->
  replace_loop items (seen_titles ++ new_titles)
    (seen_ids ++ map item_videoId items) (length seen_ids)
  = Ok (zip_with set_title new_titles items).
Proof.
  induction items as [|item items IH];
    intros [|new_title new_titles] seen_titles seen_ids Hseen Hlen;
    try discriminate; [reflexivity|].
  cbn [replace_loop map].
  rewrite drop_app_length. cbn [skip_to]. rewrite String.eqb_refl.
  replace (length seen_ids <?
             length (seen_ids ++ item_videoId item :: map item_videoId items))%nat
    with true by (symmetry; apply Nat.ltb_lt; rewrite length_app; simpl; lia).
  rewrite lookup_app_r by lia.
  replace (length seen_ids - length seen_titles)%nat with 0%nat by lia.
  cbn [lookup list_lookup].
  pose proof (IH new_titles (seen_titles ++ [new_title])
                (seen_ids ++ [item_videoId item])) as Hrest.
  rewrite <- !app_assoc, !length_app in Hrest. cbn [app length] in Hrest.
  replace (length seen_ids + 1)%nat with (S (length seen_ids)) in Hrest by lia.
  rewrite Hrest; [reflexivity|lia|simpl in Hlen; lia].
Qed.

(** X22: the intended use.  With a file of titles (no line starts with
    [https://]) and a file of links, one per item and in the order of the
    items, each link giving the video id of its item, every item gets the
    title of its rank, stripped at the right; the two files may be given in
    either order. *)
Theorem replace_titles_in_order items custom_titles titles_file links_file
    title_lines link_lines :
  custom_titles = [titles_file; links_file] \/
  custom_titles = [links_file; titles_file] ->
  open_file titles_file = Some title_lines ->
  open_file links_file = Some link_lines ->
  Forall (fun line => Utils.startswith line "https://" = false) title_lines ->
  Forall2 (fun line item =>
             Utils.startswith line "https://" = true /\
             extract_video_id line = Ok (item_videoId item)) link_lines items ->
  length title_lines = length items ->
  replace_titles rstrip extract_video_id open_file items custom_titles
    = Ok (zip_with set_title (map rstrip title_lines) items).
Proof.
  intros Hfiles Ht Hl Htitles Hlinks Hlen.
  assert (Hread : forall files,
            files = [title_lines; link_lines] \/
            files = [link_lines; title_lines] ->
            read_files rstrip extract_video_id files [] []
              = Ok (map rstrip title_lines, map item_videoId items)).
  { intros files [-> | ->]; simpl.
    - rewrite read_lines_titles by assumption. simpl.
      now rewrite (read_lines_ids link_lines items).
    - rewrite (read_lines_ids link_lines items) by assumption. simpl.
      now rewrite read_lines_titles. }
  unfold replace_titles.
  assert (Hopen : exists files,
            open_files open_file custom_titles = Ok files /\
            (files = [title_lines; link_lines] \/
             files = [link_lines; title_lines])).
  { destruct Hfiles as [-> | ->]; unfold open_files; simpl; rewrite Ht, Hl;
      simpl; eauto. }
  destruct Hopen as (files & Hopen & Hf).
  replace (length custom_titles) with 2%nat
    by (destruct Hfiles as [-> | ->]; reflexivity).
  cbn [Nat.eqb Nat.ltb Nat.leb]. rewrite Hopen. simpl.
  rewrite (Hread files Hf). simpl.
  rewrite !length_map, Hlen, Nat.eqb_refl. simpl.
  apply (replace_loop_in_order items (map rstrip title_lines) [] []);
    [reflexivity|now rewrite length_map].
Qed.

Lemma replace_loop_exhausted titles ids : forall items v_index,
  (length ids <= v_index)%nat ->
  exists result,
    replace_loop items titles ids v_index = Ok result /\ result = items.
Proof.
  intros [|item items] v Hv; simpl; [now eexists|].
  destruct (Nat.ltb_spec v (length ids)); [lia|]. now eexists.
Qed.

Lemma replace_loop_miss titles ids item after :
  item_videoId item ∉ ids ->
  forall before v_index result,
    replace_loop (before ++ item :: after) titles ids v_index = Ok result ->
    exists before',
      result = before' ++ item :: after /\ length before' = length before.
Proof.
  intros Hmiss. induction before as [|first before IH]; intros v result H.
  - exists []. split; [|reflexivity]. cbn [app replace_loop] in H.
    destruct (Nat.ltb_spec v (length ids)) as [Hv|Hv]; [|now injection H as <-].
    rewrite skip_to_miss in H.
    2:{ intros Hin. apply Hmiss. eapply elem_of_sublist; eauto using sublist_drop. }
    rewrite length_drop in H.
    destruct (Nat.ltb_spec (v + (length ids - v)) (length ids)); [lia|].
    destruct (replace_loop_exhausted titles ids after (v + (length ids - v))%nat)
      as (r & Hr & ->); [lia|].
    rewrite Hr in H. simpl in H. now injection H as <-.
  - cbn [app replace_loop] in H.
    destruct (v <? length ids)%nat.
    + destruct (skip_to _ _ _ <? length ids)%nat.
      * destruct (titles !! _) as [new_title|]; [|discriminate].
        destruct (replace_loop (before ++ item :: after) titles ids _)
          as [rest|e] eqn:Er; [|discriminate].
        simpl in H. injection H as <-.
        apply IH in Er as (before' & -> & Hl).
        exists (set_title new_title first :: before').
        split; [reflexivity|]. simpl. now rewrite Hl.
      * destruct (replace_loop (before ++ item :: after) titles ids _)
          as [rest|e] eqn:Er; [|discriminate].
        simpl in H. injection H as <-.
        apply IH in Er as (before' & -> & Hl).
        exists (first :: before'). split; [reflexivity|]. simpl. now rewrite Hl.
    + injection H as <-. exists (first :: before). now split.
Qed.

(** X23: an item whose video id is not among the ids read ends the
    replacement: that item and every item after it keep their titles,
    whether or not the ids of the later items are listed. *)
Theorem replace_titles_stops_at_miss before item after custom_titles files
    titles ids result :
  open_files open_file custom_titles = Ok files ->
  read_files rstrip extract_video_id files [] [] = Ok (titles, ids) ->
  item_videoId item ∉ ids ->
  replace_titles rstrip extract_video_id open_file (before ++ item :: after)
    custom_titles = Ok result ->
  exists before',
    result = before' ++ item :: after /\ length before' = length before.
Proof.
  intros Hopen Hread Hmiss H. unfold replace_titles in H.
  destruct (length custom_titles =? 0)%nat; [discriminate|].
  destruct (length custom_titles =? 1)%nat; [discriminate|].
  destruct (2 <? length custom_titles)%nat; [discriminate|].
  rewrite Hopen in H. simpl in H. rewrite Hread in H. simpl in H.
  destruct (negb _); [discriminate|].
  eapply replace_loop_miss; eauto.
Qed.

End TitlesFacts.

Section TitlesExamples.
Import Youtube.

Lemma replace_titles_keeps_items_witness :
  length ["titles.txt"; "links.txt"] = 2%nat /\
  exists files titles ids,
    open_files example_open_file ["titles.txt"; "links.txt"] = Ok files /\
    read_files example_rstrip example_extract_video_id files [] []
      = Ok (titles, ids) /\
    length titles = length ids /\
    Forall2 (fun item item' =>
               item_videoId item' = item_videoId item /\
               item_position item' = item_position item /\
               (item_title item' = item_title item \/
                item_title item' ∈ titles))
      [example_item "a1" 0; example_item "a2" 1]
      [set_title "First" (example_item "a1" 0);
       set_title "Second" (example_item "a2" 1)].
Proof.
  apply (replace_titles_keeps_items example_rstrip example_extract_video_id
           example_open_file [example_item "a1" 0; example_item "a2" 1]
           ["titles.txt"; "links.txt"]).
  reflexivity.
Defined.

Lemma replace_titles_in_order_witness :
  replace_titles example_rstrip example_extract_video_id example_open_file
    [example_item "a1" 0; example_item "a2" 1] ["links.txt"; "titles.txt"]
  = Ok (zip_with set_title
          (map example_rstrip
             [String.append "First" (String "010" EmptyString);
              String.append "Second" (String "010" EmptyString)])
          [example_item "a1" 0; example_item "a2" 1]).
Proof.
  apply (replace_titles_in_order example_rstrip example_extract_video_id
           example_open_file [example_item "a1" 0; example_item "a2" 1]
           ["links.txt"; "titles.txt"] "titles.txt" "links.txt"
           [String.append "First" (String "010" EmptyString);
            String.append "Second" (String "010" EmptyString)]
           [String.append "https://youtu.be/a1" (String "010" EmptyString);
            String.append "https://youtu.be/a2" (String "010" EmptyString)]).
  - now right.
  - reflexivity.
  - reflexivity.
  - repeat constructor.
  - repeat constructor.
  - reflexivity.
Defined.

(** The first item is not listed: the second, which is, keeps its title. *)
Lemma replace_titles_stops_at_miss_witness :
  exists before',
    [example_item "zz" 0; example_item "a1" 1]
      = before' ++ example_item "zz" 0 :: [example_item "a1" 1] /\
    length before' = length ([] : list playlist_item).
Proof.
  apply (replace_titles_stops_at_miss example_rstrip example_extract_video_id
           example_open_file [] (example_item "zz" 0) [example_item "a1" 1]
           ["titles.txt"; "links.txt"]
           [[String.append "First" (String "010" EmptyString);
             String.append "Second" (String "010" EmptyString)];
            [String.append "https://youtu.be/a1" (String "010" EmptyString);
             String.append "https://youtu.be/a2" (String "010" EmptyString)]]
           ["First"; "Second"] ["a1"; "a2"]).
  - reflexivity.
  - reflexivity.
  - apply (bool_decide_unpack _). vm_compute. exact I.
  - reflexivity.
Defined.

End TitlesExamples.

(** ** [get_videos_authors_info] *)

Section AuthorsFacts.
Import Youtube.

(** The entry of an item is never built: the key is missing, the view
    count is not a number, or the year, a string, is added to 1. *)
Lemma author_entry_raises now_year item :
  exists e,
    author_entry now_year item = Raise e /\
    (e = KeyError \/ e = ValueError "invalid literal for int()" \/ e = TypeError).
Proof.
  assert (Hint : forall s e, py_int s = Raise e ->
                   e = ValueError "invalid literal for int()").
  { intros s e. unfold py_int.
    destruct (list_ascii_of_string s) as [|c l]; [congruence|].
    destruct (digits_value 0 (c :: l)); congruence. }
  unfold author_entry, key_viewPerYear.
  destruct (viewPerYear _); cbn [mbind result_bind];
    [|exists KeyError; auto].
  destruct (py_int _) as [views|e] eqn:Ev; cbn [mbind result_bind].
  - exists TypeError. auto.
  - apply Hint in Ev as ->. eauto.
Qed.

Lemma update_items_ok now_year items req_items result :
  update_items now_year items req_items = Ok result ->
  items = [] /\ result = req_items.
Proof.
  destruct items as [|item rest]; simpl.
  - intros [= <-]. auto.
  - destruct (author_entry_raises now_year item) as (e & -> & _). discriminate.
Qed.

Lemma retrieve_videos_for_ok now_year response : forall req_items result,
  retrieve_videos_for now_year response req_items = Ok result ->
  result = req_items.
Proof.
  induction response as [|items|items next IH]; intros req result H; simpl in H.
  - discriminate.
  - now apply update_items_ok in H as [_ ->].
  - destruct (update_items now_year items req) as [req'|e] eqn:Eu;
      [|discriminate].
    apply update_items_ok in Eu as [_ ->]. simpl in H. auto.
Qed.

Lemma authors_chunks_ok now_year api videos_ids : forall starts items result,
  authors_chunks now_year api videos_ids starts items = Ok result ->
  result = items.
Proof.
  induction starts as [|interv starts IH]; intros items result H; simpl in H.
  - now injection H as <-.
  - destruct (retrieve_videos_for now_year _ ∅) as [req|e] eqn:Er;
      [|discriminate].
    apply retrieve_videos_for_ok in Er as ->. simpl in H.
    apply IH in H as ->. apply (left_id_L ∅ (∪)).
Qed.

(** X24: without a cached [videos_channels], what
    [get_videos_authors_info] returns is the empty dictionary, which it
    saves: no author is ever recorded. *)
Theorem get_videos_authors_info_fresh now_year api videos_ids result
    videos_channels :
  get_videos_authors_info now_year api videos_ids None
    = (Ok result, videos_channels) ->
  result = ∅ /\ videos_channels = Some ∅.
Proof.
  unfold get_videos_authors_info. intros H.
  destruct (authors_chunks now_year api videos_ids _ ∅) as [items|e] eqn:Ec;
    [|discriminate].
  apply authors_chunks_ok in Ec as ->. now injection H as <- <-.
Qed.

Lemma get_videos_authors_info_fresh_witness :
  (∅ : gmap string author_info) = ∅ /\
  Some (∅ : gmap string author_info) = Some ∅.
Proof.
  apply (get_videos_authors_info_fresh 2026 (fun _ => ResourcesLast []) ["a"]).
  reflexivity.
Defined.

(** X25: without a cached [videos_channels], as soon as the platform
    answers the first request with an item, [get_videos_authors_info]
    raises [KeyError], [ValueError] or [TypeError], and saves nothing. *)
Theorem get_videos_authors_info_raises now_year api videos_ids item rest :
  videos_ids <> [] ->
  api (take 50 videos_ids) = ResourcesLast (item :: rest) \/
  (exists next, api (take 50 videos_ids) = ResourcesNext (item :: rest) next) ->
  exists e,
    get_videos_authors_info now_year api videos_ids None = (Raise e, None) /\
    (e = KeyError \/ e = ValueError "invalid literal for int()" \/ e = TypeError).
Proof.
  intros Hne Hapi. unfold get_videos_authors_info.
  destruct (py_range_chunks (length videos_ids)) as (-> & _ & Hge).
  destruct ((length videos_ids + 49) / 50)%nat as [|q] eqn:Eq.
  { destruct videos_ids; [congruence|]. simpl in Hge. lia. }
  cbn [seq map authors_chunks]. rewrite drop_0.
  destruct (author_entry_raises now_year item) as (e & He & Hcases).
  exists e. split; [|assumption].
  destruct Hapi as [-> | [next ->]]; simpl; rewrite He; reflexivity.
Qed.

Lemma get_videos_authors_info_raises_witness :
  exists e,
    get_videos_authors_info 2026
      (fun _ => ResourcesLast
                  [{| resource_video := example_video_enriched;
                      resource_channelId := "UCx";
                      resource_channelTitle := "X" |}])
      ["a"] None = (Raise e, None) /\
    (e = KeyError \/ e = ValueError "invalid literal for int()" \/ e = TypeError).
Proof.
  apply (get_videos_authors_info_raises 2026
           (fun _ => ResourcesLast
                       [{| resource_video := example_video_enriched;
                           resource_channelId := "UCx";
                           resource_channelTitle := "X" |}])
           ["a"]
           {| resource_video := example_video_enriched;
              resource_channelId := "UCx";
              resource_channelTitle := "X" |} []).
  - discriminate.
  - now left.
Defined.

End AuthorsFacts.

(** ** The playlists of the downloader *)

Section PlaylistsFacts.
Import Youtube Downloader.

(** X26: for a collection that is neither a channel nor a user,
    [is_single_channel] holds exactly when there is at least one playlist
    and all the playlists have one creator; without playlists it is false. *)
Theorem is_single_channel_spec collection_type playlists :
  is_single_channel collection_type playlists = true <->
  collection_type = Some "channel" \/ collection_type = Some "user" \/
  exists p, p ∈ playlists /\
            forall q, q ∈ playlists -> creator_id q = creator_id p.
Proof.
  unfold is_single_channel. split.
  - destruct (bool_decide (collection_type = Some "channel")) eqn:Ec;
      [apply bool_decide_eq_true in Ec; auto|].
    destruct (bool_decide (collection_type = Some "user")) eqn:Eu;
      [apply bool_decide_eq_true in Eu; auto|].
    simpl. intros H%bool_decide_eq_true. right. right.
    destruct (size_1_elem_of _ H) as [c Hc].
    assert (Hin : c ∈ map creator_id playlists).
    { apply (elem_of_list_to_set (C := gset string)). rewrite Hc.
      now apply elem_of_singleton. }
    apply list_elem_of_fmap in Hin as (p & -> & Hp).
    exists p. split; [assumption|]. intros q Hq.
    assert (Hq' : creator_id q ∈ (list_to_set (map creator_id playlists)
                                    : gset string)).
    { apply elem_of_list_to_set, list_elem_of_fmap. now exists q. }
    rewrite Hc in Hq'. now apply elem_of_singleton in Hq'.
  - intros [-> | [-> | (p & Hp & Hall)]]; [reflexivity|reflexivity|].
    destruct (_ || _); [reflexivity|]. apply bool_decide_eq_true.
    assert (Hset : (list_to_set (map creator_id playlists) : gset string)
                   ≡ {[creator_id p]}).
    { intros c. rewrite elem_of_list_to_set, elem_of_singleton. split.
      - intros (q & -> & Hq)%list_elem_of_fmap. auto.
      - intros ->. apply list_elem_of_fmap. now exists p. }
    rewrite Hset. apply size_singleton.
Qed.

Lemma StronglySorted_remove {A} (R : A -> A -> Prop) l1 x l2 :
  StronglySorted R (l1 ++ x :: l2) -> StronglySorted R (l1 ++ l2).
Proof.
  induction l1 as [|y l1 IH]; simpl; intros H.
  - now apply StronglySorted_inv in H as [H _].
  - apply StronglySorted_inv in H as [H Hy]. constructor; [auto|].
    rewrite Forall_app in Hy |- *. destruct Hy as [H1 H2]. split; [assumption|].
    now apply Forall_cons in H2 as [_ H2].
Qed.

(** The sort by title is ascending, and holds the playlists given. *)
Lemma sorted_by_title_spec playlists :
  sorted_by_title playlists ≡ₚ playlists /\
  StronglySorted (fun p q => String.ltb (title q) (title p) = false)
    (sorted_by_title playlists).
Proof.
  unfold sorted_by_title. split.
  - rewrite sort_desc_perm. change (map snd ?l) with (l.*2).
    rewrite snd_zip; [reflexivity|]. rewrite length_map. lia.
  - assert (Hkeys : Forall (fun kp : string * Playlist => kp.1 = title kp.2)
                      (sort_desc String.ltb (zip (map title playlists) playlists))).
    { rewrite sort_desc_perm. apply Forall_forall. intros [k p] Hin.
      apply list_elem_of_lookup_1 in Hin as [i Hi].
      apply lookup_zip_with_Some in Hi as (k' & p' & [= -> ->] & Hk & Hp).
      change (map title playlists) with (title <$> playlists) in Hk.
      rewrite list_lookup_fmap, Hp in Hk. now injection Hk as <-. }
    pose proof (sort_desc_sorted String.ltb
                  (fun a b H => string_gt_asym b a H)
                  (fun a b c H1 H2 => string_gt_le_trans c b a H2 H1)
                  (zip (map title playlists) playlists)) as Hs.
    induction Hs as [|[k p] l Hl IH Hp]; simpl; [constructor|].
    apply Forall_cons in Hkeys as [Hk Hkeys]. simpl in Hk. subst k.
    constructor; [auto|]. apply Forall_forall. intros q Hq.
    apply list_elem_of_fmap in Hq as ([k q'] & -> & Hq).
    rewrite Forall_forall in Hp, Hkeys.
    specialize (Hp _ Hq). specialize (Hkeys _ Hq).
    unfold not_above in Hp. simpl in *. now subst k.
Qed.

(** The index of the comprehension is one of a playlist with the id. *)
Lemma uploads_index_spec sorted id p :
  p ∈ sorted -> playlist_id p = id ->
  exists q, sorted !! uploads_index sorted id = Some q /\ playlist_id q = id.
Proof.
  intros Hp Hid. unfold uploads_index.
  set (found := filter _ _).
  assert (Hne : found <> []).
  { apply list_elem_of_lookup_1 in Hp as [i Hi].
    assert (Hin : (i, p) ∈ found).
    { apply list_elem_of_filter. split; [exact Hid|].
      now apply (elem_of_lookup_imap_2 pair). }
    intros E. rewrite E in Hin. inversion Hin. }
  destruct (last found) as [[i q]|] eqn:El.
  - change (map fst found) with (fst <$> found). rewrite fmap_last, El. simpl.
    apply last_Some in El as [l' El].
    assert (Hin : (i, q) ∈ found)
      by (rewrite El; apply elem_of_app; right; now left).
    apply list_elem_of_filter in Hin as [Hq Hin]. simpl in Hq.
    apply elem_of_lookup_imap_1 in Hin as (j & q' & [= -> ->] & Hj).
    now exists q'.
  - apply last_None in El. contradiction.
Qed.

(** X27: [sorted_playlists] always returns, and returns the playlists
    given, rearranged.  With two playlists or more: when an uploads
    playlist is named and is one of them, it comes first and the others
    follow by ascending title; when none is named, or the one named is not
    among them, the whole list is by ascending title. *)
Theorem sorted_playlists_spec playlists uploads_playlist_id :
  exists sorted,
    sorted_playlists playlists uploads_playlist_id = Ok sorted /\
    sorted ≡ₚ playlists /\
    ((length playlists < 2)%nat -> sorted = playlists) /\
    ((2 <= length playlists)%nat ->
     (forall id p, uploads_playlist_id = Some id -> id <> "" ->
        p ∈ playlists -> playlist_id p = id ->
        exists first rest,
          sorted = first :: rest /\ playlist_id first = id /\
          StronglySorted (fun p q => String.ltb (title q) (title p) = false)
            rest) /\
     (uploads_playlist_id = None \/ uploads_playlist_id = Some "" \/
      (forall p, p ∈ playlists -> Some (playlist_id p) <> uploads_playlist_id) ->
      StronglySorted (fun p q => String.ltb (title q) (title p) = false)
        sorted)).
Proof.
  unfold sorted_playlists.
  destruct (Nat.ltb_spec (length playlists) 2) as [Hlt|Hge].
  { exists playlists. repeat split; auto; lia. }
  destruct (sorted_by_title_spec playlists) as [Hperm Hsorted].
  set (sorted := sorted_by_title playlists) in *.
  set (index := match uploads_playlist_id with
                | Some id => if String.eqb id "" then 0%nat
                             else uploads_index sorted id
                | None => 0%nat
                end).
  assert (Hlen : length sorted = length playlists) by now rewrite Hperm.
  assert (Hzero : exists p0, sorted !! 0%nat = Some p0).
  { destruct sorted as [|p0 ?]; [simpl in Hlen; lia|now exists p0]. }
  assert (Hindex : exists p, sorted !! index = Some p).
  { unfold index. destruct uploads_playlist_id as [id|]; [|assumption].
    destruct (String.eqb_spec id ""); [assumption|].
    destruct (decide (Exists (fun p => playlist_id p = id) sorted)) as [He|He].
    - apply Exists_exists in He as (p & Hp & Hid).
      destruct (uploads_index_spec sorted id p Hp Hid) as (q & Hq & _). eauto.
    - unfold uploads_index. rewrite filter_none; [exact Hzero|].
      apply Forall_forall. intros [i p] Hin Hid. apply He.
      apply Exists_exists. exists p. split; [|exact Hid].
      apply elem_of_lookup_imap_1 in Hin as (j & q & [= -> ->] & Hj).
      eapply list_elem_of_lookup_2; eauto. }
  destruct Hindex as [p Hp]. rewrite Hp.
  eexists. split; [reflexivity|].
  assert (Hmid : [p] ++ take index sorted ++ drop (S index) sorted ≡ₚ sorted).
  { rewrite <- (take_drop_middle sorted index p Hp) at 3.
    simpl. apply Permutation_middle. }
  split; [now rewrite Hmid|]. split; [lia|]. intros _. split.
  - intros id q -> Hid Hq Hqid. exists p, (take index sorted ++ drop (S index) sorted).
    split; [reflexivity|]. split.
    + unfold index in Hp. apply String.eqb_neq in Hid. rewrite Hid in Hp.
      rewrite <- Hperm in Hq.
      destruct (uploads_index_spec sorted id q Hq Hqid) as (q' & Hq' & Hid').
      congruence.
    + apply (StronglySorted_remove _ _ p).
      now rewrite (take_drop_middle sorted index p Hp).
  - intros Hnone.
    assert (index = 0%nat) as Ei.
    { unfold index. destruct Hnone as [-> | [-> | Hnot]]; [reflexivity..|].
      destruct uploads_playlist_id as [id|]; [|reflexivity].
      destruct (String.eqb id ""); [reflexivity|].
      unfold uploads_index. rewrite filter_none; [reflexivity|].
      apply Forall_forall. intros [i q] Hin Hid. simpl in Hid.
      apply elem_of_lookup_imap_1 in Hin as (j & q' & [= -> ->] & Hj).
      apply (Hnot q'); [|now rewrite Hid].
      rewrite <- Hperm. eapply list_elem_of_lookup_2; eauto. }
    rewrite Ei in Hp |- *. rewrite take_0. simpl.
    destruct sorted as [|p0 rest]; [discriminate|].
    simpl in Hp. injection Hp as ->. exact Hsorted.
Qed.

End PlaylistsFacts.
